(** * angr's fast data dependence graph (angr/analyses/ddg.py)

    A shallow embedding of the [DDG] analysis: the per-state replay of the
    action log ([_track]), the live-definition store ([_def_lookup], [_kill]),
    the guarded edge insertion ([_add_edge]) and the worklist loop of
    [_construct], followed by the properties established about them.

    Python objects that the analysis mutates in place are modelled with an
    explicit store: the sets of code locations held in the live-definition
    dictionaries are cells of a heap, and a dictionary maps a variable to the
    address of its cell, so that two dictionaries sharing one set object share
    one cell. *)

From stdpp Require Import gmap strings list fin_maps.
From Stdlib Require Import ZArith Lia.

Local Open Scope string_scope.
Local Open Scope list_scope.
Local Open Scope Z_scope.

(** ** Exceptions *)

Inductive exn :=
| KeyError
| TypeError
| AngrDDGError.

Inductive res (A : Type) :=
| Ok (a : A)
| Err (e : exn).

Arguments Ok {A} a.
Arguments Err {A} e.

Global Instance res_bind : MBind res := λ A B k m,
  match m with
  | Ok a => k a
  | Err e => Err e
  end.

(** [for x in l: body] where the body may raise. *)
Fixpoint for_each {A S} (body : S → A → res S) (l : list A) (s : S) : res S :=
  match l with
  | [] => Ok s
  | x :: l' => s' ← body s x; for_each body l' s'
  end.

(** ** Code locations and variables *)

(** Modelled from the spec: the [CodeLocation] class (code_location.py is not
    part of the sources at hand).  A program point is a block address with a
    statement index, or the marker of a SimProcedure when there is no block
    address; two code locations are equal iff their fields are. *)
Record CodeLocation := mkCodeLocation {
  cl_bbl_addr : option Z;
  cl_stmt_idx : option Z;
  cl_sim_procedure : option string
}.

Global Instance CodeLocation_eq_dec : EqDecision CodeLocation.
Proof. solve_decision. Defined.

Global Instance CodeLocation_countable : Countable CodeLocation.
Proof.
  refine (inj_countable'
            (λ c, (cl_bbl_addr c, cl_stmt_idx c, cl_sim_procedure c))
            (λ t, mkCodeLocation t.1.1 t.1.2 t.2) _).
  by intros [].
Defined.

(** simuvex's variables.  [_track] only builds register and memory variables;
    [SimTemporaryVariable] stands for the other kinds, which [_def_lookup]
    rejects. *)
Inductive SimVariable :=
| SimRegisterVariable (reg size : Z)
| SimMemoryVariable (addr size : Z)
| SimTemporaryVariable (tmp_id : Z).

Global Instance SimVariable_eq_dec : EqDecision SimVariable.
Proof. solve_decision. Defined.

Global Instance SimVariable_countable : Countable SimVariable.
Proof.
  refine (inj_countable'
            (λ v, match v with
                  | SimRegisterVariable r s => inl (r, s)
                  | SimMemoryVariable a s => inr (inl (a, s))
                  | SimTemporaryVariable t => inr (inr t)
                  end)
            (λ x, match x with
                  | inl (r, s) => SimRegisterVariable r s
                  | inr (inl (a, s)) => SimMemoryVariable a s
                  | inr (inr t) => SimTemporaryVariable t
                  end) _).
  by intros [].
Defined.

(** ** Edge labels *)

(** Values stored in an edge's label dictionary. *)
Inductive label_value :=
| LStr (s : string)
| LInt (z : Z)
| LVar (v : SimVariable)
| LTuple (t : list label_value).

Abbreviation labels := (gmap string label_value).

(** [old + (v,)]: concatenation is only defined on tuples. *)
Definition tuple_add (old v : label_value) : res label_value :=
  match old with
  | LTuple t => Ok (LTuple (t ++ [v]))
  | _ => Err TypeError
  end.

(** ** The dependence graph *)

(** networkx's [DiGraph], seen through [edges()]: the edges in insertion order
    with their attribute dictionaries. *)
Abbreviation edge := (CodeLocation * CodeLocation * labels)%type.
Abbreviation DiGraph := (list edge).

Definition edge_key (e : edge) : CodeLocation * CodeLocation := e.1.

Definition has_edge (g : DiGraph) (s_a s_b : CodeLocation) : bool :=
  bool_decide ((s_a, s_b) ∈ edge_key <$> g).

(** [graph.add_edge(u, v, **attr)]: updates the attributes of an existing edge,
    creates the edge otherwise. *)
Fixpoint nx_add_edge (g : DiGraph) (u v : CodeLocation) (attr : labels) : DiGraph :=
  match g with
  | [] => [(u, v, attr)]
  | (u', v', d) :: g' =>
      if decide ((u', v') = (u, v)) then (u', v', attr ∪ d) :: g'
      else (u', v', d) :: nx_add_edge g' u v attr
  end.

(** [DDG._add_edge]. *)
Definition _add_edge (g : DiGraph) (s_a s_b : CodeLocation) (edge_labels : labels) : DiGraph :=
  if negb (has_edge g s_a s_b) then nx_add_edge g s_a s_b edge_labels
  else g.

Definition edge_labels_of (g : DiGraph) (s_a s_b : CodeLocation) : option labels :=
  (λ p : nat * edge, p.2.2) <$> list_find (λ e, edge_key e = (s_a, s_b)) g.

(** ** The live-definition store *)

(** The set objects, by address.  A set is allocated at the end of the heap
    and is never freed. *)
Abbreviation heap := (list (gset CodeLocation)).

(** A live-definition dictionary: variable -> address of its set. *)
Abbreviation live_defs_t := (gmap SimVariable nat).

Definition deref (h : heap) (r : nat) : gset CodeLocation := default ∅ (h !! r).

(** The definitions of [variable] recorded in a dictionary ([None]: no key). *)
Definition defs_of (h : heap) (live_defs : live_defs_t) (variable : SimVariable)
  : option (gset CodeLocation) :=
  deref h <$> live_defs !! variable.

Definition variable_type (variable : SimVariable) : res string :=
  match variable with
  | SimMemoryVariable _ _ => Ok "mem"
  | SimRegisterVariable _ _ => Ok "reg"
  | _ => Err AngrDDGError
  end.

(** [prevdefs[code_loc]['count'] + 1] *)
Definition next_count (l : labels) : res Z :=
  match l !! "count" with
  | Some (LInt c) => Ok (c + 1)
  | Some _ => Err TypeError
  | None => Err KeyError
  end.

Definition def_lookup_step (keep_data : bool) (variable : SimVariable)
    (prevdefs : gmap CodeLocation labels) (code_loc : CodeLocation)
  : res (gmap CodeLocation labels) :=
  type_ ← variable_type variable;
  if keep_data then
    Ok (<[code_loc := <["type" := LStr type_]> {["data" := LVar variable]}]> prevdefs)
  else
    count ← match prevdefs !! code_loc with
            | Some l => next_count l
            | None => Ok 0
            end;
    Ok (<[code_loc := <["type" := LStr type_]> {["count" := LInt count]}]> prevdefs).

(** [DDG._def_lookup] *)
Definition _def_lookup (keep_data : bool) (h : heap) (live_defs : live_defs_t)
    (variable : SimVariable) : res (gmap CodeLocation labels) :=
  match live_defs !! variable with
  | Some r => for_each (def_lookup_step keep_data variable) (elements (deref h r)) ∅
  | None => Ok ∅
  end.

(** [DDG._kill]: [live_defs[variable] = {code_loc}] binds the variable to a
    new set object. *)
Definition _kill (h : heap) (live_defs : live_defs_t) (variable : SimVariable)
    (code_loc : CodeLocation) : heap * live_defs_t :=
  (h ++ [{[code_loc]}], <[variable := length h]> live_defs).

(** ** Actions and states *)

Inductive action_type := T_mem | T_reg | T_tmp | T_exit | T_other.
Inductive action_kind := A_read | A_write.

Global Instance action_type_eq_dec : EqDecision action_type.
Proof. solve_decision. Defined.
Global Instance action_kind_eq_dec : EqDecision action_kind.
Proof. solve_decision. Defined.

(** A [SimActionObject]: [obj_ast] is the concrete value the solver gives for
    the expression ([state.se.any_int(a.addr.ast)]), [obj_size] its width
    ([ast.size()]). *)
Record SimActionObject := mkObj {
  obj_ast : Z;
  obj_size : Z;
  obj_reg_deps : list Z;
  obj_tmp_deps : list Z
}.

Record SimAction := mkAction {
  a_bbl_addr : option Z;
  a_stmt_idx : option Z;
  a_sim_procedure : option string;
  a_type : action_type;
  a_action : action_kind;
  a_addr : SimActionObject;
  a_data : SimActionObject;
  a_actual_addrs : option (list Z);
  a_offset : Z;
  a_tmp : Z;
  a_tmp_deps : list Z
}.

Record SimState := mkState {
  jumpkind : string;
  ip : Z;                      (* state.se.any_int(state.ip) *)
  actions : list SimAction     (* state.log.actions *)
}.

Definition code_loc_of (a : SimAction) : CodeLocation :=
  match a_bbl_addr a with
  | None => mkCodeLocation None None (a_sim_procedure a)
  | Some b => mkCodeLocation (Some b) (a_stmt_idx a) None
  end.

(** ** Replaying an action log: [DDG._track] *)

(** The two [defaultdict(list)] of pending edges. *)
Abbreviation edge_dict := (gmap Z (list edge)).

(** [dict_[key]] on a [defaultdict(list)]: a missing key is created. *)
Definition dd_get (dict_ : edge_dict) (key : Z) : list edge := default [] (dict_ !! key).
Definition dd_touch (dict_ : edge_dict) (key : Z) : edge_dict := <[key := dd_get dict_ key]> dict_.
Definition dd_append (dict_ : edge_dict) (key : Z) (e : edge) : edge_dict :=
  <[key := dd_get dict_ key ++ [e]]> dict_.

Definition annotate_label (l : labels) (kv : string * label_value) : res labels :=
  match l !! kv.1 with
  | Some old => new ← tuple_add old kv.2; Ok (<[kv.1 := new]> l)
  | None => Ok (<[kv.1 := LTuple [kv.2]]> l)
  end.

Definition annotate_edge (new_labels : list (string * label_value))
    (done : list edge) (edge_tuple : edge) : res (list edge) :=
  l ← for_each annotate_label new_labels edge_tuple.2;
  Ok (done ++ [(edge_tuple.1, l)]).

Definition _annotate_edges_in_dict (dict_ : edge_dict) (key : Z)
    (new_labels : list (string * label_value)) : res edge_dict :=
  edges ← for_each (annotate_edge new_labels) (dd_get dict_ key) [];
  Ok (<[key := edges]> dict_).

Definition add_edges (g : DiGraph) (edges : list edge) : DiGraph :=
  foldl (λ g e, _add_edge g e.1.1 e.1.2 e.2) g edges.

Definition _dump_edge_from_dict (g : DiGraph) (dict_ : edge_dict) (key : Z) (del_key : bool)
  : DiGraph * edge_dict :=
  (add_edges g (dd_get dict_ key),
   if del_key then delete key dict_ else dd_touch dict_ key).

(** The state threaded through the replay of one action log: the heap of set
    objects, the local copy of [live_defs], [temps], the two dictionaries of
    pending edges, and the graph [self._graph]. *)
Record track_state := mkTS {
  ts_heap : heap;
  ts_live_defs : live_defs_t;
  ts_temps : gmap Z CodeLocation;
  ts_temps_to_edges : edge_dict;
  ts_regs_to_edges : edge_dict;
  ts_graph : DiGraph
}.

Definition subtype (v : string) : list (string * label_value) := [("subtype", LStr v)].

Definition annotate_all (v : string) (dict_ : edge_dict) (deps : list Z) : res edge_dict :=
  for_each (λ d key, _annotate_edges_in_dict d key (subtype v)) deps dict_.

(** [if key in dict_: _dump_edge_from_dict(dict_, key)] *)
Definition dump_if_present (g : DiGraph) (dict_ : edge_dict) (key : Z) : DiGraph * edge_dict :=
  if decide (is_Some (dict_ !! key)) then _dump_edge_from_dict g dict_ key true
  else (g, dict_).

(** [addr_list] of a memory action, in iteration order. *)
Definition addr_list (a : SimAction) : list Z :=
  match a_actual_addrs a with
  | None => elements ({[ obj_ast (a_addr a) ]} : gset Z)
  | Some addrs => elements (list_to_set addrs : gset Z)
  end.

(** Body of [for addr in addr_list] for a memory action. *)
Definition track_mem (keep_data : bool) (a : SimAction) (current_code_loc : CodeLocation)
    (st : track_state) (addr : Z) : res track_state :=
  let variable := SimMemoryVariable addr (obj_size (a_data a)) in
  g ← (if decide (a_action a = A_read) then
         prevdefs ← _def_lookup keep_data (ts_heap st) (ts_live_defs st) variable;
         Ok (add_edges (ts_graph st)
               ((λ p : CodeLocation * labels, (p.1, current_code_loc, p.2))
                  <$> map_to_list prevdefs))
       else Ok (ts_graph st));
  let hl := if decide (a_action a = A_write)
            then _kill (ts_heap st) (ts_live_defs st) variable current_code_loc
            else (ts_heap st, ts_live_defs st) in
  regs ← annotate_all "mem_addr" (ts_regs_to_edges st) (obj_reg_deps (a_addr a));
  temps ← annotate_all "mem_addr" (ts_temps_to_edges st) (obj_tmp_deps (a_addr a));
  regs ← annotate_all "mem_data" regs (obj_reg_deps (a_data a));
  temps ← annotate_all "mem_data" temps (obj_tmp_deps (a_data a));
  Ok (mkTS hl.1 hl.2 (ts_temps st) temps regs g).

Definition track_reg (keep_data : bool) (a : SimAction) (current_code_loc : CodeLocation)
    (st : track_state) : res track_state :=
  let variable := SimRegisterVariable (a_offset a) (obj_size (a_data a)) in
  if decide (a_action a = A_read) then
    prevdefs ← _def_lookup keep_data (ts_heap st) (ts_live_defs st) variable;
    let gd := dump_if_present (ts_graph st) (ts_regs_to_edges st) (a_offset a) in
    let regs := foldl (λ d (p : CodeLocation * labels),
                         dd_append d (a_offset a) (p.1, current_code_loc, p.2))
                  gd.2 (map_to_list prevdefs) in
    Ok (mkTS (ts_heap st) (ts_live_defs st) (ts_temps st) (ts_temps_to_edges st) regs gd.1)
  else
    let hl := _kill (ts_heap st) (ts_live_defs st) variable current_code_loc in
    Ok (mkTS hl.1 hl.2 (ts_temps st) (ts_temps_to_edges st) (ts_regs_to_edges st) (ts_graph st)).

(** The edge queued for a read of temporary [tmp]: [temps[tmp]] raises
    [KeyError] when the temporary has no definition. *)
Definition queue_tmp_edge (type_ : string) (current_code_loc : CodeLocation)
    (st : track_state) (tmp : Z) : res track_state :=
  match ts_temps st !! tmp with
  | None => Err KeyError
  | Some prev_code_loc =>
      let edge_tuple : edge :=
        (prev_code_loc, current_code_loc,
         <["type" := LStr type_]> {["data" := LInt tmp]}) in
      let gd := dump_if_present (ts_graph st) (ts_temps_to_edges st) tmp in
      Ok (mkTS (ts_heap st) (ts_live_defs st) (ts_temps st)
            (dd_append gd.2 tmp edge_tuple) (ts_regs_to_edges st) gd.1)
  end.

Definition track_tmp (a : SimAction) (current_code_loc : CodeLocation)
    (st : track_state) : res track_state :=
  if decide (a_action a = A_read) then
    queue_tmp_edge "tmp" current_code_loc st (a_tmp a)
  else
    Ok (mkTS (ts_heap st) (ts_live_defs st) (<[a_tmp a := current_code_loc]> (ts_temps st))
          (ts_temps_to_edges st) (ts_regs_to_edges st) (ts_graph st)).

(** Body of [for a in action_list]. *)
Definition track_action (keep_data : bool) (st : track_state) (a : SimAction) : res track_state :=
  let current_code_loc := code_loc_of a in
  match a_type a with
  | T_mem => for_each (track_mem keep_data a current_code_loc) (addr_list a) st
  | T_reg => track_reg keep_data a current_code_loc st
  | T_tmp => track_tmp a current_code_loc st
  | T_exit => for_each (queue_tmp_edge "exit" current_code_loc) (a_tmp_deps a) st
  | T_other => Ok st
  end.

(** [for key in dict_: _dump_edge_from_dict(dict_, key, del_key=False)] *)
Definition dump_all (g : DiGraph) (dict_ : edge_dict) : DiGraph * edge_dict :=
  foldl (λ (gd : DiGraph * edge_dict) key, _dump_edge_from_dict gd.1 gd.2 key false)
    (g, dict_) (map_to_list dict_).*1.

Definition track_finish (st : track_state) : track_state :=
  let gr := dump_all (ts_graph st) (ts_regs_to_edges st) in
  let gt := dump_all gr.1 (ts_temps_to_edges st) in
  mkTS (ts_heap st) (ts_live_defs st) (ts_temps st) gt.2 gr.2 gt.1.

Definition track_init (h : heap) (g : DiGraph) (live_defs : live_defs_t) : track_state :=
  mkTS h live_defs ∅ ∅ ∅ g.

Definition track_loop (keep_data : bool) (action_list : list SimAction) (st : track_state)
  : res track_state :=
  for_each (track_action keep_data) action_list st.

(** [DDG._track]: returns the new live definitions, with the heap and the
    graph as the replay leaves them. *)
Definition _track (keep_data : bool) (h : heap) (g : DiGraph) (state : SimState)
    (live_defs : live_defs_t) : res (heap * DiGraph * live_defs_t) :=
  st ← track_loop keep_data (actions state) (track_init h g live_defs);
  let st := track_finish st in
  Ok (ts_heap st, ts_graph st, ts_live_defs st).

(** ** The control-flow graph *)

Record CFGNode := mkNode {
  addr : Z;
  final_states : list SimState
}.

(** Nodes are named by a number; [cfg_graph] is the adjacency of the networkx
    graph [cfg.graph] (a node without successors maps to the empty list). *)
Record CFG := mkCFG {
  cfg_node : nat → CFGNode;
  cfg_graph : gmap nat (list nat)
}.

Definition successors (cfg : CFG) (n : nat) : list nat := default [] (cfg_graph cfg !! n).

Definition cfg_nodes (cfg : CFG) : list nat := (map_to_list (cfg_graph cfg)).*1.

(** Modelled from the spec: the lookup-by-address of the CFG collaborator
    ([cfg.get_any_node], the spec's [node_at]); the CFG class is not part of the
    sources at hand.  It yields a node of the graph with the given address, and
    [None] when there is none. *)
Definition get_any_node (cfg : CFG) (a : Z) : option nat :=
  head (filter (λ n, addr (cfg_node cfg n) = a) (cfg_nodes cfg)).

(** networkx's depth-first search.  [dfs_walk] is the loop of [dfs_edges] on
    its explicit stack of (parent, remaining children); it returns the visited
    set and the tree edges in the order they are yielded. *)
Fixpoint dfs_walk (fuel : nat) (cfg : CFG) (visited : gset nat)
    (stack : list (nat * list nat)) (out : list (nat * nat)) : gset nat * list (nat * nat) :=
  match fuel with
  | O => (visited, out)
  | S fuel =>
      match stack with
      | [] => (visited, out)
      | (parent, []) :: stack' => dfs_walk fuel cfg visited stack' out
      | (parent, child :: children) :: stack' =>
          if decide (child ∈ visited)
          then dfs_walk fuel cfg visited ((parent, children) :: stack') out
          else dfs_walk fuel cfg ({[child]} ∪ visited)
                 ((child, successors cfg child) :: (parent, children) :: stack')
                 (out ++ [(parent, child)])
      end
  end.

(** Every step of the walk consumes a child or pops a frame. *)
Definition dfs_fuel (cfg : CFG) : nat :=
  S (2 * foldr (λ p n, S (length p.2 + n)%nat) O (map_to_list (cfg_graph cfg))).

Definition dfs_from (cfg : CFG) (acc : gset nat * list (nat * nat)) (start : nat)
  : gset nat * list (nat * nat) :=
  if decide (start ∈ acc.1) then acc
  else dfs_walk (dfs_fuel cfg) cfg ({[start]} ∪ acc.1) [(start, successors cfg start)] acc.2.

(** [dfs_edges(G, source)]: with [source=None] the search is started from every
    node of the graph in turn. *)
Definition dfs_edges (cfg : CFG) (source : option nat) : list (nat * nat) :=
  let nodes := match source with
               | None => cfg_nodes cfg
               | Some s => [s]
               end in
  (foldl (dfs_from cfg) (∅, []) nodes).2.

(** [dfs_successors(G, source)]: the dictionary parent -> children of the
    search tree. *)
Definition dfs_successors (cfg : CFG) (source : option nat) : gmap nat (list nat) :=
  foldl (λ (d : gmap nat (list nat)) (e : nat * nat),
           <[e.1 := default [] (d !! e.1) ++ [e.2]]> d)
    ∅ (dfs_edges cfg source).

(** ** The worklist loop: [DDG._construct] *)

Record ddg_state := mkDDG {
  worklist : list nat;
  worklist_set : gset nat;
  live_defs_per_node : gmap nat live_defs_t;
  ddg_heap : heap;
  ddg_graph : DiGraph
}.

(** [defs_for_next_node[var].add(code_loc)] guarded by the membership test;
    [r'] is the address of [defs_for_next_node[var]]. *)
Definition merge_code_loc (r' : nat) (hc : heap * bool) (code_loc : CodeLocation) : heap * bool :=
  if decide (code_loc ∈ deref hc.1 r') then hc
  else (<[r' := {[code_loc]} ∪ deref hc.1 r']> hc.1, true).

(** Body of [for var, code_loc_set in new_defs.iteritems()]; [r] is the address
    of [code_loc_set]. *)
Definition merge_var (acc : live_defs_t * heap * bool) (vr : SimVariable * nat)
  : live_defs_t * heap * bool :=
  let '(defs_for_next_node, h, changed) := acc in
  match defs_for_next_node !! vr.1 with
  | None => (<[vr.1 := vr.2]> defs_for_next_node, h, true)
  | Some r' =>
      let hc := foldl (merge_code_loc r') (h, changed) (elements (deref h vr.2)) in
      (defs_for_next_node, hc.1, hc.2)
  end.

Definition merge_defs (defs_for_next_node : live_defs_t) (h : heap) (new_defs : live_defs_t)
  : live_defs_t * heap * bool :=
  foldl merge_var (defs_for_next_node, h, false) (map_to_list new_defs).

Abbreviation queue := (list nat * gset nat)%type.

(** The innermost statement of the re-queueing loops, as written: the test is
    on [successing_node], the node queued is [s]. *)
Definition requeue_one (successing_node : nat) (q : queue) (s : nat) : queue :=
  if decide (successing_node ∉ q.2) then (q.1 ++ [s], {[s]} ∪ q.2) else q.

(** The body of [if changed:]. *)
Definition requeue (cfg : CFG) (successing_node : nat) (q : queue) : queue :=
  let q := if decide (successing_node ∉ q.2)
           then (q.1 ++ [successing_node], {[successing_node]} ∪ q.2)
           else q in
  let all_successors_dict := dfs_successors cfg (Some successing_node) in
  foldl (λ q successors_, foldl (requeue_one successing_node) q successors_)
    q (map_to_list all_successors_dict).*2.

(** Body of [for state in final_states]. *)
Definition process_state (keep_data : bool) (cfg : CFG) (node : nat)
    (σ : ddg_state) (state : SimState) : res ddg_state :=
  if bool_decide (jumpkind state = "Ijk_FakeRet")
     && bool_decide (1 < length (final_states (cfg_node cfg node)))%nat
  then Ok σ
  else
    match filter (λ n, addr (cfg_node cfg n) = ip state) (successors cfg node) with
    | [] => Ok σ
    | successing_node :: _ =>
        let live_defs := default ∅ (live_defs_per_node σ !! node) in
        tr ← _track keep_data (ddg_heap σ) (ddg_graph σ) state live_defs;
        let '(h, g, new_defs) := tr in
        let defs_for_next_node := default ∅ (live_defs_per_node σ !! successing_node) in
        let '(defs, h, changed) := merge_defs defs_for_next_node h new_defs in
        let q := if changed then requeue cfg successing_node (worklist σ, worklist_set σ)
                 else (worklist σ, worklist_set σ) in
        Ok (mkDDG q.1 q.2 (<[successing_node := defs]> (live_defs_per_node σ)) h g)
    end.

(** One iteration of [while worklist]. *)
Definition construct_step (keep_data : bool) (cfg : CFG) (σ : ddg_state) : res ddg_state :=
  match worklist σ with
  | [] => Ok σ
  | node :: worklist' =>
      if decide (node ∈ worklist_set σ) then
        let lpn := match live_defs_per_node σ !! node with
                   | Some _ => live_defs_per_node σ
                   | None => <[node := ∅]> (live_defs_per_node σ)
                   end in
        for_each (process_state keep_data cfg node) (final_states (cfg_node cfg node))
          (mkDDG worklist' (worklist_set σ ∖ {[node]}) lpn (ddg_heap σ) (ddg_graph σ))
      else Err KeyError
  end.

(** The loop, with a bound on the number of iterations; [None]: the bound was
    reached with the worklist not yet empty. *)
Fixpoint construct_loop (fuel : nat) (keep_data : bool) (cfg : CFG) (σ : ddg_state)
  : option (res ddg_state) :=
  match worklist σ with
  | [] => Some (Ok σ)
  | _ :: _ =>
      match fuel with
      | O => None
      | S fuel =>
          match construct_step keep_data cfg σ with
          | Ok σ' => construct_loop fuel keep_data cfg σ'
          | Err e => Some (Err e)
          end
      end
  end.

Definition construct_init (cfg : CFG) (initial_node : option nat) : ddg_state :=
  let worklist := (map_to_list (dfs_successors cfg initial_node)).*1 in
  mkDDG worklist (list_to_set worklist) ∅ [] [].

(** [DDG._construct], from the empty graph of [__init__]. *)
Definition _construct (fuel : nat) (keep_data : bool) (cfg : CFG) (start : Z)
  : option (res ddg_state) :=
  let initial_node := get_any_node cfg start in
  construct_loop fuel keep_data cfg (construct_init cfg initial_node).

(** * Properties *)

(** ** Loops that may raise *)

Section for_each_facts.
Context {A S : Type} (body : S → A → res S).

Lemma bind_Ok {B C} (m : res B) (k : B → res C) (c : C) :
  (m ≫= k) = Ok c → ∃ b, m = Ok b ∧ k b = Ok c.
Proof. destruct m as [b|e]; [eauto | discriminate]. Qed.

Lemma for_each_cons x l s :
  for_each body (x :: l) s = body s x ≫= for_each body l.
Proof. reflexivity. Qed.

Lemma for_each_app l1 l2 s :
  for_each body (l1 ++ l2) s = for_each body l1 s ≫= for_each body l2.
Proof.
  revert s. induction l1 as [|x l1 IH]; intros s; [done|].
  simpl. destruct (body s x) as [s1|e]; simpl; [apply IH | done].
Qed.

(** An invariant kept by every iteration that returns holds when the loop
    returns. *)
Lemma for_each_ind (P : S → Prop) l s s' :
  P s →
  (∀ s1 x s2, x ∈ l → P s1 → body s1 x = Ok s2 → P s2) →
  for_each body l s = Ok s' → P s'.
Proof.
  revert s. induction l as [|x l IH]; intros s Hs Hstep Hrun.
  - by inversion Hrun; subst.
  - simpl in Hrun. apply bind_Ok in Hrun as (s1 & H1 & H2).
    apply (IH s1); [| |done].
    + eapply Hstep; [|done..]. left.
    + intros ??? Hin. apply Hstep. by right.
Qed.

(** A loop whose iterations never raise returns. *)
Lemma for_each_total (P : S → Prop) l s :
  P s →
  (∀ s1 x, x ∈ l → P s1 → ∃ s2, body s1 x = Ok s2 ∧ P s2) →
  ∃ s', for_each body l s = Ok s' ∧ P s'.
Proof.
  revert s. induction l as [|x l IH]; intros s Hs Hstep; [by eauto|].
  destruct (Hstep s x) as (s1 & H1 & HP); [left|done|].
  simpl. rewrite H1. simpl. apply IH; [done|].
  intros ?? Hin. apply Hstep. by right.
Qed.
End for_each_facts.

(** ** The graph: one edge for each (source, target) *)

Lemma has_edge_true g s t : has_edge g s t = true ↔ (s, t) ∈ edge_key <$> g.
Proof. unfold has_edge. apply bool_decide_eq_true. Qed.

Lemma has_edge_false g s t : has_edge g s t = false ↔ (s, t) ∉ edge_key <$> g.
Proof. unfold has_edge. apply bool_decide_eq_false. Qed.

Lemma nx_add_edge_fresh g u v attr :
  (u, v) ∉ edge_key <$> g → nx_add_edge g u v attr = g ++ [(u, v, attr)].
Proof.
  induction g as [|[[u' v'] d] g IH]; intros Hnot; [done|].
  simpl. rewrite fmap_cons in Hnot. apply not_elem_of_cons in Hnot as [Hne Hnot].
  destruct (decide _) as [Heq|_]; [by rewrite Heq in Hne|].
  by rewrite IH.
Qed.

Lemma add_edge_spec g s t l :
  _add_edge g s t l = if has_edge g s t then g else g ++ [(s, t, l)].
Proof.
  unfold _add_edge. destruct (has_edge g s t) eqn:E; simpl; [done|].
  apply nx_add_edge_fresh. by apply has_edge_false.
Qed.

Lemma add_edge_has g s t l : has_edge (_add_edge g s t l) s t = true.
Proof.
  rewrite add_edge_spec. destruct (has_edge g s t) eqn:E; [done|].
  apply has_edge_true. rewrite fmap_app. set_solver.
Qed.

Lemma add_edge_prefix g s t l : ∃ new, _add_edge g s t l = g ++ new.
Proof.
  rewrite add_edge_spec. destruct (has_edge g s t).
  - exists []. by rewrite app_nil_r.
  - by eexists.
Qed.

Lemma add_edge_NoDup g s t l :
  NoDup (edge_key <$> g) → NoDup (edge_key <$> _add_edge g s t l).
Proof.
  intros Hg. rewrite add_edge_spec. destruct (has_edge g s t) eqn:E; [done|].
  apply has_edge_false in E. rewrite fmap_app. apply NoDup_app. split; [done|].
  split; [|apply NoDup_singleton].
  intros k Hk Hk'. apply list_elem_of_singleton in Hk'. by subst.
Qed.

Lemma has_edge_app g new s t : has_edge g s t = true → has_edge (g ++ new) s t = true.
Proof. rewrite !has_edge_true, fmap_app. set_solver. Qed.

Lemma add_edges_cons g e es :
  add_edges g (e :: es) = add_edges (_add_edge g e.1.1 e.1.2 e.2) es.
Proof. reflexivity. Qed.

Lemma add_edges_prefix g es : ∃ new, add_edges g es = g ++ new.
Proof.
  revert g. induction es as [|e es IH]; intros g.
  - exists []. by rewrite app_nil_r.
  - rewrite add_edges_cons. destruct (add_edge_prefix g e.1.1 e.1.2 e.2) as [n1 E1].
    destruct (IH (_add_edge g e.1.1 e.1.2 e.2)) as [n2 E2].
    exists (n1 ++ n2). rewrite E2, E1. by rewrite app_assoc.
Qed.

Lemma add_edges_NoDup g es :
  NoDup (edge_key <$> g) → NoDup (edge_key <$> add_edges g es).
Proof.
  revert g. induction es as [|e es IH]; intros g Hg; [done|].
  rewrite add_edges_cons. apply IH. by apply add_edge_NoDup.
Qed.

(** Every edge handed to [add_edges] is in the graph afterwards. *)
Lemma add_edges_has g es e :
  e ∈ es → has_edge (add_edges g es) e.1.1 e.1.2 = true.
Proof.
  revert g. induction es as [|e' es IH]; intros g Hin; [by apply elem_of_nil in Hin|].
  apply elem_of_cons in Hin as [->|Hin]; [|by apply IH].
  rewrite add_edges_cons.
  destruct (add_edges_prefix (_add_edge g e'.1.1 e'.1.2 e'.2) es) as [new E].
  rewrite E. apply has_edge_app, add_edge_has.
Qed.

(** ** Properties of the graph kept by every insertion

    The graph is only ever changed through [_add_edge]: a property that
    [_add_edge] keeps is kept by the replay of a trace and by the whole
    construction. *)

(** Closed goals about concrete inputs: split the conjunctions, evaluate. *)
Ltac by_evaluation :=
  repeat (lazymatch goal with |- _ ∧ _ => split end; [vm_compute; reflexivity|]);
  vm_compute; reflexivity.

(** The run ended, and without an exception. *)
Definition returns {A} (r : option (res A)) : bool :=
  match r with
  | Some (Ok _) => true
  | _ => false
  end.

Lemma returns_inv {A} (r : option (res A)) : returns r = true → ∃ a, r = Some (Ok a).
Proof. destruct r as [[a|e]|]; [eauto | discriminate..]. Qed.

Definition res_map {A B} (f : A → B) (r : res A) : res B :=
  match r with
  | Ok a => Ok (f a)
  | Err e => Err e
  end.

Definition is_Ok {A} (r : res A) : bool :=
  match r with
  | Ok _ => true
  | Err _ => false
  end.

Lemma is_Ok_inv {A} (r : res A) : is_Ok r = true → ∃ a, r = Ok a.
Proof. destruct r as [a|e]; [eauto | discriminate]. Qed.

Ltac bind_inv H :=
  let x := fresh "x" in
  let Hx := fresh "Hx" in
  apply bind_Ok in H as (x & Hx & H).

Section graph_invariant.
Variable P : DiGraph → Prop.
Hypothesis P_add_edge : ∀ g s t l, P g → P (_add_edge g s t l).

Lemma add_edges_inv g es : P g → P (add_edges g es).
Proof.
  revert g. induction es as [|e es IH]; intros g Hg; [done|].
  rewrite add_edges_cons. by apply IH, P_add_edge.
Qed.

Lemma dump_edge_inv g dict_ key del_key :
  P g → P (_dump_edge_from_dict g dict_ key del_key).1.
Proof. apply add_edges_inv. Qed.

Lemma dump_if_present_inv g dict_ key : P g → P (dump_if_present g dict_ key).1.
Proof.
  intros Hg. unfold dump_if_present. destruct (decide _); [|done].
  by apply (dump_edge_inv _ _ _ true).
Qed.

Lemma dump_all_inv g dict_ : P g → P (dump_all g dict_).1.
Proof.
  unfold dump_all. generalize (map_to_list dict_).*1 as keys.
  intros keys. revert g dict_. induction keys as [|k keys IH]; intros g d Hg; [done|].
  simpl. apply IH. by apply (dump_edge_inv _ _ _ false).
Qed.

Lemma track_mem_inv keep_data a loc st addr st' :
  P (ts_graph st) → track_mem keep_data a loc st addr = Ok st' → P (ts_graph st').
Proof.
  intros Hg H. unfold track_mem in H.
  bind_inv H. do 4 bind_inv H. inversion H; subst; simpl.
  destruct (decide (a_action a = A_read)).
  - bind_inv Hx. inversion Hx; subst. by apply add_edges_inv.
  - by inversion Hx; subst.
Qed.

Lemma track_reg_inv keep_data a loc st st' :
  P (ts_graph st) → track_reg keep_data a loc st = Ok st' → P (ts_graph st').
Proof.
  intros Hg H. unfold track_reg in H. destruct (decide _).
  - bind_inv H. inversion H; subst; simpl. by apply dump_if_present_inv.
  - by inversion H; subst.
Qed.

Lemma queue_tmp_edge_inv type_ loc st tmp st' :
  P (ts_graph st) → queue_tmp_edge type_ loc st tmp = Ok st' → P (ts_graph st').
Proof.
  intros Hg H. unfold queue_tmp_edge in H. destruct (ts_temps st !! tmp); [|done].
  inversion H; subst; simpl. by apply dump_if_present_inv.
Qed.

Lemma track_action_inv keep_data st a st' :
  P (ts_graph st) → track_action keep_data st a = Ok st' → P (ts_graph st').
Proof.
  intros Hg H. unfold track_action in H. destruct (a_type a).
  - revert H. apply (for_each_ind _ (λ s, P (ts_graph s))); [done|].
    intros ????. apply track_mem_inv.
  - by eapply track_reg_inv.
  - unfold track_tmp in H. destruct (decide _).
    + by eapply queue_tmp_edge_inv.
    + by inversion H; subst.
  - revert H. apply (for_each_ind _ (λ s, P (ts_graph s))); [done|].
    intros ????. apply queue_tmp_edge_inv.
  - by inversion H; subst.
Qed.

Lemma track_finish_inv st : P (ts_graph st) → P (ts_graph (track_finish st)).
Proof. intros Hg. unfold track_finish; simpl. by apply dump_all_inv, dump_all_inv. Qed.

Lemma track_inv keep_data h g state live_defs h' g' new_defs :
  P g → _track keep_data h g state live_defs = Ok (h', g', new_defs) → P g'.
Proof.
  intros Hg H. unfold _track in H. bind_inv H. inversion H; subst.
  apply track_finish_inv. revert Hx. unfold track_loop.
  apply (for_each_ind _ (λ s, P (ts_graph s))); [done|].
  intros ????. apply track_action_inv.
Qed.

Lemma process_state_inv keep_data cfg node σ state σ' :
  P (ddg_graph σ) → process_state keep_data cfg node σ state = Ok σ' → P (ddg_graph σ').
Proof.
  intros Hg H. unfold process_state in H.
  destruct (_ && _); [by inversion H; subst|].
  destruct (filter _ _) as [|succ ?]; [by inversion H; subst|].
  bind_inv H. destruct x as [[h g] new_defs].
  destruct (merge_defs _ _ _) as [[defs h1] changed].
  inversion H; subst; simpl. by eapply track_inv.
Qed.

Lemma construct_step_inv keep_data cfg σ σ' :
  P (ddg_graph σ) → construct_step keep_data cfg σ = Ok σ' → P (ddg_graph σ').
Proof.
  intros Hg H. unfold construct_step in H.
  destruct (worklist σ) as [|node wl]; [by inversion H; subst|].
  destruct (decide _); [|done].
  revert H. apply (for_each_ind _ (λ s, P (ddg_graph s))); [done|].
  intros ????. apply process_state_inv.
Qed.

Lemma construct_loop_inv fuel keep_data cfg σ σ' :
  P (ddg_graph σ) → construct_loop fuel keep_data cfg σ = Some (Ok σ') → P (ddg_graph σ').
Proof.
  revert σ. induction fuel as [|fuel IH]; intros σ Hg H; simpl in H.
  - destruct (worklist σ); [by inversion H; subst | done].
  - destruct (worklist σ) eqn:Ewl; [by inversion H; subst|].
    destruct (construct_step keep_data cfg σ) as [σ1|e] eqn:Es; [|done].
    apply (IH σ1); [|done]. by eapply construct_step_inv.
Qed.

Lemma construct_inv fuel keep_data cfg start σ :
  P [] → _construct fuel keep_data cfg start = Some (Ok σ) → P (ddg_graph σ).
Proof. intros Hnil. unfold _construct. by apply construct_loop_inv. Qed.
End graph_invariant.

(** ** Concrete traces and graphs used below *)

Module Demo.
Definition obj (reg_deps tmp_deps : list Z) : SimActionObject := mkObj 0 32 reg_deps tmp_deps.

Definition loc (b i : Z) : CodeLocation := mkCodeLocation (Some b) (Some i) None.

Definition reg_write (b i off : Z) : SimAction :=
  mkAction (Some b) (Some i) None T_reg A_write (obj [] []) (obj [] []) None off 0 [].
Definition reg_read (b i off : Z) : SimAction :=
  mkAction (Some b) (Some i) None T_reg A_read (obj [] []) (obj [] []) None off 0 [].
Definition tmp_write (b i t : Z) : SimAction :=
  mkAction (Some b) (Some i) None T_tmp A_write (obj [] []) (obj [] []) None 0 t [].
Definition tmp_read (b i t : Z) : SimAction :=
  mkAction (Some b) (Some i) None T_tmp A_read (obj [] []) (obj [] []) None 0 t [].
Definition exit_on (b i : Z) (tmps : list Z) : SimAction :=
  mkAction (Some b) (Some i) None T_exit A_read (obj [] []) (obj [] []) None 0 0 tmps.
(** A store to [a] whose address is computed from the registers [regs]. *)
Definition mem_write (b i a : Z) (regs : list Z) : SimAction :=
  mkAction (Some b) (Some i) None T_mem A_write (mkObj a 64 regs []) (obj [] []) None 0 0 [].
Definition mem_read (b i a : Z) : SimAction :=
  mkAction (Some b) (Some i) None T_mem A_read (mkObj a 64 [] []) (obj [] []) None 0 0 [].

Definition boring (target : Z) (acts : list SimAction) : SimState :=
  mkState "Ijk_Boring" target acts.

(** Three blocks in a row: 0x1000 writes register 16, 0x2000 reads it,
    0x3000 does nothing. *)
Definition chain : CFG :=
  mkCFG (λ n, match n with
              | 0%nat => mkNode 0x1000 [boring 0x2000 [reg_write 0x1000 2 16]]
              | 1%nat => mkNode 0x2000 [boring 0x3000 [reg_read 0x2000 0 16]]
              | _ => mkNode 0x3000 []
              end)
    (<[0%nat := [1%nat]]> (<[1%nat := [2%nat]]> {[2%nat := []]})).

(** Register 16 is read twice by one statement, then used as an address. *)
Definition relabel_trace : list SimAction :=
  [reg_read 0x2000 0 16; reg_read 0x2000 0 16; mem_write 0x2000 1 0x8000 [16]].
Definition relabel_heap : heap := [{[loc 0x1000 2]}].
Definition relabel_defs : live_defs_t := {[SimRegisterVariable 16 32 := 0%nat]}.

(** One trace in which temporary 3 is written at statement 1, read at
    statement 2 and decides the exit at statement 3. *)
Definition tmp_block : SimState :=
  boring 0x2000 [tmp_write 0x1000 1 3; tmp_read 0x1000 2 3; exit_on 0x1000 3 [3]].

(** A trace that reads temporary 7, which none of its actions writes. *)
Definition undefined_tmp_block : SimState :=
  boring 0x2000 [tmp_write 0x1000 1 3; tmp_read 0x1000 2 7; reg_write 0x1000 3 16].

(** A SimProcedure: its actions have no statement, they share the code
    location of the procedure. *)
Definition proc_loc (name : string) : CodeLocation := mkCodeLocation None None (Some name).
Definition proc_reg_read (name : string) (off : Z) : SimAction :=
  mkAction None None (Some name) T_reg A_read (obj [] []) (obj [] []) None off 0 [].
Definition proc_mem_read (name : string) (a : Z) : SimAction :=
  mkAction None None (Some name) T_mem A_read (mkObj a 64 [] []) (obj [] []) None 0 0 [].

(** Register 16 and the memory cell at 0x8000 were both written by the
    procedure "read"; the procedure "strlen" reads the register, then the
    cell. *)
Definition strlen_trace : list SimAction :=
  [proc_reg_read "strlen" 16; proc_mem_read "strlen" 0x8000].
Definition strlen_heap : heap := [{[proc_loc "read"]}; {[proc_loc "read"]}].
Definition strlen_defs : live_defs_t :=
  <[SimRegisterVariable 16 32 := 0%nat]> {[SimMemoryVariable 0x8000 32 := 1%nat]}.

(** The chain again, with its nodes numbered from the end. *)
Definition reversed_chain : CFG :=
  mkCFG (λ n, match n with
              | 2%nat => mkNode 0x1000 [boring 0x2000 [reg_write 0x1000 2 16]]
              | 1%nat => mkNode 0x2000 [boring 0x3000 [reg_read 0x2000 0 16]]
              | _ => mkNode 0x3000 []
              end)
    (<[2%nat := [1%nat]]> (<[1%nat := [0%nat]]> {[0%nat := []]})).

(** The chain, with the undefined read in its first block. *)
Definition broken_chain : CFG :=
  mkCFG (λ n, match n with
              | 0%nat => mkNode 0x1000 [undefined_tmp_block]
              | _ => mkNode 0x2000 []
              end)
    (<[0%nat := [1%nat]]> {[1%nat := []]}).
End Demo.

(** C1, as the code has it: after construction the graph holds at most one
    edge for each (source, target) pair of code locations; when the same
    (source, target) dependence is derived again no second edge is created and
    the graph is left as it is, so the edge keeps the labels it was created
    with and the labels of the later derivation are not recorded. *)
Theorem construct_one_edge_per_pair fuel keep_data cfg start σ :
  _construct fuel keep_data cfg start = Some (Ok σ) →
  NoDup (edge_key <$> ddg_graph σ) ∧
  ∀ s t l, has_edge (ddg_graph σ) s t = true →
           _add_edge (ddg_graph σ) s t l = ddg_graph σ.
Proof.
  intros H. split.
  - revert H. apply (construct_inv (λ g, NoDup (edge_key <$> g))).
    + intros. by apply add_edge_NoDup.
    + constructor.
  - intros s t l Hst. rewrite add_edge_spec. by rewrite Hst.
Qed.

Lemma construct_one_edge_per_pair_witness :
  ∃ σ, _construct 10 false Demo.chain 0x1000 = Some (Ok σ) ∧
       NoDup (edge_key <$> ddg_graph σ) ∧
       ∀ s t l, has_edge (ddg_graph σ) s t = true →
                _add_edge (ddg_graph σ) s t l = ddg_graph σ.
Proof.
  destruct (returns_inv (_construct 10 false Demo.chain 0x1000)) as [σ E];
    [vm_compute; reflexivity|].
  exists σ. split; [exact E|].
  exact (construct_one_edge_per_pair 10 false Demo.chain 0x1000 σ E).
Defined.

(** The source, the target and the ["subtype"] label of an edge. *)
Definition subtype_view (edges : list edge)
  : list (CodeLocation * CodeLocation * option label_value) :=
  (λ e : edge, (e.1, e.2 !! "subtype")) <$> edges.

(** C1 as stated fails: the second read of register 16 queues the edge
    (0x1000,2) -> (0x2000,0) again and the store annotates the queued edge with
    [subtype = ("mem_addr",)]; the flush at the end of the trace leaves the
    graph with its one edge, under the labels of the first derivation. *)
Lemma add_edge_drops_later_labels :
  res_map (λ st, subtype_view (dd_get (ts_regs_to_edges st) 16))
    (track_loop false Demo.relabel_trace
       (track_init Demo.relabel_heap [] Demo.relabel_defs))
  = Ok [(Demo.loc 0x1000 2, Demo.loc 0x2000 0, Some (LTuple [LStr "mem_addr"]))] ∧
  res_map (λ out : heap * DiGraph * live_defs_t, subtype_view out.1.2)
    (_track false Demo.relabel_heap [] (Demo.boring 0x3000 Demo.relabel_trace)
       Demo.relabel_defs)
  = Ok [(Demo.loc 0x1000 2, Demo.loc 0x2000 0, None)].
Proof. by_evaluation. Qed.

(** ** The live-definition store *)

(** Every set a dictionary refers to has been allocated. *)
Definition wf_defs (h : heap) (live_defs : live_defs_t) : Prop :=
  ∀ v r, live_defs !! v = Some r → (r < length h)%nat.

Lemma deref_app_l h new r : (r < length h)%nat → deref (h ++ new) r = deref h r.
Proof. intros Hr. unfold deref. by rewrite lookup_app_l. Qed.

Lemma deref_alloc h (s : gset CodeLocation) : deref (h ++ [s]) (length h) = s.
Proof. unfold deref. by rewrite list_lookup_middle. Qed.

(** C4: a kill of variable [V] at code location [L] makes the entry of exactly
    [V] the one-element set {L}, whatever defined [V] before; the entry of
    every other variable (a memory variable whose range overlaps that of [V]
    too) is what it was, and no set allocated earlier is changed. *)
Theorem kill_last_write_wins h live_defs V L :
  wf_defs h live_defs →
  let hl := _kill h live_defs V L in
  defs_of hl.1 hl.2 V = Some {[L]} ∧
  (∀ V', V' ≠ V → defs_of hl.1 hl.2 V' = defs_of h live_defs V') ∧
  (∀ r, (r < length h)%nat → deref hl.1 r = deref h r).
Proof.
  intros Hwf hl. subst hl. unfold _kill, defs_of; simpl. split; [|split].
  - rewrite lookup_insert_eq. simpl. by rewrite deref_alloc.
  - intros V' Hne. rewrite lookup_insert_ne by done.
    destruct (live_defs !! V') as [r|] eqn:E; [|done]. simpl.
    f_equal. apply deref_app_l. by eapply Hwf.
  - intros r Hr. by apply deref_app_l.
Qed.

Lemma kill_last_write_wins_witness :
  let h : heap := [{[Demo.loc 0x1000 2; Demo.loc 0x1400 7]}; {[Demo.loc 0x1000 5]}] in
  let live_defs : live_defs_t :=
    <[SimMemoryVariable 0x8000 4 := 0%nat]> {[SimMemoryVariable 0x8002 1 := 1%nat]} in
  let hl := _kill h live_defs (SimMemoryVariable 0x8000 4) (Demo.loc 0x2000 3) in
  defs_of hl.1 hl.2 (SimMemoryVariable 0x8000 4) = Some {[Demo.loc 0x2000 3]} ∧
  (∀ V', V' ≠ SimMemoryVariable 0x8000 4 → defs_of hl.1 hl.2 V' = defs_of h live_defs V') ∧
  (∀ r, (r < length h)%nat → deref hl.1 r = deref h r).
Proof.
  intros h live_defs. apply (kill_last_write_wins h live_defs).
  intros v r Hv. subst h live_defs.
  destruct (decide (v = SimMemoryVariable 0x8000 4)) as [->|Hne].
  - rewrite lookup_insert_eq in Hv. inversion Hv; subst. simpl. lia.
  - rewrite lookup_insert_ne in Hv by done.
    apply lookup_singleton_Some in Hv as [_ <-]. simpl. lia.
Defined.

(** The label [_def_lookup] gives to a reaching definition. *)
Definition def_label (keep_data : bool) (type_ : string) (variable : SimVariable) : labels :=
  if keep_data then <["type" := LStr type_]> {["data" := LVar variable]}
  else <["type" := LStr type_]> {["count" := LInt 0]}.

Lemma def_lookup_loop keep_data variable type_ locs :
  variable_type variable = Ok type_ →
  NoDup locs →
  ∀ prevdefs, (∀ l, l ∈ locs → prevdefs !! l = None) →
  ∃ out, for_each (def_lookup_step keep_data variable) locs prevdefs = Ok out ∧
         ∀ l, out !! l = if decide (l ∈ locs)
                         then Some (def_label keep_data type_ variable)
                         else prevdefs !! l.
Proof.
  intros Hty. induction 1 as [|x locs Hx Hnd IH]; intros prevdefs Hfresh.
  - exists prevdefs. split; [done|]. intros l. destruct (decide _) as [Hin|]; [|done].
    by apply elem_of_nil in Hin.
  - assert (def_lookup_step keep_data variable prevdefs x
            = Ok (<[x := def_label keep_data type_ variable]> prevdefs)) as Hstep.
    { unfold def_lookup_step, def_label. rewrite Hty. simpl.
      destruct keep_data; [done|]. rewrite Hfresh by left. done. }
    destruct (IH (<[x := def_label keep_data type_ variable]> prevdefs)) as (out & Hout & Hl).
    { intros l Hl. rewrite lookup_insert_ne; [apply Hfresh; by right|]. by intros ->. }
    exists out. split; [simpl; by rewrite Hstep|].
    intros l. rewrite Hl. destruct (decide (l ∈ locs)) as [Hin|Hnin].
    + rewrite decide_True; [done | by right].
    + destruct (decide (l = x)) as [->|Hne].
      * rewrite lookup_insert_eq. rewrite decide_True; [done | left].
      * rewrite lookup_insert_ne by done. rewrite decide_False; [done|].
        intros Hin. apply elem_of_cons in Hin as [?|?]; done.
Qed.

(** What [_def_lookup] returns for a register or memory variable. *)
Lemma def_lookup_spec keep_data h live_defs variable type_ :
  variable_type variable = Ok type_ →
  ∃ prevdefs,
    _def_lookup keep_data h live_defs variable = Ok prevdefs ∧
    ∀ code_loc,
      prevdefs !! code_loc =
        if decide (code_loc ∈ default ∅ (defs_of h live_defs variable))
        then Some (def_label keep_data type_ variable)
        else None.
Proof.
  intros Hty. unfold _def_lookup, defs_of.
  destruct (live_defs !! variable) as [r|]; simpl.
  - destruct (def_lookup_loop keep_data variable type_ (elements (deref h r)) Hty
                (NoDup_elements _) ∅) as (out & Hout & Hl).
    { intros. apply lookup_empty. }
    exists out. split; [done|]. intros l. rewrite Hl.
    destruct (decide (l ∈ elements (deref h r))) as [Hin|Hnin].
    + rewrite decide_True by (by apply elem_of_elements). done.
    + rewrite decide_False by (by rewrite <- elem_of_elements). apply lookup_empty.
  - exists ∅. split; [done|]. intros l. rewrite decide_False by set_solver.
    apply lookup_empty.
Qed.



(** ** Re-queueing after a change *)

Lemma requeue_one_queued successing_node q s :
  successing_node ∈ q.2 → requeue_one successing_node q s = q.
Proof. intros Hin. unfold requeue_one. by rewrite decide_False by (by intros []). Qed.

(** Once [successing_node] is queued the two nested loops over the search
    tree change nothing: all that [if changed:] ever queues is the successor
    itself. *)
Lemma requeue_spec cfg successing_node q :
  requeue cfg successing_node q =
    if decide (successing_node ∉ q.2)
    then (q.1 ++ [successing_node], {[successing_node]} ∪ q.2)
    else q.
Proof.
  unfold requeue.
  set (q1 := if decide (successing_node ∉ q.2) then _ else q).
  assert (successing_node ∈ q1.2) as Hq1.
  { subst q1. destruct (decide _) as [|Hin]; simpl; [set_solver|].
    by apply dec_stable in Hin. }
  generalize (map_to_list (dfs_successors cfg (Some successing_node))).*2 as tree.
  clearbody q1. intros tree. induction tree as [|succs tree IH]; [done|].
  simpl. replace (foldl (requeue_one successing_node) q1 succs) with q1; [done|].
  clear IH. induction succs as [|s succs IH]; [done|].
  simpl. by rewrite requeue_one_queued.
Qed.

(** The variables a node's snapshot defines, with the addresses of their sets. *)
Definition snapshot_view (σ : ddg_state) (n : nat) : option (list (SimVariable * nat)) :=
  match live_defs_per_node σ !! n with
  | Some defs => Some (map_to_list defs)
  | None => None
  end.

(** C2 does not hold of the code.  In the chain 0x1000 -> 0x2000 -> 0x3000 the
    block 0x1000 is processed while the worklist is empty; its write changes
    the snapshot of 0x2000, which is queued.  0x3000 is in the search tree
    below 0x2000 and is not queued, and it stays out of the worklist. *)
Theorem requeue_misses_reachable_node :
  res_map (λ σ1, (worklist σ1, snapshot_view σ1 1))
    (construct_step false Demo.chain
       (construct_init Demo.chain (get_any_node Demo.chain 0x1000)))
  = Ok ([0%nat], Some []) ∧
  res_map (λ σ2, (snapshot_view σ2 1, worklist σ2, elements (worklist_set σ2)))
    (construct_step false Demo.chain
       (construct_init Demo.chain (get_any_node Demo.chain 0x1000))
     ≫= construct_step false Demo.chain)
  = Ok (Some [(SimRegisterVariable 16 32, 0%nat)], [1%nat], [1%nat]) ∧
  dfs_successors Demo.chain (Some 1%nat) !! 1%nat = Some [2%nat].
Proof. by_evaluation. Qed.

(** ** Pending edges and their annotation *)

(** A ["subtype"] label, when there is one, is a tuple. *)
Definition subtype_ok (l : labels) : Prop :=
  ∀ v, l !! "subtype" = Some v → ∃ t, v = LTuple t.

(** [e'] is [e] after an annotation with a [subtype]: the same source and
    target, the same labels but for ["subtype"]. *)
Definition annotated (e e' : edge) : Prop :=
  e'.1 = e.1 ∧ (∀ k, k ≠ "subtype" → e'.2 !! k = e.2 !! k) ∧ subtype_ok e'.2.

Lemma for_each_one {A S} (body : S → A → res S) x s : for_each body [x] s = body s x.
Proof. simpl. by destruct (body s x). Qed.

Lemma annotate_label_subtype l v l' :
  annotate_label l ("subtype", LStr v) = Ok l' →
  (∀ k, k ≠ "subtype" → l' !! k = l !! k) ∧ subtype_ok l'.
Proof.
  unfold annotate_label; simpl. destruct (l !! "subtype") as [old|] eqn:E.
  - destruct old; try discriminate. simpl. intros H; inversion H; subst. split.
    + intros k Hk. by rewrite lookup_insert_ne.
    + intros w. rewrite lookup_insert_eq. intros H'; inversion H'; eauto.
  - intros H; inversion H; subst. split.
    + intros k Hk. by rewrite lookup_insert_ne.
    + intros w. rewrite lookup_insert_eq. intros H'; inversion H'; eauto.
Qed.

Lemma annotate_label_total l v :
  subtype_ok l → ∃ l', annotate_label l ("subtype", LStr v) = Ok l'.
Proof.
  intros Hl. unfold annotate_label; simpl. destruct (l !! "subtype") as [old|] eqn:E.
  - destruct (Hl old) as [t ->]; [done|]. simpl. eauto.
  - eauto.
Qed.

Lemma annotate_edges_spec v es acc out :
  for_each (annotate_edge (subtype v)) es acc = Ok out →
  ∃ es', out = acc ++ es' ∧ Forall2 annotated es es'.
Proof.
  revert acc. induction es as [|e es IH]; intros acc H.
  - inversion H; subst. exists []. by rewrite app_nil_r.
  - simpl in H. bind_inv H. unfold annotate_edge in Hx. bind_inv Hx.
    inversion Hx; subst. unfold subtype in Hx0. rewrite for_each_one in Hx0.
    apply annotate_label_subtype in Hx0 as [Hk Hs].
    apply IH in H as (es' & -> & Hes).
    exists ((e.1, x0) :: es'). split; [by rewrite <- app_assoc|].
    constructor; [|done]. by repeat split.
Qed.

Lemma annotate_edge_subtype v done (e : edge) :
  annotate_edge (subtype v) done e
  = annotate_label e.2 ("subtype", LStr v) ≫= λ l, Ok (done ++ [(e.1, l)]).
Proof. unfold annotate_edge, subtype. by rewrite for_each_one. Qed.

Lemma annotate_edges_total v es acc :
  Forall (λ e : edge, subtype_ok e.2) es →
  ∃ out, for_each (annotate_edge (subtype v)) es acc = Ok out.
Proof.
  intros Hes. revert acc. induction Hes as [|e es He Hes IH]; intros acc; [by eexists|].
  rewrite for_each_cons, annotate_edge_subtype.
  destruct (annotate_label_total e.2 v He) as [l' ->]. simpl. apply IH.
Qed.

Lemma annotate_dict_spec dict_ key v dict' :
  _annotate_edges_in_dict dict_ key (subtype v) = Ok dict' →
  ∃ es', dict' = <[key := es']> dict_ ∧ Forall2 annotated (dd_get dict_ key) es'.
Proof.
  unfold _annotate_edges_in_dict. intros H. bind_inv H. inversion H; subst.
  apply annotate_edges_spec in Hx as (es' & -> & Hes). by exists es'.
Qed.

(** All pending edges of a dictionary satisfy [Q]. *)
Definition dict_all (Q : edge → Prop) (dict_ : edge_dict) : Prop :=
  ∀ key es, dict_ !! key = Some es → Forall Q es.

Lemma dict_all_get Q dict_ key : dict_all Q dict_ → Forall Q (dd_get dict_ key).
Proof.
  intros Hd. unfold dd_get. destruct (dict_ !! key) eqn:E; simpl; [by eapply Hd | constructor].
Qed.

Lemma dict_all_insert Q dict_ key es :
  dict_all Q dict_ → Forall Q es → dict_all Q (<[key := es]> dict_).
Proof.
  intros Hd Hes k es' Hk. destruct (decide (key = k)) as [->|Hne].
  - rewrite lookup_insert_eq in Hk. by inversion Hk; subst.
  - rewrite lookup_insert_ne in Hk by done. by eapply Hd.
Qed.

Lemma dict_all_delete Q dict_ key : dict_all Q dict_ → dict_all Q (delete key dict_).
Proof.
  intros Hd k es Hk. apply lookup_delete_Some in Hk as [_ Hk]. by eapply Hd.
Qed.

Lemma dict_all_append Q dict_ key e :
  dict_all Q dict_ → Q e → dict_all Q (dd_append dict_ key e).
Proof.
  intros Hd He. apply dict_all_insert; [done|].
  apply Forall_app. split; [by apply dict_all_get | by constructor].
Qed.

Lemma dict_all_empty Q : dict_all Q ∅.
Proof. intros k es Hk. by rewrite lookup_empty in Hk. Qed.

Section annotation_stable.
Variable Q : edge → Prop.
Hypothesis Q_annotated : ∀ e e', annotated e e' → Q e → Q e'.

Lemma Forall2_annotated_Q es es' : Forall2 annotated es es' → Forall Q es → Forall Q es'.
Proof.
  induction 1 as [|e e' es es' He Hes IH]; intros HQ; [constructor|].
  apply Forall_cons in HQ as [HQe HQes]. constructor; eauto.
Qed.

Lemma annotate_dict_all dict_ key v dict' :
  dict_all Q dict_ → _annotate_edges_in_dict dict_ key (subtype v) = Ok dict' →
  dict_all Q dict'.
Proof.
  intros Hd H. apply annotate_dict_spec in H as (es' & -> & Hes).
  apply dict_all_insert; [done|].
  eapply Forall2_annotated_Q; [done|]. by apply dict_all_get.
Qed.

Lemma annotate_all_dict_all v dict_ deps dict' :
  dict_all Q dict_ → annotate_all v dict_ deps = Ok dict' → dict_all Q dict'.
Proof.
  intros Hd. unfold annotate_all. apply (for_each_ind _ (dict_all Q)); [done|].
  intros d1 key d2 _ Hd1 H. by eapply annotate_dict_all.
Qed.
End annotation_stable.

Lemma annotate_dict_total dict_ key v :
  dict_all (λ e, subtype_ok e.2) dict_ →
  ∃ dict', _annotate_edges_in_dict dict_ key (subtype v) = Ok dict'.
Proof.
  intros Hd. unfold _annotate_edges_in_dict.
  destruct (annotate_edges_total v (dd_get dict_ key) []) as [out ->]; [|by eexists].
  by apply dict_all_get.
Qed.

Lemma annotated_subtype_ok e e' : annotated e e' → subtype_ok e.2 → subtype_ok e'.2.
Proof. by intros (_ & _ & H) _. Qed.

Lemma annotate_all_total v dict_ deps :
  dict_all (λ e, subtype_ok e.2) dict_ →
  ∃ dict', annotate_all v dict_ deps = Ok dict' ∧ dict_all (λ e, subtype_ok e.2) dict'.
Proof.
  intros Hd. unfold annotate_all. apply for_each_total; [done|].
  intros d1 key _ Hd1. destruct (annotate_dict_total d1 key v Hd1) as [d2 H2].
  exists d2. split; [done|].
  by eapply (annotate_dict_all _ annotated_subtype_ok).
Qed.

(** ** An invariant of the replay

    [Q] is a property of edges that an annotation keeps and that the edges
    built from a lookup have.  If it holds of every pending edge and of every
    edge added to the graph since the replay began, it still does after an
    action, provided it holds of the edges the action queues for the
    temporaries it reads. *)

Definition graph_new (Q : edge → Prop) (g0 g : DiGraph) : Prop :=
  ∃ new, g = g0 ++ new ∧ Forall Q new.

Definition writes_tmp (t : Z) (a : SimAction) : Prop :=
  a_type a = T_tmp ∧ a_action a = A_write ∧ a_tmp a = t.

Definition reads_tmp (t : Z) (a : SimAction) : Prop :=
  (a_type a = T_tmp ∧ a_action a = A_read ∧ a_tmp a = t) ∨
  (a_type a = T_exit ∧ t ∈ a_tmp_deps a).

Definition tmp_label (type_ : string) (tmp : Z) : labels :=
  <["type" := LStr type_]> {["data" := LInt tmp]}.

Lemma edge_eta (e : edge) : (e.1.1, e.1.2, e.2) = e.
Proof. by destruct e as [[??]?]. Qed.

Lemma graph_new_refl Q g0 : graph_new Q g0 g0.
Proof. exists []. by rewrite app_nil_r. Qed.

Lemma add_edges_new Q g0 g es :
  Forall Q es → graph_new Q g0 g → graph_new Q g0 (add_edges g es).
Proof.
  intros Hes. revert g. induction Hes as [|e es He Hes IH]; intros g Hg; [done|].
  rewrite add_edges_cons. apply IH. destruct Hg as (new & -> & Hnew).
  rewrite add_edge_spec. destruct (has_edge _ _ _); [by exists new|].
  exists (new ++ [e]). rewrite edge_eta, app_assoc. split; [done|].
  apply Forall_app. split; [done | by constructor].
Qed.

Definition track_inv_Q (Q : edge → Prop) (g0 : DiGraph) (st : track_state) : Prop :=
  dict_all Q (ts_regs_to_edges st) ∧ dict_all Q (ts_temps_to_edges st) ∧
  graph_new Q g0 (ts_graph st).

Lemma queue_tmp_edge_temps type_ loc st tmp st' :
  queue_tmp_edge type_ loc st tmp = Ok st' → ts_temps st' = ts_temps st.
Proof.
  unfold queue_tmp_edge. destruct (ts_temps st !! tmp); [|done].
  by intros H; inversion H; subst.
Qed.

Lemma track_mem_temps keep_data a loc st addr st' :
  track_mem keep_data a loc st addr = Ok st' → ts_temps st' = ts_temps st.
Proof.
  unfold track_mem. intros H. do 5 bind_inv H. by inversion H; subst.
Qed.

(** The only action that changes [temps] is the write of a temporary. *)
Lemma track_action_temps keep_data st a st' :
  track_action keep_data st a = Ok st' →
  ts_temps st' = if decide (writes_tmp (a_tmp a) a)
                 then <[a_tmp a := code_loc_of a]> (ts_temps st)
                 else ts_temps st.
Proof.
  unfold track_action, writes_tmp. intros H. destruct (a_type a) eqn:Ety.
  - rewrite decide_False by (by intros [? _]).
    revert H. apply (for_each_ind _ (λ s, ts_temps s = ts_temps st)); [done|].
    intros s1 x s2 _ Hs1 H. apply track_mem_temps in H. congruence.
  - rewrite decide_False by (by intros [? _]).
    unfold track_reg in H. destruct (decide _).
    + bind_inv H. by inversion H; subst.
    + by inversion H; subst.
  - unfold track_tmp in H. destruct (decide (a_action a = A_read)) as [Hr|Hr].
    + rewrite decide_False by (intros (_ & ? & _); congruence).
      by eapply queue_tmp_edge_temps.
    + rewrite decide_True by (by destruct (a_action a)).
      by inversion H; subst.
  - rewrite decide_False by (by intros [? _]).
    revert H. apply (for_each_ind _ (λ s, ts_temps s = ts_temps st)); [done|].
    intros s1 x s2 _ Hs1 H. apply queue_tmp_edge_temps in H. congruence.
  - rewrite decide_False by (by intros [? _]). by inversion H; subst.
Qed.

Section track_invariant.
Variable Q : edge → Prop.
Variable g0 : DiGraph.
Hypothesis Q_annotated : ∀ e e', annotated e e' → Q e → Q e'.
Hypothesis Q_def : ∀ s t keep_data type_ variable,
    variable_type variable = Ok type_ → Q (s, t, def_label keep_data type_ variable).

Lemma def_lookup_edges keep_data h live_defs variable type_ cur prevdefs :
  variable_type variable = Ok type_ →
  _def_lookup keep_data h live_defs variable = Ok prevdefs →
  Forall Q ((λ p : CodeLocation * labels, (p.1, cur, p.2)) <$> map_to_list prevdefs).
Proof.
  intros Hty H.
  destruct (def_lookup_spec keep_data h live_defs variable type_ Hty) as (pd & Hpd & Hl).
  rewrite H in Hpd. inversion Hpd; subst pd.
  apply Forall_fmap, Forall_forall. intros [loc l] Hin. simpl.
  apply elem_of_map_to_list in Hin. rewrite Hl in Hin.
  destruct (decide _); [|done]. inversion Hin; subst. by apply Q_def.
Qed.

Lemma dump_edge_Q g dict_ key del_key :
  dict_all Q dict_ → graph_new Q g0 g →
  graph_new Q g0 (_dump_edge_from_dict g dict_ key del_key).1 ∧
  dict_all Q (_dump_edge_from_dict g dict_ key del_key).2.
Proof.
  intros Hd Hg. unfold _dump_edge_from_dict; simpl. split.
  - apply add_edges_new; [by apply dict_all_get | done].
  - destruct del_key; [by apply dict_all_delete|].
    apply dict_all_insert; [done | by apply dict_all_get].
Qed.

Lemma dump_if_present_Q g dict_ key :
  dict_all Q dict_ → graph_new Q g0 g →
  graph_new Q g0 (dump_if_present g dict_ key).1 ∧
  dict_all Q (dump_if_present g dict_ key).2.
Proof.
  intros Hd Hg. unfold dump_if_present. destruct (decide _); [|done].
  by apply dump_edge_Q.
Qed.

Lemma dump_all_Q g dict_ :
  dict_all Q dict_ → graph_new Q g0 g →
  graph_new Q g0 (dump_all g dict_).1 ∧ dict_all Q (dump_all g dict_).2.
Proof.
  unfold dump_all. generalize (map_to_list dict_).*1 as keys. intros keys.
  revert g dict_. induction keys as [|k keys IH]; intros g d Hd Hg; [done|].
  simpl. destruct (dump_edge_Q g d k false Hd Hg) as [Hg' Hd']. by apply IH.
Qed.

Lemma track_mem_Q keep_data a loc st addr st' :
  track_inv_Q Q g0 st → track_mem keep_data a loc st addr = Ok st' →
  track_inv_Q Q g0 st'.
Proof.
  intros (Hr & Ht & Hg) H. unfold track_mem in H.
  bind_inv H. do 4 bind_inv H. inversion H; subst. split; [|split]; simpl.
  - eapply annotate_all_dict_all; [done| |done].
    eapply annotate_all_dict_all; [done| |done]. done.
  - eapply annotate_all_dict_all; [done| |done].
    eapply annotate_all_dict_all; [done| |done]. done.
  - destruct (decide (a_action a = A_read)).
    + bind_inv Hx. inversion Hx; subst. apply add_edges_new; [|done].
      eapply def_lookup_edges; [|eassumption]. reflexivity.
    + by inversion Hx; subst.
Qed.

Lemma track_reg_Q keep_data a loc st st' :
  track_inv_Q Q g0 st → track_reg keep_data a loc st = Ok st' → track_inv_Q Q g0 st'.
Proof.
  intros (Hr & Ht & Hg) H. unfold track_reg in H. destruct (decide _).
  - bind_inv H. inversion H; subst.
    destruct (dump_if_present_Q (ts_graph st) (ts_regs_to_edges st) (a_offset a) Hr Hg)
      as [Hg' Hr'].
    split; [|split]; simpl; [|done..].
    assert (Forall Q ((λ p : CodeLocation * labels, (p.1, loc, p.2)) <$> map_to_list x))
      as Hedges by (eapply def_lookup_edges; [|eassumption]; reflexivity).
    revert Hedges Hr'. generalize (dump_if_present (ts_graph st) (ts_regs_to_edges st)
                                     (a_offset a)).2 as d.
    generalize (map_to_list x) as l. intros l. induction l as [|p l IH]; intros d Hl Hd; [done|].
    rewrite fmap_cons in Hl. apply Forall_cons in Hl as [Hp Hl]. simpl.
    apply IH; [done|]. by apply dict_all_append.
  - by inversion H; subst.
Qed.

Lemma queue_tmp_edge_Q type_ loc st tmp st' :
  (∀ s, ts_temps st !! tmp = Some s → Q (s, loc, tmp_label type_ tmp)) →
  track_inv_Q Q g0 st → queue_tmp_edge type_ loc st tmp = Ok st' →
  track_inv_Q Q g0 st'.
Proof.
  intros Hnew (Hr & Ht & Hg) H. unfold queue_tmp_edge in H.
  destruct (ts_temps st !! tmp) as [s|]; [|done]. inversion H; subst.
  destruct (dump_if_present_Q (ts_graph st) (ts_temps_to_edges st) tmp Ht Hg) as [Hg' Ht'].
  split; [|split]; simpl; [done| |done].
  apply dict_all_append; [done|]. by apply Hnew.
Qed.

Lemma track_action_Q keep_data st a st' :
  (∀ t s type_, ts_temps st !! t = Some s → reads_tmp t a →
                Q (s, code_loc_of a, tmp_label type_ t)) →
  track_inv_Q Q g0 st → track_action keep_data st a = Ok st' → track_inv_Q Q g0 st'.
Proof.
  intros Hnew Hinv H. unfold track_action in H. destruct (a_type a) eqn:Ety.
  - revert H. apply (for_each_ind _ (track_inv_Q Q g0)); [done|].
    intros ???? . apply track_mem_Q.
  - by eapply track_reg_Q.
  - unfold track_tmp in H. destruct (decide (a_action a = A_read)) as [Hrd|Hrd].
    + eapply queue_tmp_edge_Q; [|done..]. intros s Hs. apply Hnew; [done|]. by left.
    + inversion H; subst. done.
  - revert H.
    apply (for_each_ind _ (λ s, track_inv_Q Q g0 s ∧ ts_temps s = ts_temps st)
             (a_tmp_deps a) st st' (conj Hinv eq_refl)).
    intros s1 t s2 Hin [Hs1 Htemps] H. split.
    + eapply queue_tmp_edge_Q; [|done..]. intros s Hs. apply Hnew.
      * by rewrite <- Htemps.
      * by right.
    + apply queue_tmp_edge_temps in H. congruence.
  - by inversion H; subst.
Qed.

Lemma track_finish_Q st :
  track_inv_Q Q g0 st → graph_new Q g0 (ts_graph (track_finish st)).
Proof.
  intros (Hr & Ht & Hg). unfold track_finish; simpl.
  destruct (dump_all_Q (ts_graph st) (ts_regs_to_edges st) Hr Hg) as [Hg' _].
  by apply dump_all_Q.
Qed.
End track_invariant.

(** ** Temporaries are local to the trace *)

(** Induction along the replay, with the position in the action list. *)
Lemma track_loop_ind (acts : list SimAction) (J : nat → track_state → Prop) keep_data :
  (∀ n a st st', acts !! n = Some a → J n st →
                 track_action keep_data st a = Ok st' → J (S n) st') →
  ∀ post pre st st',
    acts = pre ++ post → J (length pre) st →
    track_loop keep_data post st = Ok st' → J (length acts) st'.
Proof.
  intros Hstep. induction post as [|a post IH]; intros pre st st' Hacts HJ Hrun.
  - inversion Hrun; subst. by rewrite app_nil_r.
  - unfold track_loop in Hrun. rewrite for_each_cons in Hrun. bind_inv Hrun.
    apply (IH (pre ++ [a]) x st').
    + by rewrite <- app_assoc.
    + rewrite length_app. simpl. rewrite Nat.add_1_r.
      eapply Hstep; [|done..]. subst acts. by rewrite list_lookup_middle.
    + done.
Qed.

(** Every entry of [temps] was put there by a write of that temporary among
    the first [n] actions. *)
Definition temps_defined (acts : list SimAction) (n : nat) (st : track_state) : Prop :=
  ∀ t s, ts_temps st !! t = Some s →
         ∃ i aw, (i < n)%nat ∧ acts !! i = Some aw ∧ writes_tmp t aw ∧ code_loc_of aw = s.

Lemma temps_defined_step acts keep_data n a st st' :
  acts !! n = Some a → temps_defined acts n st →
  track_action keep_data st a = Ok st' → temps_defined acts (S n) st'.
Proof.
  intros Hn Hdef H t s Hts. apply track_action_temps in H. rewrite H in Hts.
  destruct (decide (writes_tmp (a_tmp a) a)) as [Hw|Hw].
  - destruct (decide (a_tmp a = t)) as [<-|Hne].
    + rewrite lookup_insert_eq in Hts. inversion Hts; subst.
      exists n, a. split_and!; [lia|done|done|done].
    + rewrite lookup_insert_ne in Hts by done.
      destruct (Hdef t s Hts) as (i & aw & Hi & ?). exists i, aw. split; [lia|done].
  - destruct (Hdef t s Hts) as (i & aw & Hi & ?). exists i, aw. split; [lia|done].
Qed.

Lemma temps_defined_init acts h g live_defs : temps_defined acts 0 (track_init h g live_defs).
Proof. intros t s H. simpl in H. by rewrite lookup_empty in H. Qed.

(** An edge labelled as a temporary or exit dependence runs from a write of a
    temporary to a later read of the same temporary, both in [acts]. *)
Definition tmp_edge_ok (acts : list SimAction) (e : edge) : Prop :=
  e.2 !! "type" = Some (LStr "tmp") ∨ e.2 !! "type" = Some (LStr "exit") →
  ∃ i j t aw ar,
    (i < j)%nat ∧
    acts !! i = Some aw ∧ writes_tmp t aw ∧ code_loc_of aw = e.1.1 ∧
    acts !! j = Some ar ∧ reads_tmp t ar ∧ code_loc_of ar = e.1.2.

Lemma tmp_edge_ok_annotated acts e e' : annotated e e' → tmp_edge_ok acts e → tmp_edge_ok acts e'.
Proof.
  intros (H1 & Hk & _) He. unfold tmp_edge_ok. rewrite H1, (Hk "type") by done. exact He.
Qed.

Lemma def_label_type keep_data type_ variable :
  def_label keep_data type_ variable !! "type" = Some (LStr type_).
Proof. unfold def_label. destruct keep_data; by rewrite lookup_insert_eq. Qed.

Lemma tmp_edge_ok_def acts s t keep_data type_ variable :
  variable_type variable = Ok type_ →
  tmp_edge_ok acts (s, t, def_label keep_data type_ variable).
Proof.
  intros Hty [H|H]; simpl in H; rewrite def_label_type in H;
    destruct variable; simpl in Hty; inversion Hty; subst; discriminate.
Qed.

Lemma track_action_tmp_edges acts g0 keep_data n a st st' :
  acts !! n = Some a → temps_defined acts n st →
  track_inv_Q (tmp_edge_ok acts) g0 st →
  track_action keep_data st a = Ok st' →
  track_inv_Q (tmp_edge_ok acts) g0 st'.
Proof.
  intros Hn Hdef Hinv H. revert H. apply track_action_Q; [| |..|done].
  - apply tmp_edge_ok_annotated.
  - intros. by apply tmp_edge_ok_def.
  - intros t s type_ Hts Hrd _. destruct (Hdef t s Hts) as (i & aw & Hi & Hiw & Hw & Hloc).
    exists i, n, t, aw, a. by split_and!.
Qed.

(** C9: every edge that a replay adds to the graph with the label
    [type = "tmp"] (a read of a temporary) or [type = "exit"] (an exit that
    depends on a temporary) has as source the code location of a write of that
    temporary at an earlier position of the same action list, and as target
    the code location of the reading action.  The heap, the graph and the
    incoming live definitions are arbitrary: [temps] starts empty at each
    replay and nothing else supplies a source. *)
Theorem tmp_edges_local keep_data h g state live_defs h' g' new_defs :
  _track keep_data h g state live_defs = Ok (h', g', new_defs) →
  ∃ new,
    g' = g ++ new ∧
    ∀ e, e ∈ new →
         e.2 !! "type" = Some (LStr "tmp") ∨ e.2 !! "type" = Some (LStr "exit") →
         ∃ i j t aw ar,
           (i < j)%nat ∧
           actions state !! i = Some aw ∧ writes_tmp t aw ∧ code_loc_of aw = e.1.1 ∧
           actions state !! j = Some ar ∧ reads_tmp t ar ∧ code_loc_of ar = e.1.2.
Proof.
  intros H. unfold _track in H. bind_inv H. inversion H; subst. clear H.
  assert (temps_defined (actions state) (length (actions state)) x ∧
          track_inv_Q (tmp_edge_ok (actions state)) g x) as [_ Hinv].
  { apply (track_loop_ind (actions state)
             (λ n st, temps_defined (actions state) n st ∧
                      track_inv_Q (tmp_edge_ok (actions state)) g st)
             keep_data) with (post := actions state) (pre := []) (st := track_init h g live_defs);
      [|done| |done].
    - intros n a st st' Hn [Hdef Hinv] Hstep. split.
      + by eapply temps_defined_step.
      + by eapply track_action_tmp_edges.
    - split; [apply temps_defined_init|].
      repeat split; simpl; [apply dict_all_empty..|apply graph_new_refl]. }
  apply track_finish_Q in Hinv; [|apply tmp_edge_ok_annotated..].
  destruct Hinv as (new & Hnew & Hall). exists new. split; [done|].
  intros e He. rewrite Forall_forall in Hall. by apply Hall.
Qed.

Lemma tmp_edges_local_witness :
  ∃ h' g' new_defs,
    _track false [] [] Demo.tmp_block ∅ = Ok (h', g', new_defs) ∧
    ∃ new,
      g' = [] ++ new ∧
      ∀ e, e ∈ new →
           e.2 !! "type" = Some (LStr "tmp") ∨ e.2 !! "type" = Some (LStr "exit") →
           ∃ i j t aw ar,
             (i < j)%nat ∧
             actions Demo.tmp_block !! i = Some aw ∧ writes_tmp t aw ∧
             code_loc_of aw = e.1.1 ∧
             actions Demo.tmp_block !! j = Some ar ∧ reads_tmp t ar ∧
             code_loc_of ar = e.1.2.
Proof.
  destruct (is_Ok_inv (_track false [] [] Demo.tmp_block ∅)) as [[[h' g'] nd] E];
    [vm_compute; reflexivity|].
  exists h', g', nd. split; [exact E|].
  exact (tmp_edges_local false [] [] Demo.tmp_block ∅ h' g' nd E).
Defined.

(** ** A read of a temporary that the trace has not written *)

(** A loop whose iterations either return or raise [e] returns or raises [e]. *)
Lemma for_each_Ok_or_Err {A S} (body : S → A → res S) (e : exn) (P : S → Prop) l s :
  P s →
  (∀ s1 x, x ∈ l → P s1 → (∃ s2, body s1 x = Ok s2 ∧ P s2) ∨ body s1 x = Err e) →
  (∃ s', for_each body l s = Ok s' ∧ P s') ∨ for_each body l s = Err e.
Proof.
  revert s. induction l as [|x l IH]; intros s Hs Hstep; [by eauto|].
  rewrite for_each_cons.
  destruct (Hstep s x) as [(s1 & H1 & HP)|H1]; [left|done| |].
  - rewrite H1. simpl. apply IH; [done|]. intros ?? Hin. apply Hstep. by right.
  - rewrite H1. by right.
Qed.

(** The pending edges carry a well-formed ["subtype"] label, so that
    annotating them does not raise. *)
Definition wf_pending (st : track_state) : Prop :=
  dict_all (λ e : edge, subtype_ok e.2) (ts_regs_to_edges st) ∧
  dict_all (λ e : edge, subtype_ok e.2) (ts_temps_to_edges st).

Lemma def_label_subtype_ok keep_data type_ variable :
  subtype_ok (def_label keep_data type_ variable).
Proof.
  intros v H. unfold def_label in H.
  destruct keep_data; rewrite lookup_insert_ne in H by done;
    by rewrite lookup_singleton_ne in H.
Qed.

Lemma tmp_label_subtype_ok type_ tmp : subtype_ok (tmp_label type_ tmp).
Proof.
  intros v H. unfold tmp_label in H. rewrite lookup_insert_ne in H by done.
  by rewrite lookup_singleton_ne in H.
Qed.

Lemma wf_pending_step keep_data st a st' :
  wf_pending st → track_action keep_data st a = Ok st' → wf_pending st'.
Proof.
  intros [Hr Ht] H.
  assert (track_inv_Q (λ e : edge, subtype_ok e.2) (ts_graph st) st') as (? & ? & _);
    [|by split].
  revert H. apply track_action_Q.
  - intros e e'. apply annotated_subtype_ok.
  - intros. apply def_label_subtype_ok.
  - intros. apply tmp_label_subtype_ok.
  - split_and!; [done..|apply graph_new_refl].
Qed.

Lemma variable_type_mem addr size : variable_type (SimMemoryVariable addr size) = Ok "mem".
Proof. reflexivity. Qed.

Lemma variable_type_reg reg size : variable_type (SimRegisterVariable reg size) = Ok "reg".
Proof. reflexivity. Qed.

Lemma track_mem_total keep_data a loc st addr :
  wf_pending st → ∃ st', track_mem keep_data a loc st addr = Ok st'.
Proof.
  intros [Hr Ht]. unfold track_mem.
  destruct (def_lookup_spec keep_data (ts_heap st) (ts_live_defs st)
              (SimMemoryVariable addr (obj_size (a_data a))) "mem" eq_refl)
    as (prevdefs & Hlook & _).
  destruct (annotate_all_total "mem_addr" _ (obj_reg_deps (a_addr a)) Hr) as (r1 & Hr1 & Hr1').
  destruct (annotate_all_total "mem_addr" _ (obj_tmp_deps (a_addr a)) Ht) as (t1 & Ht1 & Ht1').
  destruct (annotate_all_total "mem_data" _ (obj_reg_deps (a_data a)) Hr1') as (r2 & Hr2 & _).
  destruct (annotate_all_total "mem_data" _ (obj_tmp_deps (a_data a)) Ht1') as (t2 & Ht2 & _).
  destruct (decide (a_action a = A_read)).
  - rewrite Hlook. simpl. rewrite Hr1. simpl. rewrite Ht1. simpl. rewrite Hr2. simpl.
    rewrite Ht2. simpl. eauto.
  - simpl. rewrite Hr1. simpl. rewrite Ht1. simpl. rewrite Hr2. simpl.
    rewrite Ht2. simpl. eauto.
Qed.

Lemma track_mem_wf keep_data a loc st addr st' :
  wf_pending st → track_mem keep_data a loc st addr = Ok st' → wf_pending st'.
Proof.
  intros [Hr Ht] H.
  assert (track_inv_Q (λ e : edge, subtype_ok e.2) (ts_graph st) st') as (? & ? & _);
    [|by split].
  revert H. apply track_mem_Q.
  - intros e e'. apply annotated_subtype_ok.
  - intros. apply def_label_subtype_ok.
  - split_and!; [done..|apply graph_new_refl].
Qed.

Lemma track_reg_total keep_data a loc st : ∃ st', track_reg keep_data a loc st = Ok st'.
Proof.
  unfold track_reg.
  destruct (def_lookup_spec keep_data (ts_heap st) (ts_live_defs st)
              (SimRegisterVariable (a_offset a) (obj_size (a_data a))) "reg" eq_refl)
    as (prevdefs & Hlook & _).
  destruct (decide (a_action a = A_read)); [rewrite Hlook; simpl|]; eauto.
Qed.

Lemma queue_tmp_edge_Ok_or_KeyError type_ loc st tmp :
  (∃ st', queue_tmp_edge type_ loc st tmp = Ok st') ∨
  queue_tmp_edge type_ loc st tmp = Err KeyError.
Proof. unfold queue_tmp_edge. destruct (ts_temps st !! tmp); eauto. Qed.

(** The only exception that replaying one action can raise is the [KeyError]
    of [temps[tmp]]. *)
Lemma track_action_Ok_or_KeyError keep_data st a :
  wf_pending st →
  (∃ st', track_action keep_data st a = Ok st' ∧ wf_pending st') ∨
  track_action keep_data st a = Err KeyError.
Proof.
  intros Hwf.
  assert ((∃ st', track_action keep_data st a = Ok st') ∨
          track_action keep_data st a = Err KeyError) as [[st' H]|H]; [|left|by right].
  - unfold track_action. destruct (a_type a).
    + left. destruct (for_each_total (track_mem keep_data a (code_loc_of a)) wf_pending
                        (addr_list a) st Hwf) as (st' & H & _); [|by eauto].
      intros s1 x _ Hs1. destruct (track_mem_total keep_data a (code_loc_of a) s1 x Hs1)
        as [s2 H2]. exists s2. split; [done|]. by eapply track_mem_wf.
    + left. apply track_reg_total.
    + unfold track_tmp. destruct (decide (a_action a = A_read)); [|by eauto].
      apply queue_tmp_edge_Ok_or_KeyError.
    + destruct (for_each_Ok_or_Err (queue_tmp_edge "exit" (code_loc_of a)) KeyError
                  (λ _, True) (a_tmp_deps a) st I) as [(st' & H & _)|H]; [|by eauto|by right].
      intros s1 x _ _.
      destruct (queue_tmp_edge_Ok_or_KeyError "exit" (code_loc_of a) s1 x) as [[s2 H]|H];
        [left; by eauto|by right].
    + by eauto.
  - exists st'. split; [done|]. by eapply wf_pending_step.
Qed.

Lemma track_loop_Ok_or_KeyError keep_data acts st :
  wf_pending st →
  (∃ st', track_loop keep_data acts st = Ok st' ∧ wf_pending st') ∨
  track_loop keep_data acts st = Err KeyError.
Proof.
  intros Hwf. apply for_each_Ok_or_Err; [done|].
  intros s1 a _ Hs1. by apply track_action_Ok_or_KeyError.
Qed.

(** Reading a temporary that [temps] does not hold raises [KeyError]. *)
Lemma track_action_undefined keep_data st a t :
  reads_tmp t a → ts_temps st !! t = None → track_action keep_data st a = Err KeyError.
Proof.
  intros [(Hty & Hrd & <-)|[Hty Hin]] Hnone; unfold track_action; rewrite Hty.
  - unfold track_tmp. rewrite decide_True by done. unfold queue_tmp_edge. by rewrite Hnone.
  - apply list_elem_of_split in Hin as (d1 & d2 & ->). rewrite for_each_app.
    destruct (for_each_Ok_or_Err (queue_tmp_edge "exit" (code_loc_of a)) KeyError
                (λ s, ts_temps s = ts_temps st) d1 st eq_refl) as [(st' & H & Htemps)|H].
    + intros s1 x _ Hs1.
      destruct (queue_tmp_edge_Ok_or_KeyError "exit" (code_loc_of a) s1 x) as [[s2 H]|H];
        [left|by right].
      exists s2. split; [done|]. apply queue_tmp_edge_temps in H. congruence.
    + rewrite H. simpl.
      assert (queue_tmp_edge "exit" (code_loc_of a) st' t = Err KeyError) as ->; [|done].
      unfold queue_tmp_edge. by rewrite Htemps, Hnone.
    + by rewrite H.
Qed.

Lemma wf_pending_init h g live_defs : wf_pending (track_init h g live_defs).
Proof. split; apply dict_all_empty. Qed.

Lemma track_Ok_or_KeyError keep_data h g state live_defs :
  (∃ r, _track keep_data h g state live_defs = Ok r) ∨
  _track keep_data h g state live_defs = Err KeyError.
Proof.
  unfold _track.
  destruct (track_loop_Ok_or_KeyError keep_data (actions state) (track_init h g live_defs)
              (wf_pending_init h g live_defs)) as [(st & H & _)|H]; rewrite H; simpl; eauto.
Qed.

Lemma process_state_Ok_or_KeyError keep_data cfg node σ state :
  (∃ σ', process_state keep_data cfg node σ state = Ok σ') ∨
  process_state keep_data cfg node σ state = Err KeyError.
Proof.
  unfold process_state.
  destruct (_ && _); [by eauto|].
  destruct (filter _ _) as [|successing_node ?]; [by eauto|].
  destruct (track_Ok_or_KeyError keep_data (ddg_heap σ) (ddg_graph σ) state
              (default ∅ (live_defs_per_node σ !! node))) as [[[[h g] new_defs] H]|H];
    rewrite H; simpl; [left|by right].
  destruct (merge_defs _ _ _) as [[defs h'] changed]. eauto.
Qed.

(** An exception raised while a node is processed ends the loop. *)
Lemma construct_loop_raises fuel keep_data cfg σ e :
  worklist σ ≠ [] → construct_step keep_data cfg σ = Err e →
  construct_loop (S fuel) keep_data cfg σ = Some (Err e).
Proof. intros Hwl H. simpl. rewrite H. by destruct (worklist σ). Qed.

(** C10: when an action of a trace reads a temporary (a read of the temporary,
    or an exit that depends on it) that no earlier action of the trace has
    written, the replay raises [KeyError], whatever the heap, the graph and the
    incoming live definitions are; and when such a trace belongs to a final
    state of the node at the head of the worklist that is not skipped (it is
    not a fake return among several final states, and its target is the
    address of a successor), the worklist loop ends with that [KeyError]. *)
Theorem undefined_tmp_read_raises keep_data state pre a post t :
  actions state = pre ++ a :: post →
  reads_tmp t a →
  (∀ a', a' ∈ pre → ¬ writes_tmp t a') →
  (∀ h g live_defs, _track keep_data h g state live_defs = Err KeyError) ∧
  (∀ fuel cfg σ node worklist',
     worklist σ = node :: worklist' → node ∈ worklist_set σ →
     state ∈ final_states (cfg_node cfg node) →
     jumpkind state ≠ "Ijk_FakeRet" ∨ (length (final_states (cfg_node cfg node)) ≤ 1)%nat →
     (∃ n, n ∈ successors cfg node ∧ addr (cfg_node cfg n) = ip state) →
     construct_loop (S fuel) keep_data cfg σ = Some (Err KeyError)).
Proof.
  intros Hacts Hrd Hpre.
  assert (∀ h g live_defs, _track keep_data h g state live_defs = Err KeyError) as Htrack.
  { intros h g live_defs. unfold _track, track_loop. rewrite Hacts, for_each_app.
    destruct (track_loop_Ok_or_KeyError keep_data pre (track_init h g live_defs)
                (wf_pending_init h g live_defs)) as [(st & H & _)|H];
      unfold track_loop in H; rewrite H; [|done].
    assert (ts_temps st !! t = None) as Hnone.
    { destruct (ts_temps st !! t) as [s|] eqn:Hts; [|done].
      assert (temps_defined pre (length pre) st) as Hdef.
      { apply (track_loop_ind pre (temps_defined pre) keep_data) with
          (post := pre) (pre := []) (st := track_init h g live_defs); [|done| |done].
        - intros. by eapply temps_defined_step.
        - apply temps_defined_init. }
      destruct (Hdef t s Hts) as (i & aw & _ & Hi & Hw & _).
      destruct (Hpre aw); [|done]. by eapply list_elem_of_lookup_2. }
    simpl. by rewrite (track_action_undefined keep_data st a t). }
  split; [done|].
  intros fuel cfg σ node worklist' Hwl Hin Hstate Hjk (n & Hn & Haddr).
  apply construct_loop_raises; [by rewrite Hwl|].
  unfold construct_step. rewrite Hwl, decide_True by done.
  apply list_elem_of_split in Hstate as (sts1 & sts2 & Hsts). rewrite Hsts, for_each_app.
  match goal with |- for_each ?body sts1 ?s ≫= _ = _ =>
    destruct (for_each_Ok_or_Err body KeyError (λ _, True) sts1 s I) as [(σ1 & H & _)|H]
  end.
  - intros s1 x _ _.
    destruct (process_state_Ok_or_KeyError keep_data cfg node s1 x) as [[s2 H]|H];
      [left; by eauto|by right].
  - rewrite H. simpl.
    assert (process_state keep_data cfg node σ1 state = Err KeyError) as ->; [|done].
    unfold process_state.
    assert (bool_decide (jumpkind state = "Ijk_FakeRet")
            && bool_decide (1 < length (final_states (cfg_node cfg node)))%nat = false) as ->.
    { destruct Hjk as [Hjk|Hlen].
      - by rewrite bool_decide_eq_false_2.
      - rewrite (bool_decide_eq_false_2 (1 < _)%nat) by lia. apply andb_false_r. }
    destruct (filter _ _) as [|successing_node ?] eqn:Hf.
    + assert (n ∈ filter (λ n, addr (cfg_node cfg n) = ip state) (successors cfg node))
        as Hnf by by apply list_elem_of_filter.
      rewrite Hf in Hnf. by apply not_elem_of_nil in Hnf.
    + by rewrite Htrack.
  - by rewrite H.
Qed.

Lemma undefined_tmp_read_raises_witness :
  (∀ h g live_defs, _track false h g Demo.undefined_tmp_block live_defs = Err KeyError) ∧
  construct_loop 1 false Demo.broken_chain (construct_init Demo.broken_chain (Some 0%nat))
  = Some (Err KeyError).
Proof.
  destruct (undefined_tmp_read_raises false Demo.undefined_tmp_block
              [Demo.tmp_write 0x1000 1 3] (Demo.tmp_read 0x1000 2 7)
              [Demo.reg_write 0x1000 3 16] 7) as [Htrack Hloop].
  - reflexivity.
  - left. by split_and!.
  - intros a' Hin (_ & _ & Htmp). apply list_elem_of_singleton in Hin. by subst a'.
  - split; [exact Htrack|].
    apply (Hloop 0%nat Demo.broken_chain _ 0%nat []).
    + vm_compute; reflexivity.
    + vm_compute; reflexivity.
    + left.
    + left. discriminate.
    + exists 1%nat. split; [|reflexivity]. left.
Defined.

(** ** Pending edges reach the graph *)

(** Some edge from [p.1] to [p.2] is pending in the dictionary. *)
Definition pending (dict_ : edge_dict) (p : CodeLocation * CodeLocation) : Prop :=
  ∃ key e, e ∈ dd_get dict_ key ∧ edge_key e = p.

(** The dependence [p] is pending or already in the graph. *)
Definition settled (st : track_state) (p : CodeLocation * CodeLocation) : Prop :=
  pending (ts_regs_to_edges st) p ∨ pending (ts_temps_to_edges st) p ∨
  p ∈ edge_key <$> ts_graph st.

Lemma dd_get_insert dict_ key es : dd_get (<[key := es]> dict_) key = es.
Proof. unfold dd_get. by rewrite lookup_insert_eq. Qed.

Lemma dd_get_insert_ne dict_ key key' es :
  key ≠ key' → dd_get (<[key := es]> dict_) key' = dd_get dict_ key'.
Proof. intros. unfold dd_get. by rewrite lookup_insert_ne. Qed.

Lemma dd_get_elem dict_ key e : e ∈ dd_get dict_ key → is_Some (dict_ !! key).
Proof. unfold dd_get. destruct (dict_ !! key); [by eauto|]. intros H. by apply elem_of_nil in H. Qed.

Lemma annotate_dict_pending dict_ key v dict' p :
  _annotate_edges_in_dict dict_ key (subtype v) = Ok dict' → pending dict_ p → pending dict' p.
Proof.
  intros H (k & e & He & Hp). apply annotate_dict_spec in H as (es' & -> & Hes).
  destruct (decide (key = k)) as [->|Hne].
  - apply list_elem_of_lookup in He as [i Hi].
    destruct (Forall2_lookup_l _ _ _ _ _ Hes Hi) as (e' & Hi' & He' & _).
    exists k, e'. rewrite dd_get_insert. split; [by eapply list_elem_of_lookup_2|].
    unfold edge_key in *. congruence.
  - exists k, e. by rewrite dd_get_insert_ne.
Qed.

Lemma annotate_all_pending v dict_ deps dict' p :
  annotate_all v dict_ deps = Ok dict' → pending dict_ p → pending dict' p.
Proof.
  intros H Hp. revert H. unfold annotate_all.
  apply (for_each_ind _ (λ d, pending d p)); [done|].
  intros d1 key d2 _ Hd1 H. by eapply annotate_dict_pending.
Qed.

Lemma add_edges_keeps g es p : p ∈ edge_key <$> g → p ∈ edge_key <$> add_edges g es.
Proof.
  intros Hp. destruct (add_edges_prefix g es) as [new ->]. rewrite fmap_app.
  apply elem_of_app. by left.
Qed.

Lemma add_edges_adds g es e : e ∈ es → edge_key e ∈ edge_key <$> add_edges g es.
Proof.
  intros He. apply (add_edges_has g) in He. apply has_edge_true in He.
  by destruct e as [[??]?].
Qed.

Lemma dump_edge_pending g dict_ key del_key p :
  pending dict_ p ∨ p ∈ edge_key <$> g →
  pending (_dump_edge_from_dict g dict_ key del_key).2 p ∨
  p ∈ edge_key <$> (_dump_edge_from_dict g dict_ key del_key).1.
Proof.
  unfold _dump_edge_from_dict; simpl. intros [(k & e & He & Hp)|Hg];
    [|right; by apply add_edges_keeps].
  destruct (decide (key = k)) as [->|Hne].
  - right. subst p. by apply add_edges_adds.
  - left. exists k, e. split; [|done]. destruct del_key.
    + unfold dd_get. by rewrite lookup_delete_ne.
    + unfold dd_touch. by rewrite dd_get_insert_ne.
Qed.

Lemma dump_if_present_pending g dict_ key p :
  pending dict_ p ∨ p ∈ edge_key <$> g →
  pending (dump_if_present g dict_ key).2 p ∨ p ∈ edge_key <$> (dump_if_present g dict_ key).1.
Proof.
  unfold dump_if_present. destruct (decide _); [apply dump_edge_pending | done].
Qed.

Lemma dd_append_pending dict_ key e p : pending dict_ p → pending (dd_append dict_ key e) p.
Proof.
  intros (k & e' & He & Hp). exists k, e'. split; [|done]. unfold dd_append.
  destruct (decide (key = k)) as [->|Hne].
  - rewrite dd_get_insert. apply elem_of_app. by left.
  - by rewrite dd_get_insert_ne.
Qed.

Lemma dd_append_all_pending {A} (f : A → edge) dict_ key l p :
  pending dict_ p → pending (foldl (λ d x, dd_append d key (f x)) dict_ l) p.
Proof.
  revert dict_. induction l as [|x l IH]; intros d Hd; [done|].
  simpl. apply IH. by apply dd_append_pending.
Qed.

Lemma track_mem_settled keep_data a loc st addr st' p :
  settled st p → track_mem keep_data a loc st addr = Ok st' → settled st' p.
Proof.
  intros Hp H. unfold track_mem in H.
  bind_inv H. rename x into g, Hx into Hg.
  bind_inv H. rename x into r1, Hx into Hr1.
  bind_inv H. rename x into t1, Hx into Ht1.
  bind_inv H. rename x into r2, Hx into Hr2.
  bind_inv H. rename x into t2, Hx into Ht2.
  inversion H; subst; clear H. unfold settled; simpl.
  destruct Hp as [Hp|[Hp|Hp]].
  - left. eapply annotate_all_pending; [done|]. by eapply annotate_all_pending.
  - right; left. eapply annotate_all_pending; [done|]. by eapply annotate_all_pending.
  - right; right. destruct (decide (a_action a = A_read)).
    + bind_inv Hg. inversion Hg; subst. by apply add_edges_keeps.
    + by inversion Hg; subst.
Qed.

Lemma track_reg_settled keep_data a loc st st' p :
  settled st p → track_reg keep_data a loc st = Ok st' → settled st' p.
Proof.
  intros Hp H. unfold track_reg in H. destruct (decide (a_action a = A_read)).
  - bind_inv H. inversion H; subst; clear H. unfold settled; simpl.
    destruct Hp as [Hp|[Hp|Hp]]; [| by right; left |].
    + destruct (dump_if_present_pending (ts_graph st) (ts_regs_to_edges st) (a_offset a) p)
        as [Hd|Hd]; [by left| |by right; right].
      left. by apply dd_append_all_pending.
    + destruct (dump_if_present_pending (ts_graph st) (ts_regs_to_edges st) (a_offset a) p)
        as [Hd|Hd]; [by right| |by right; right].
      left. by apply dd_append_all_pending.
  - by inversion H; subst.
Qed.

Lemma queue_tmp_edge_settled type_ loc st tmp st' p :
  settled st p → queue_tmp_edge type_ loc st tmp = Ok st' → settled st' p.
Proof.
  intros Hp H. unfold queue_tmp_edge in H. destruct (ts_temps st !! tmp); [|done].
  inversion H; subst; clear H. unfold settled; simpl.
  destruct Hp as [Hp|[Hp|Hp]]; [by left| |].
  - destruct (dump_if_present_pending (ts_graph st) (ts_temps_to_edges st) tmp p)
      as [Hd|Hd]; [by left| |by right; right].
    right; left. by apply dd_append_pending.
  - destruct (dump_if_present_pending (ts_graph st) (ts_temps_to_edges st) tmp p)
      as [Hd|Hd]; [by right| |by right; right].
    right; left. by apply dd_append_pending.
Qed.

Lemma track_action_settled keep_data st a st' p :
  settled st p → track_action keep_data st a = Ok st' → settled st' p.
Proof.
  intros Hp H. unfold track_action in H. destruct (a_type a).
  - revert H. apply (for_each_ind _ (λ st, settled st p)); [done|].
    intros ????. apply track_mem_settled.
  - by eapply track_reg_settled.
  - unfold track_tmp in H. destruct (decide (a_action a = A_read)).
    + by eapply queue_tmp_edge_settled.
    + by inversion H; subst.
  - revert H. apply (for_each_ind _ (λ st, settled st p)); [done|].
    intros ????. apply queue_tmp_edge_settled.
  - by inversion H; subst.
Qed.

Lemma dd_touch_id dict_ key : is_Some (dict_ !! key) → dd_touch dict_ key = dict_.
Proof.
  intros [es H]. unfold dd_touch, dd_get. rewrite H. simpl. by apply insert_id.
Qed.

(** The last loops of [_track] leave the dictionary as it is and hand every
    group to the graph. *)
Lemma dump_keys_spec dict_ keys g :
  (∀ k, k ∈ keys → is_Some (dict_ !! k)) →
  foldl (λ (gd : DiGraph * edge_dict) key, _dump_edge_from_dict gd.1 gd.2 key false)
    (g, dict_) keys
  = (foldl (λ g key, add_edges g (dd_get dict_ key)) g keys, dict_).
Proof.
  revert g. induction keys as [|k keys IH]; intros g Hkeys; [done|].
  simpl. unfold _dump_edge_from_dict at 2; simpl.
  rewrite dd_touch_id by (apply Hkeys; left).
  apply IH. intros k' Hk'. apply Hkeys. by right.
Qed.

Lemma dump_keys_flush dict_ keys g p :
  p ∈ edge_key <$> g ∨ (∃ k e, k ∈ keys ∧ e ∈ dd_get dict_ k ∧ edge_key e = p) →
  p ∈ edge_key <$> foldl (λ g key, add_edges g (dd_get dict_ key)) g keys.
Proof.
  revert g. induction keys as [|k keys IH]; intros g [Hg|(k' & e & Hk' & He & Hp)].
  - done.
  - by apply elem_of_nil in Hk'.
  - simpl. apply IH. left. by apply add_edges_keeps.
  - simpl. apply IH. apply elem_of_cons in Hk' as [->|Hk'].
    + left. subst p. by apply add_edges_adds.
    + right. by exists k', e.
Qed.

Lemma dump_all_flush g dict_ p :
  pending dict_ p ∨ p ∈ edge_key <$> g → p ∈ edge_key <$> (dump_all g dict_).1.
Proof.
  intros Hp. unfold dump_all. rewrite dump_keys_spec.
  - simpl. apply dump_keys_flush. destruct Hp as [(k & e & He & Hp)|Hg]; [right|by left].
    exists k, e. split; [|done]. destruct (dd_get_elem _ _ _ He) as [es Hes].
    apply list_elem_of_fmap. exists (k, es). split; [done|]. by apply elem_of_map_to_list.
  - intros k Hk. apply list_elem_of_fmap in Hk as ([k' es] & -> & Hk).
    apply elem_of_map_to_list in Hk. by eauto.
Qed.

Lemma track_finish_settled st p : settled st p → p ∈ edge_key <$> ts_graph (track_finish st).
Proof.
  intros [Hp|[Hp|Hp]]; unfold track_finish; simpl; apply dump_all_flush.
  - right. apply dump_all_flush. by left.
  - by left.
  - right. apply dump_all_flush. by right.
Qed.

(** Take the replay at any point of the trace (after the actions [pre]):
    every edge that is pending then, in the register groups or in the groups of
    the temporaries, has been handed to the graph when the replay returns, so
    that the graph holds an edge from its source to its target.  When a read of
    a register or of a temporary finds a group pending under its own key, the
    edges of that group are in the graph right after the action. *)
Lemma pending_edges_in_graph keep_data h g state live_defs pre post st h' g' new_defs :
  actions state = pre ++ post →
  track_loop keep_data pre (track_init h g live_defs) = Ok st →
  _track keep_data h g state live_defs = Ok (h', g', new_defs) →
  (∀ key e,
     e ∈ dd_get (ts_regs_to_edges st) key ∨ e ∈ dd_get (ts_temps_to_edges st) key →
     has_edge g' e.1.1 e.1.2 = true) ∧
  (∀ a post' st1 e,
     post = a :: post' → track_action keep_data st a = Ok st1 →
     a_action a = A_read →
     (a_type a = T_reg ∧ e ∈ dd_get (ts_regs_to_edges st) (a_offset a)) ∨
     (a_type a = T_tmp ∧ e ∈ dd_get (ts_temps_to_edges st) (a_tmp a)) →
     has_edge (ts_graph st1) e.1.1 e.1.2 = true).
Proof.
  intros Hacts Hpre H. split.
  - intros key e He.
    assert (settled st (edge_key e)) as Hs.
    { destruct He as [He|He]; [left|right; left]; by exists key, e. }
    unfold _track, track_loop in H. rewrite Hacts, for_each_app in H.
    unfold track_loop in Hpre. rewrite Hpre in H. simpl in H.
    bind_inv H. inversion H; subst; clear H.
    apply has_edge_true. change (e.1.1, e.1.2) with (edge_key (e.1.1, e.1.2, e.2)).
    rewrite edge_eta. apply track_finish_settled.
    revert Hx. apply (for_each_ind _ (λ st, settled st (edge_key e))); [done|].
    intros ????. apply track_action_settled.
  - intros a post' st1 e _ Hstep Hrd He. apply has_edge_true.
    change (e.1.1, e.1.2) with (edge_key (e.1.1, e.1.2, e.2)). rewrite edge_eta.
    unfold track_action in Hstep. destruct He as [[Hty He]|[Hty He]]; rewrite Hty in Hstep.
    + unfold track_reg in Hstep. rewrite decide_True in Hstep by done.
      bind_inv Hstep. inversion Hstep; subst; clear Hstep. simpl.
      unfold dump_if_present. rewrite decide_True by by eapply dd_get_elem.
      by apply add_edges_adds.
    + unfold track_tmp in Hstep. rewrite decide_True in Hstep by done.
      unfold queue_tmp_edge in Hstep. destruct (ts_temps st !! a_tmp a); [|done].
      inversion Hstep; subst; clear Hstep. simpl.
      unfold dump_if_present. rewrite decide_True by by eapply dd_get_elem.
      by apply add_edges_adds.
Qed.

(** ** Merging new definitions into the snapshot of a successor *)

Lemma deref_insert h r s : (r < length h)%nat → deref (<[r := s]> h) r = s.
Proof. intros Hr. unfold deref. by rewrite list_lookup_insert_eq. Qed.

Lemma deref_insert_ne h r r0 s : r ≠ r0 → deref (<[r := s]> h) r0 = deref h r0.
Proof. intros Hr. unfold deref. by rewrite list_lookup_insert_ne. Qed.

(** The loop [for code_loc in code_loc_set] on the set at address [r']. *)
Lemma merge_code_locs r' locs h c :
  (r' < length h)%nat →
  let hc := foldl (merge_code_loc r') (h, c) locs in
  length hc.1 = length h ∧
  deref hc.1 r' = deref h r' ∪ list_to_set locs ∧
  (∀ r0, r0 ≠ r' → deref hc.1 r0 = deref h r0) ∧
  (hc.2 = true ↔ c = true ∨ ∃ loc, loc ∈ locs ∧ loc ∉ deref h r').
Proof.
  revert h c. induction locs as [|loc locs IH]; intros h c Hr'; simpl.
  - split_and!; [done|set_solver|done|]. split; [by left|].
    intros [?|(? & H & _)]; [done|]. by apply elem_of_nil in H.
  - unfold merge_code_loc at 2 4 6 8; simpl. destruct (decide (loc ∈ deref h r')) as [Hin|Hnin].
    + destruct (IH h c Hr') as (Hlen & Hd & Hne & Hc). split_and!; [done| |done|].
      * rewrite Hd. set_solver.
      * rewrite Hc. split; intros [?|(l & Hl & Hl')]; [by left|right|by left|].
        -- exists l. split; [by right|done].
        -- apply elem_of_cons in Hl as [->|Hl]; [done|]. right. by exists l.
    + destruct (IH (<[r' := {[loc]} ∪ deref h r']> h) true) as (Hlen & Hd & Hne & Hc);
        [by rewrite length_insert|].
      split_and!.
      * by rewrite Hlen, length_insert.
      * rewrite Hd, deref_insert by done. set_solver.
      * intros r0 Hr0. rewrite Hne by done. by apply deref_insert_ne.
      * split; [|intros _; apply Hc; by left].
        intros _. right. exists loc. split; [left|done].
Qed.

(** Every set object belongs to one variable: it is created by [_kill] for the
    variable written and is only ever stored under that variable. *)
Definition owned (owner : nat → SimVariable) (d : live_defs_t) : Prop :=
  ∀ v r, d !! v = Some r → owner r = v.

(** What the loop [for var, code_loc_set in new_defs.iteritems()] has done
    when it has gone through the items [l], from the dictionary [D], the heap
    [H] and the flag [c]. *)
Definition merge_post (D : live_defs_t) (H : heap) (c : bool) (l : list (SimVariable * nat))
    (R : live_defs_t * heap * bool) : Prop :=
  length R.1.2 = length H ∧
  (∀ v r', D !! v = Some r' → R.1.1 !! v = Some r') ∧
  (∀ v r, D !! v = None → (v, r) ∈ l → R.1.1 !! v = Some r) ∧
  (∀ v, D !! v = None → v ∉ l.*1 → R.1.1 !! v = None) ∧
  (∀ v r r', D !! v = Some r' → (v, r) ∈ l → deref R.1.2 r' = deref H r' ∪ deref H r) ∧
  (∀ r0, (∀ v r, (v, r) ∈ l → D !! v ≠ Some r0) → deref R.1.2 r0 = deref H r0) ∧
  (R.2 = true ↔
   c = true ∨
   ∃ v r, (v, r) ∈ l ∧
          (D !! v = None ∨
           ∃ r', D !! v = Some r' ∧ ∃ loc, loc ∈ deref H r ∧ loc ∉ deref H r')).

Lemma merge_var_absent D H c v r :
  D !! v = None → merge_var (D, H, c) (v, r) = (<[v := r]> D, H, true).
Proof. intros E. unfold merge_var; simpl. by rewrite E. Qed.

Lemma merge_var_present D H c v r r' :
  D !! v = Some r' →
  merge_var (D, H, c) (v, r)
  = (D, (foldl (merge_code_loc r') (H, c) (elements (deref H r))).1,
        (foldl (merge_code_loc r') (H, c) (elements (deref H r))).2).
Proof. intros E. unfold merge_var; simpl. by rewrite E. Qed.

Lemma merge_fold owner l : ∀ D H c,
  NoDup l.*1 →
  owned owner D → (∀ v r, (v, r) ∈ l → owner r = v) →
  wf_defs H D → (∀ v r, (v, r) ∈ l → (r < length H)%nat) →
  merge_post D H c l (foldl merge_var (D, H, c) l).
Proof.
  induction l as [|[v r] l IH]; intros D H c Hnd HoD Hol HwD Hwl.
  - simpl. unfold merge_post; simpl. split_and!; try done.
    + intros v r _ Hin. by apply elem_of_nil in Hin.
    + intros v r r' _ Hin. by apply elem_of_nil in Hin.
    + split; [by left|]. intros [?|(v & r & Hin & _)]; [done|]. by apply elem_of_nil in Hin.
  - rewrite fmap_cons in Hnd. apply NoDup_cons in Hnd as [Hv Hnd]. simpl in Hv.
    assert (∀ r1, (v, r1) ∉ l) as Hvl.
    { intros r1 Hin. apply Hv. apply list_elem_of_fmap. by exists (v, r1). }
    change (foldl merge_var (D, H, c) ((v, r) :: l))
      with (foldl merge_var (merge_var (D, H, c) (v, r)) l).
    destruct (D !! v) as [r'|] eqn:EDv.
    + rewrite (merge_var_present _ _ _ _ _ r') by done.
      destruct (merge_code_locs r' (elements (deref H r)) H c) as (Hlen & Hd & Hne & Hc);
        [by eapply HwD|].
      rewrite list_to_set_elements_L in Hd.
      set (H1 := (foldl (merge_code_loc r') (H, c) (elements (deref H r))).1) in *.
      set (c1 := (foldl (merge_code_loc r') (H, c) (elements (deref H r))).2) in *.
      assert (∀ v1 r1, (v1, r1) ∈ l →
                r1 ≠ r' ∧ ∀ r1', D !! v1 = Some r1' → r1' ≠ r') as Hfresh.
      { intros v1 r1 Hin1.
        assert (v1 ≠ v) as Hv1 by (intros ->; by apply (Hvl r1)).
        split.
        - intros ->. apply Hv1. rewrite <- (Hol v1 r') by by right. by apply HoD.
        - intros r1' E1 ->. apply Hv1. rewrite <- (HoD _ _ E1). by apply HoD. }
      destruct (IH D H1 c1) as (P1 & P2 & P3 & P4 & P5 & P6 & P7); try done.
      { intros ?? Hin. apply Hol. by right. }
      { intros ?? Hin. rewrite Hlen. by eapply HwD. }
      { intros v0 r0 Hin. rewrite Hlen. apply (Hwl v0 r0). by right. }
      unfold merge_post. split_and!.
      * by rewrite P1.
      * done.
      * intros v0 r0 E0 Hin. apply P3; [done|].
        apply elem_of_cons in Hin as [Heq|Hin]; [|done]. inversion Heq; subst. congruence.
      * intros v0 E0 Hn. apply P4; [done|]. rewrite fmap_cons in Hn.
        by apply not_elem_of_cons in Hn as [_ Hn].
      * intros v0 r0 r0' E0 Hin. apply elem_of_cons in Hin as [Heq|Hin].
        -- inversion Heq; subst. assert (r0' = r') as -> by congruence.
           rewrite P6; [done|]. intros v1 r1 Hin1 E1.
           destruct (Hfresh v1 r1 Hin1) as [_ Hf]. by apply (Hf r').
        -- destruct (Hfresh v0 r0 Hin) as [Hr0 Hf].
           rewrite (P5 v0 r0 r0') by done. rewrite !Hne; [done..|by apply Hf].
      * intros r0 Hr0.
        assert (r0 ≠ r') as Hne0. { intros ->. apply (Hr0 v r); [left|done]. }
        rewrite P6; [by apply Hne|]. intros v1 r1 Hin1. apply (Hr0 v1 r1). by right.
      * rewrite P7, Hc. split.
        -- intros [[Hc0|(loc & Hloc & Hloc')]|(v1 & r1 & Hin1 & Hcase)].
           ++ by left.
           ++ right. exists v, r. split; [left|]. right. exists r'. split; [done|].
              exists loc. split; [by apply elem_of_elements|done].
           ++ right. exists v1, r1. split; [by right|].
              destruct Hcase as [?|(r1' & E1 & loc & Hl & Hl')]; [by left|right].
              destruct (Hfresh v1 r1 Hin1) as [Hr1 Hf].
              exists r1'. split; [done|]. exists loc.
              rewrite Hne in Hl by done. rewrite Hne in Hl' by by apply Hf. done.
        -- intros [Hc0|(v1 & r1 & Hin1 & Hcase)]; [left; by left|].
           apply elem_of_cons in Hin1 as [Heq|Hin1].
           ++ inversion Heq; subst. left. right.
              destruct Hcase as [?|(r1' & E1 & loc & Hl & Hl')]; [congruence|].
              assert (r1' = r') as -> by congruence.
              exists loc. split; [by apply elem_of_elements|done].
           ++ right. exists v1, r1. split; [done|].
              destruct Hcase as [?|(r1' & E1 & loc & Hl & Hl')]; [by left|right].
              destruct (Hfresh v1 r1 Hin1) as [Hr1 Hf].
              exists r1'. split; [done|]. exists loc.
              rewrite Hne by done. rewrite Hne by by apply Hf. done.
    + rewrite merge_var_absent by done.
      destruct (IH (<[v := r]> D) H true) as (P1 & P2 & P3 & P4 & P5 & P6 & P7); try done.
      { intros v0 r0. destruct (decide (v0 = v)) as [->|Hn].
        - rewrite lookup_insert_eq. intros [= <-]. apply Hol. left.
        - rewrite lookup_insert_ne by done. apply HoD. }
      { intros ?? Hin. apply Hol. by right. }
      { intros v0 r0. destruct (decide (v0 = v)) as [->|Hn].
        - rewrite lookup_insert_eq. intros [= <-]. apply (Hwl v). left.
        - rewrite lookup_insert_ne by done. apply HwD. }
      { intros v0 r0 Hin. apply (Hwl v0 r0). by right. }
      unfold merge_post. split_and!.
      * done.
      * intros v0 r0' E0. apply P2. rewrite lookup_insert_ne; [done|]. intros ->; congruence.
      * intros v0 r0 E0 Hin. apply elem_of_cons in Hin as [Heq|Hin].
        -- inversion Heq; subst. apply P2. by rewrite lookup_insert_eq.
        -- apply P3; [|done]. rewrite lookup_insert_ne; [done|]. intros ->. by apply (Hvl r0).
      * intros v0 E0 Hn. rewrite fmap_cons in Hn. apply not_elem_of_cons in Hn as [Hn0 Hn].
        simpl in Hn0. apply P4; [|done]. by rewrite lookup_insert_ne.
      * intros v0 r0 r0' E0 Hin.
        apply elem_of_cons in Hin as [Heq|Hin]; [inversion Heq; subst; congruence|].
        apply (P5 v0 r0 r0'); [|done]. rewrite lookup_insert_ne; [done|]. intros ->; congruence.
      * intros r0 Hr0. apply P6. intros v1 r1 Hin1 E1.
        destruct (decide (v1 = v)) as [->|Hn]; [by apply (Hvl r1)|].
        rewrite lookup_insert_ne in E1 by done. apply (Hr0 v1 r1); [by right|done].
      * rewrite P7. split; [|intros _; by left].
        intros _. right. exists v, r. split; [left|by left].
Qed.

(** C5: merging [new_defs] into the stored snapshot [defs] of the successor.
    For a variable of [new_defs] that the snapshot does not have, the snapshot
    gets the new set; for one that it has, the stored set becomes its union
    with the new set (the code locations it did not hold are added); the
    entries of the other variables are what they were.  The flag is set exactly
    when some variable of [new_defs] was absent from the snapshot or brought a
    code location that the stored set did not hold. *)
Theorem merge_defs_spec owner defs h new_defs :
  owned owner defs → owned owner new_defs →
  wf_defs h defs → wf_defs h new_defs →
  let R := merge_defs defs h new_defs in
  (∀ var new,
     defs_of h new_defs var = Some new →
     match defs_of h defs var with
     | None => defs_of R.1.2 R.1.1 var = Some new
     | Some old => defs_of R.1.2 R.1.1 var = Some (old ∪ new)
     end) ∧
  (∀ var, defs_of h new_defs var = None →
          defs_of R.1.2 R.1.1 var = defs_of h defs var) ∧
  (R.2 = true ↔
   ∃ var new,
     defs_of h new_defs var = Some new ∧
     match defs_of h defs var with
     | None => True
     | Some old => ∃ code_loc, code_loc ∈ new ∧ code_loc ∉ old
     end).
Proof.
  intros HoD HoN HwD HwN R. subst R. unfold merge_defs.
  destruct (merge_fold owner (map_to_list new_defs) defs h false)
    as (P1 & P2 & P3 & P4 & P5 & P6 & P7).
  { apply NoDup_fst_map_to_list. }
  { done. }
  { intros v r Hin. apply elem_of_map_to_list in Hin. by apply HoN. }
  { done. }
  { intros v r Hin. apply elem_of_map_to_list in Hin. by eapply HwN. }
  set (R := foldl merge_var (defs, h, false) (map_to_list new_defs)) in *.
  unfold defs_of. split_and!.
  - intros var new Hnew. destruct (new_defs !! var) as [r|] eqn:EN; [|done].
    simpl in Hnew. inversion Hnew; subst; clear Hnew.
    assert ((var, r) ∈ map_to_list new_defs) as Hin by by apply elem_of_map_to_list.
    destruct (defs !! var) as [r'|] eqn:ED; simpl.
    + rewrite (P2 var r') by done. simpl. f_equal. by apply (P5 var).
    + rewrite (P3 var r) by done. simpl. f_equal. apply P6.
      intros v1 r1 Hin1 E1. apply elem_of_map_to_list in Hin1.
      assert (v1 = var) as -> by (rewrite <- (HoD _ _ E1); by apply HoN). congruence.
  - intros var Hnone. destruct (new_defs !! var) as [r|] eqn:EN; [done|].
    assert (var ∉ (map_to_list new_defs).*1) as Hnin.
    { intros Hin. apply list_elem_of_fmap in Hin as ([v r] & -> & Hin).
      apply elem_of_map_to_list in Hin. simpl in EN. congruence. }
    destruct (defs !! var) as [r'|] eqn:ED; simpl.
    + rewrite (P2 var r') by done. simpl. f_equal. apply P6.
      intros v1 r1 Hin1 E1. apply elem_of_map_to_list in Hin1.
      assert (v1 = var) as -> by (rewrite <- (HoD _ _ E1); by apply HoD). congruence.
    + by rewrite P4.
  - rewrite P7. split.
    + intros [?|(v & r & Hin & Hcase)]; [done|]. apply elem_of_map_to_list in Hin.
      exists v, (deref h r). rewrite Hin. split; [done|].
      destruct Hcase as [->|(r' & -> & Hloc)]; simpl; done.
    + intros (var & new & Hnew & Hcase). right.
      destruct (new_defs !! var) as [r|] eqn:EN; [|done].
      simpl in Hnew. inversion Hnew; subst; clear Hnew.
      exists var, r. split; [by apply elem_of_map_to_list|].
      destruct (defs !! var) as [r'|] eqn:ED; [right|by left]. by exists r'.
Qed.

Lemma merge_defs_spec_witness :
  let h : heap := [{[Demo.loc 0x1000 2]}; {[Demo.loc 0x1000 2; Demo.loc 0x1400 7]};
                   {[Demo.loc 0x1000 5]}] in
  let defs : live_defs_t := {[SimRegisterVariable 16 32 := 0%nat]} in
  let new_defs : live_defs_t :=
    <[SimRegisterVariable 16 32 := 1%nat]> {[SimRegisterVariable 24 32 := 2%nat]} in
  let R := merge_defs defs h new_defs in
  (∀ var new,
     defs_of h new_defs var = Some new →
     match defs_of h defs var with
     | None => defs_of R.1.2 R.1.1 var = Some new
     | Some old => defs_of R.1.2 R.1.1 var = Some (old ∪ new)
     end) ∧
  (∀ var, defs_of h new_defs var = None →
          defs_of R.1.2 R.1.1 var = defs_of h defs var) ∧
  (R.2 = true ↔
   ∃ var new,
     defs_of h new_defs var = Some new ∧
     match defs_of h defs var with
     | None => True
     | Some old => ∃ code_loc, code_loc ∈ new ∧ code_loc ∉ old
     end).
Proof.
  intros h defs new_defs.
  apply (merge_defs_spec
           (λ r, if decide (r = 2%nat) then SimRegisterVariable 24 32
                 else SimRegisterVariable 16 32) defs h new_defs).
  - intros v r Hv. apply lookup_singleton_Some in Hv as [<- <-]. reflexivity.
  - intros v r Hv. apply lookup_insert_Some in Hv as [[<- <-]|[_ Hv]]; [reflexivity|].
    apply lookup_singleton_Some in Hv as [<- <-]. reflexivity.
  - intros v r Hv. apply lookup_singleton_Some in Hv as [_ <-]. simpl. lia.
  - intros v r Hv. apply lookup_insert_Some in Hv as [[_ <-]|[_ Hv]]; [simpl; lia|].
    apply lookup_singleton_Some in Hv as [_ <-]. simpl. lia.
Defined.

(** ** An entry address without a node *)

Lemma construct_step_Ok_or_KeyError keep_data cfg σ :
  (∃ σ', construct_step keep_data cfg σ = Ok σ') ∨
  construct_step keep_data cfg σ = Err KeyError.
Proof.
  unfold construct_step. destruct (worklist σ) as [|node worklist']; [by eauto|].
  destruct (decide _); [|by right].
  match goal with |- context [for_each ?body ?l ?s] =>
    destruct (for_each_Ok_or_Err body KeyError (λ _, True) l s I) as [(σ' & H & _)|H]
  end; [|by eauto|by right].
  intros s1 x _ _.
  destruct (process_state_Ok_or_KeyError keep_data cfg node s1 x) as [[s2 H]|H];
    [left; by eauto|by right].
Qed.

(** The only exception the loop can end with is a [KeyError]. *)
Lemma construct_loop_only_KeyError fuel keep_data cfg σ e :
  construct_loop fuel keep_data cfg σ = Some (Err e) → e = KeyError.
Proof.
  revert σ. induction fuel as [|fuel IH]; intros σ H; simpl in H.
  - by destruct (worklist σ).
  - destruct (worklist σ); [done|].
    destruct (construct_step_Ok_or_KeyError keep_data cfg σ) as [[σ' H']|H'];
      rewrite H' in H; [by eapply IH|congruence].
Qed.

(** The worklist and the edges of the graph at the end of a run. *)
Definition run_view (r : option (res ddg_state))
  : option (res (list nat * list (CodeLocation * CodeLocation))) :=
  res_map (λ σ, (worklist σ, edge_key <$> ddg_graph σ)) <$> r.

(** C6, as the code has it: [_construct] does not test the node that the
    lookup of the entry address yields.  When there is no such node the
    worklist is the depth-first search tree over every node of the CFG, the
    loop runs from there, and a run that ends with an exception ends with the
    [KeyError] of the loop, never with an error about the entry address. *)
Theorem construct_without_entry_node fuel keep_data cfg start :
  get_any_node cfg start = None →
  _construct fuel keep_data cfg start
  = construct_loop fuel keep_data cfg
      (mkDDG (map_to_list (dfs_successors cfg None)).*1
             (list_to_set (map_to_list (dfs_successors cfg None)).*1) ∅ [] []) ∧
  ∀ e, _construct fuel keep_data cfg start = Some (Err e) → e = KeyError.
Proof.
  intros Hnone. split.
  - unfold _construct, construct_init. by rewrite Hnone.
  - intros e. apply construct_loop_only_KeyError.
Qed.

Lemma construct_without_entry_node_witness :
  _construct 10 false Demo.chain 0x5000
  = construct_loop 10 false Demo.chain
      (mkDDG (map_to_list (dfs_successors Demo.chain None)).*1
             (list_to_set (map_to_list (dfs_successors Demo.chain None)).*1) ∅ [] []) ∧
  ∀ e, _construct 10 false Demo.chain 0x5000 = Some (Err e) → e = KeyError.
Proof.
  apply (construct_without_entry_node 10 false Demo.chain 0x5000).
  vm_compute; reflexivity.
Defined.

(** No node of the chain has the address 0x5000: construction returns, with
    an empty graph or with the edge of the register dependence, as the order
    of the nodes in the CFG has it. *)
Lemma construct_without_entry_node_returns :
  get_any_node Demo.chain 0x5000 = None ∧
  run_view (_construct 10 false Demo.chain 0x5000) = Some (Ok ([], [])) ∧
  get_any_node Demo.reversed_chain 0x5000 = None ∧
  run_view (_construct 10 false Demo.reversed_chain 0x5000)
  = Some (Ok ([], [(Demo.loc 0x1000 2, Demo.loc 0x2000 0)])).
Proof. by_evaluation. Qed.

(** ** Termination of the worklist loop *)

(** The number of elements of [U] that [f] does not hold of. *)
Fixpoint missing {A} (f : A → bool) (U : list A) : nat :=
  match U with
  | [] => 0
  | t :: U => ((if f t then 0 else 1) + missing f U)%nat
  end.

Lemma missing_le_length {A} (f : A → bool) U : (missing f U ≤ length U)%nat.
Proof. induction U as [|t U IH]; simpl; [lia|]. destruct (f t); lia. Qed.

Lemma missing_mono {A} (f g : A → bool) U :
  (∀ t, t ∈ U → f t = true → g t = true) → (missing g U ≤ missing f U)%nat.
Proof.
  induction U as [|t U IH]; intros Hfg; simpl; [lia|].
  assert (missing g U ≤ missing f U)%nat as HU.
  { apply IH. intros t' Hin. apply Hfg. by right. }
  destruct (f t) eqn:Ef; [rewrite (Hfg t) by (done || left); lia|].
  destruct (g t); lia.
Qed.

Lemma missing_strict {A} (f g : A → bool) U t0 :
  (∀ t, t ∈ U → f t = true → g t = true) →
  t0 ∈ U → f t0 = false → g t0 = true →
  (missing g U < missing f U)%nat.
Proof.
  induction U as [|t U IH]; intros Hfg Hin Hf Hg; [by apply elem_of_nil in Hin|].
  assert (missing g U ≤ missing f U)%nat as HU.
  { apply missing_mono. intros t' Hin'. apply Hfg. by right. }
  simpl. apply elem_of_cons in Hin as [<-|Hin].
  - rewrite Hf, Hg. lia.
  - assert (missing g U < missing f U)%nat.
    { apply IH; [|done..]. intros t' Hin'. apply Hfg. by right. }
    destruct (f t) eqn:Ef; [rewrite (Hfg t) by (done || left); lia|].
    destruct (g t); lia.
Qed.

(** The variables that the replay of an action kills. *)
Definition kills (a : SimAction) : list SimVariable :=
  match a_type a with
  | T_mem =>
      if decide (a_action a = A_write)
      then (λ addr, SimMemoryVariable addr (obj_size (a_data a))) <$> addr_list a
      else []
  | T_reg =>
      if decide (a_action a = A_read) then []
      else [SimRegisterVariable (a_offset a) (obj_size (a_data a))]
  | _ => []
  end.

(** One fact that a snapshot can hold: the node has an entry for the variable
    ([None]), or the set of the variable holds the code location. *)
Abbreviation fact := (nat * SimVariable * option CodeLocation)%type.

Definition has_var (d : live_defs_t) (h : heap) (v : SimVariable) (x : option CodeLocation)
  : bool :=
  match d !! v with
  | None => false
  | Some r =>
      match x with
      | None => true
      | Some code_loc => bool_decide (code_loc ∈ deref h r)
      end
  end.

Definition has_fact (lpn : gmap nat live_defs_t) (h : heap) (t : fact) : bool :=
  has_var (default ∅ (lpn !! t.1.1)) h t.1.2 t.2.

(** The nodes the loop can reach from the worklist [worklist0], the actions of
    their final states, the variables these kill and their code locations. *)
Definition all_nodes (cfg : CFG) (worklist0 : list nat) : list nat :=
  worklist0 ++ mjoin (map_to_list (cfg_graph cfg)).*2.

Definition all_actions (cfg : CFG) (nodes : list nat) : list SimAction :=
  n ← nodes; state ← final_states (cfg_node cfg n); actions state.

Definition all_vars (cfg : CFG) (nodes : list nat) : list SimVariable :=
  a ← all_actions cfg nodes; kills a.

Definition all_locs (cfg : CFG) (nodes : list nat) : list CodeLocation :=
  code_loc_of <$> all_actions cfg nodes.

Definition all_facts (nodes : list nat) (vars : list SimVariable) (locs : list CodeLocation)
  : list fact :=
  n ← nodes; v ← vars; x ← None :: (Some <$> locs); [(n, v, x)].

(** A number of iterations that is enough for [_construct]. *)
Definition construct_fuel (cfg : CFG) (start : Z) : nat :=
  let worklist0 := worklist (construct_init cfg (get_any_node cfg start)) in
  let nodes := all_nodes cfg worklist0 in
  S (length worklist0
     + length (all_facts nodes (all_vars cfg nodes) (all_locs cfg nodes))).

Section termination.
Variable cfg : CFG.
Variable nodes : list nat.
Variable vars : list SimVariable.
Variable locs : list CodeLocation.
Hypothesis nodes_successors : ∀ n s, s ∈ successors cfg n → s ∈ nodes.
Hypothesis nodes_kills : ∀ n state a v,
    n ∈ nodes → state ∈ final_states (cfg_node cfg n) → a ∈ actions state →
    v ∈ kills a → v ∈ vars ∧ code_loc_of a ∈ locs.

(** The dictionary refers to allocated sets, for variables of [vars]. *)
Definition store_ok (h : heap) (d : live_defs_t) : Prop :=
  ∀ v r, d !! v = Some r → v ∈ vars ∧ (r < length h)%nat.

(** The sets hold code locations of [locs]. *)
Definition heap_ok (h : heap) : Prop :=
  ∀ r s code_loc, h !! r = Some s → code_loc ∈ s → code_loc ∈ locs.

Definition track_store_ok (h0 : heap) (st : track_state) : Prop :=
  (∃ new, ts_heap st = h0 ++ new) ∧
  store_ok (ts_heap st) (ts_live_defs st) ∧ heap_ok (ts_heap st).

Lemma kill_store_ok h0 h d v code_loc :
  v ∈ vars → code_loc ∈ locs →
  (∃ new, h = h0 ++ new) → store_ok h d → heap_ok h →
  (∃ new, (_kill h d v code_loc).1 = h0 ++ new) ∧
  store_ok (_kill h d v code_loc).1 (_kill h d v code_loc).2 ∧
  heap_ok (_kill h d v code_loc).1.
Proof.
  intros Hv Hloc [new Hnew] Hd Hh. unfold _kill; simpl. split_and!.
  - exists (new ++ [{[code_loc]}]). by rewrite Hnew, app_assoc.
  - intros v0 r0. rewrite length_app. simpl. destruct (decide (v0 = v)) as [->|Hne].
    + rewrite lookup_insert_eq. intros [= <-]. split; [done|lia].
    + rewrite lookup_insert_ne by done. intros H0.
      destruct (Hd v0 r0 H0) as [? ?]. split; [done|lia].
  - intros r s l Hr Hl. apply lookup_app_Some in Hr as [Hr|[_ Hr]]; [by eapply Hh|].
    apply list_lookup_singleton_Some in Hr as [_ <-].
    apply elem_of_singleton in Hl. by subst.
Qed.

Lemma track_mem_store_ok h0 keep_data a st addr st' :
  (∀ v, v ∈ kills a → v ∈ vars ∧ code_loc_of a ∈ locs) →
  a_type a = T_mem → addr ∈ addr_list a →
  track_store_ok h0 st → track_mem keep_data a (code_loc_of a) st addr = Ok st' →
  track_store_ok h0 st'.
Proof.
  intros Hk Hty Haddr (Hnew & Hd & Hh) H. unfold track_mem in H.
  bind_inv H. bind_inv H. bind_inv H. bind_inv H. bind_inv H.
  inversion H; subst; clear H. unfold track_store_ok; simpl.
  destruct (decide (a_action a = A_write)) as [Hw|Hw]; [|done].
  apply kill_store_ok; try done.
  - apply Hk. unfold kills. rewrite Hty, decide_True by done.
    apply list_elem_of_fmap. by exists addr.
  - apply (Hk (SimMemoryVariable addr (obj_size (a_data a)))).
    unfold kills. rewrite Hty, decide_True by done.
    apply list_elem_of_fmap. by exists addr.
Qed.

Lemma track_action_store_ok h0 keep_data a st st' :
  (∀ v, v ∈ kills a → v ∈ vars ∧ code_loc_of a ∈ locs) →
  track_store_ok h0 st → track_action keep_data st a = Ok st' → track_store_ok h0 st'.
Proof.
  intros Hk Hst H. unfold track_action in H. destruct (a_type a) eqn:Hty.
  - revert H. apply (for_each_ind _ (track_store_ok h0)); [done|].
    intros s1 addr s2 Haddr Hs1. by apply track_mem_store_ok.
  - unfold track_reg in H. destruct (decide (a_action a = A_read)) as [Hrd|Hrd].
    + bind_inv H. by inversion H; subst.
    + inversion H; subst; clear H. destruct Hst as (Hnew & Hd & Hh).
      unfold track_store_ok; simpl.
      assert (SimRegisterVariable (a_offset a) (obj_size (a_data a)) ∈ kills a) as Hin.
      { unfold kills. rewrite Hty, decide_False by done. left. }
      apply kill_store_ok; try done; by apply (Hk _ Hin).
  - unfold track_tmp in H. destruct (decide _).
    + unfold queue_tmp_edge in H. destruct (ts_temps st !! a_tmp a); [|done].
      by inversion H; subst.
    + by inversion H; subst.
  - revert H. apply (for_each_ind _ (track_store_ok h0)); [done|].
    intros s1 tmp s2 _ Hs1 H. unfold queue_tmp_edge in H.
    destruct (ts_temps s1 !! tmp); [|done]. by inversion H; subst.
  - by inversion H; subst.
Qed.

Lemma track_store keep_data h g state live_defs h' g' new_defs :
  (∀ a v, a ∈ actions state → v ∈ kills a → v ∈ vars ∧ code_loc_of a ∈ locs) →
  store_ok h live_defs → heap_ok h →
  _track keep_data h g state live_defs = Ok (h', g', new_defs) →
  (∃ new, h' = h ++ new) ∧ store_ok h' new_defs ∧ heap_ok h'.
Proof.
  intros Hk Hd Hh H. unfold _track in H. bind_inv H. inversion H; subst; clear H.
  assert (track_store_ok h x) as Hst; [|exact Hst].
  revert Hx. unfold track_loop. apply (for_each_ind _ (track_store_ok h)).
  - split_and!; [exists []; by rewrite app_nil_r|done..].
  - intros s1 a s2 Ha Hs1. apply track_action_store_ok; [|done]. intros v. by apply Hk.
Qed.

Lemma heap_ok_deref h r code_loc : heap_ok h → code_loc ∈ deref h r → code_loc ∈ locs.
Proof.
  intros Hh Hin. unfold deref in Hin. destruct (h !! r) as [s|] eqn:E; simpl in Hin.
  - by eapply Hh.
  - by apply elem_of_empty in Hin.
Qed.

Lemma heap_ok_intro h : (∀ r code_loc, code_loc ∈ deref h r → code_loc ∈ locs) → heap_ok h.
Proof. intros Hh r s l Hr Hl. apply (Hh r). unfold deref. by rewrite Hr. Qed.

(** The dictionary keeps its entries and the sets keep their elements. *)
Definition grows (D : live_defs_t) (H : heap) (D' : live_defs_t) (H' : heap) : Prop :=
  length H' = length H ∧
  (∀ v r, D !! v = Some r → D' !! v = Some r) ∧
  (∀ r code_loc, code_loc ∈ deref H r → code_loc ∈ deref H' r).

Lemma grows_refl D H : grows D H D H.
Proof. by split_and!. Qed.

Lemma grows_trans D1 H1 D2 H2 D3 H3 :
  grows D1 H1 D2 H2 → grows D2 H2 D3 H3 → grows D1 H1 D3 H3.
Proof.
  intros (L1 & A1 & B1) (L2 & A2 & B2). split_and!; [congruence|by eauto..].
Qed.

Lemma has_var_grows D H D' H' v x :
  grows D H D' H' → has_var D H v x = true → has_var D' H' v x = true.
Proof.
  intros (_ & HD & HH). unfold has_var. destruct (D !! v) as [r|] eqn:E; [|done].
  rewrite (HD v r E). destruct x as [code_loc|]; [|done].
  rewrite !bool_decide_eq_true. apply HH.
Qed.

Lemma merge_var_step D H c v r :
  store_ok H D → heap_ok H → v ∈ vars → (r < length H)%nat →
  let R := merge_var (D, H, c) (v, r) in
  grows D H R.1.1 R.1.2 ∧ store_ok R.1.2 R.1.1 ∧ heap_ok R.1.2 ∧
  (c = true → R.2 = true) ∧
  (R.2 = true →
   c = true ∨ ∃ x, has_var D H v x = false ∧ has_var R.1.1 R.1.2 v x = true).
Proof.
  intros Hd Hh Hv Hr R. subst R. destruct (D !! v) as [r'|] eqn:EDv.
  - rewrite (merge_var_present _ _ _ _ _ r') by done.
    destruct (Hd v r' EDv) as [_ Hr'].
    destruct (merge_code_locs r' (elements (deref H r)) H c Hr') as (Hlen & Hu & Hne & Hc).
    rewrite list_to_set_elements_L in Hu.
    set (H1 := (foldl (merge_code_loc r') (H, c) (elements (deref H r))).1) in *.
    set (c1 := (foldl (merge_code_loc r') (H, c) (elements (deref H r))).2) in *.
    simpl.
    assert (∀ r0 code_loc, code_loc ∈ deref H r0 → code_loc ∈ deref H1 r0) as Hmono.
    { intros r0 l Hl. destruct (decide (r0 = r')) as [->|Hn].
      - rewrite Hu. apply elem_of_union. by left.
      - by rewrite Hne. }
    split_and!.
    + by split_and!.
    + intros v0 r0 E0. rewrite Hlen. by apply Hd.
    + apply heap_ok_intro. intros r0 l Hl. destruct (decide (r0 = r')) as [->|Hn].
      * rewrite Hu in Hl. apply elem_of_union in Hl as [Hl|Hl]; by eapply heap_ok_deref.
      * rewrite Hne in Hl by done. by eapply heap_ok_deref.
    + intros ->. apply Hc. by left.
    + intros Hc1. apply Hc in Hc1 as [?|(l & Hl & Hl')]; [by left|right].
      exists (Some l). unfold has_var. rewrite EDv. split.
      * by apply bool_decide_eq_false.
      * apply bool_decide_eq_true. rewrite Hu. apply elem_of_union. right.
        by apply elem_of_elements.
  - rewrite merge_var_absent by done. simpl. split_and!.
    + split_and!; [done| |done]. intros v0 r0 E0. rewrite lookup_insert_ne; [done|].
      intros ->. congruence.
    + intros v0 r0. destruct (decide (v0 = v)) as [->|Hn].
      * rewrite lookup_insert_eq. by intros [= <-].
      * rewrite lookup_insert_ne by done. apply Hd.
    + done.
    + done.
    + intros _. right. exists None. unfold has_var. by rewrite EDv, lookup_insert_eq.
Qed.

Lemma merge_fold_grows l : ∀ D H c,
  store_ok H D → heap_ok H →
  (∀ v r, (v, r) ∈ l → v ∈ vars ∧ (r < length H)%nat) →
  let R := foldl merge_var (D, H, c) l in
  grows D H R.1.1 R.1.2 ∧ store_ok R.1.2 R.1.1 ∧ heap_ok R.1.2 ∧
  (c = true → R.2 = true) ∧
  (R.2 = true →
   c = true ∨ ∃ v x, v ∈ vars ∧ has_var D H v x = false ∧ has_var R.1.1 R.1.2 v x = true).
Proof.
  induction l as [|[v r] l IH]; intros D H c Hd Hh Hl R; subst R.
  - simpl. split_and!; [apply grows_refl|done..|by left].
  - change (foldl merge_var (D, H, c) ((v, r) :: l))
      with (foldl merge_var (merge_var (D, H, c) (v, r)) l).
    destruct (Hl v r) as [Hv Hr]; [left|].
    destruct (merge_var_step D H c v r Hd Hh Hv Hr) as (G1 & S1 & K1 & C1 & N1).
    destruct (merge_var (D, H, c) (v, r)) as [[D1 H1] c1]. simpl in *.
    destruct (IH D1 H1 c1 S1 K1) as (G2 & S2 & K2 & C2 & N2).
    { intros v0 r0 Hin. destruct G1 as [-> _]. apply Hl. by right. }
    split_and!.
    + by eapply grows_trans.
    + done.
    + done.
    + intros Hc. by apply C2, C1.
    + intros HR. apply N2 in HR as [Hc1|(v0 & x & Hv0 & Hf & Ht)].
      * apply N1 in Hc1 as [?|(x & Hf & Ht)]; [by left|right].
        exists v, x. split_and!; [done..|]. by eapply has_var_grows.
      * right. exists v0, x. split_and!; [done| |done].
        destruct (has_var D H v0 x) eqn:E; [|done].
        apply (has_var_grows _ _ D1 H1) in E; [congruence|done].
Qed.

Lemma elem_of_all_facts n v x :
  n ∈ nodes → v ∈ vars → (∀ code_loc, x = Some code_loc → code_loc ∈ locs) →
  (n, v, x) ∈ all_facts nodes vars locs.
Proof.
  intros Hn Hv Hx. unfold all_facts.
  apply list_elem_of_bind. exists n. split; [|done].
  apply list_elem_of_bind. exists v. split; [|done].
  apply list_elem_of_bind. exists x. split; [left|].
  destruct x as [code_loc|]; [right|left].
  apply list_elem_of_fmap. exists code_loc. split; [done|]. by apply Hx.
Qed.

(** What the loop keeps: the worklist holds nodes of [nodes], the snapshots
    refer to allocated sets for variables of [vars], the sets hold code
    locations of [locs]. *)
Definition loop_ok (σ : ddg_state) : Prop :=
  (∀ n, n ∈ worklist σ → n ∈ nodes) ∧
  (∀ n d, live_defs_per_node σ !! n = Some d → store_ok (ddg_heap σ) d) ∧
  heap_ok (ddg_heap σ).

(** The queued nodes, and the facts that no snapshot holds yet. *)
Definition loop_measure (σ : ddg_state) : nat :=
  (length (worklist σ)
   + missing (has_fact (live_defs_per_node σ) (ddg_heap σ)) (all_facts nodes vars locs))%nat.

Lemma store_ok_default h (lpn : gmap nat live_defs_t) n :
  (∀ n d, lpn !! n = Some d → store_ok h d) → store_ok h (default ∅ (lpn !! n)).
Proof.
  intros Hl. destruct (lpn !! n) as [d|] eqn:E; simpl; [by eapply Hl|].
  intros v r H. by rewrite lookup_empty in H.
Qed.

Lemma store_ok_longer h h' d :
  (length h ≤ length h')%nat → store_ok h d → store_ok h' d.
Proof. intros Hlen Hd v r E. destruct (Hd v r E). split; [done|lia]. Qed.

Lemma has_var_app d h new v x :
  store_ok h d → has_var d h v x = true → has_var d (h ++ new) v x = true.
Proof.
  intros Hd. unfold has_var. destruct (d !! v) as [r|] eqn:E; [|done].
  destruct x as [code_loc|]; [|done]. destruct (Hd v r E) as [_ Hr].
  by rewrite deref_app_l.
Qed.

Lemma requeue_queue successing_node (q : queue) :
  let q' := requeue cfg successing_node q in
  (length q'.1 ≤ S (length q.1))%nat ∧
  ∀ n, n ∈ q'.1 → n ∈ q.1 ∨ n = successing_node.
Proof.
  simpl. rewrite requeue_spec. destruct (decide _) as [Hq|Hq]; simpl.
  - rewrite length_app. simpl. split; [lia|].
    intros n Hn. apply elem_of_app in Hn as [?|Hn]; [by left|right].
    by apply list_elem_of_singleton in Hn.
  - split; [lia|]. intros n Hn. by left.
Qed.

(** Processing one final state keeps the invariant and does not increase the
    measure: a merge that changes the snapshot of the successor queues at most
    the successor and makes a new fact hold. *)
Lemma process_state_measure keep_data node σ state σ' :
  node ∈ nodes → state ∈ final_states (cfg_node cfg node) →
  loop_ok σ → process_state keep_data cfg node σ state = Ok σ' →
  loop_ok σ' ∧ (loop_measure σ' ≤ loop_measure σ)%nat.
Proof.
  intros Hnode Hstate (Hwl & Hlpn & Hheap) H. unfold process_state in H.
  destruct (_ && _); [inversion H; subst; by split_and!|].
  destruct (filter _ _) as [|successing_node rest] eqn:Hf;
    [inversion H; subst; by split_and!|].
  assert (successing_node ∈ nodes) as Hsucc.
  { apply (nodes_successors node).
    assert (successing_node ∈ successing_node :: rest) as Hin by left.
    rewrite <- Hf in Hin. by apply list_elem_of_filter in Hin as [_ Hin]. }
  bind_inv H. destruct x as [[h1 g1] new_defs].
  apply track_store in Hx as ([new ->] & Hnd & Hh1); [| |by apply store_ok_default|done].
  2:{ intros a v Ha Hv. by apply (nodes_kills node state). }
  set (D := default ∅ (live_defs_per_node σ !! successing_node)) in *.
  assert (store_ok (ddg_heap σ) D) as HD by by apply store_ok_default.
  assert (store_ok (ddg_heap σ ++ new) D) as HD1.
  { eapply store_ok_longer; [|done]. rewrite length_app. lia. }
  destruct (merge_fold_grows (map_to_list new_defs) D (ddg_heap σ ++ new) false HD1 Hh1)
    as (G & S2 & K2 & _ & N).
  { intros v r Hin. apply elem_of_map_to_list in Hin. by apply Hnd. }
  unfold merge_defs in H.
  destruct (foldl merge_var (D, ddg_heap σ ++ new, false) (map_to_list new_defs))
    as [[D' h2] changed].
  simpl in G, S2, K2, N. inversion H; subst σ'; clear H.
  assert (length (ddg_heap σ) ≤ length h2)%nat as Hlen.
  { destruct G as [-> _]. rewrite length_app. lia. }
  assert (∀ t, has_fact (live_defs_per_node σ) (ddg_heap σ) t = true →
               has_fact (<[successing_node := D']> (live_defs_per_node σ)) h2 t = true)
    as Hmono.
  { intros [[n v] x]. unfold has_fact; simpl. intros Ht.
    destruct (decide (n = successing_node)) as [->|Hn].
    - rewrite lookup_insert_eq. simpl. apply (has_var_grows D (ddg_heap σ ++ new)); [done|].
      by apply has_var_app.
    - rewrite lookup_insert_ne by done.
      apply (has_var_grows (default ∅ (live_defs_per_node σ !! n)) (ddg_heap σ ++ new)).
      + destruct G as (G1 & _ & G3). by split_and!.
      + apply has_var_app; [|done]. by apply store_ok_default. }
  split.
  - split_and!; simpl.
    + intros n Hn. destruct changed; [|by apply Hwl].
      destruct (requeue_queue successing_node (worklist σ, worklist_set σ)) as [_ Hq].
      destruct (Hq n Hn) as [?| ->]; [by apply Hwl|done].
    + intros n d. destruct (decide (n = successing_node)) as [->|Hn].
      * rewrite lookup_insert_eq. by intros [= <-].
      * rewrite lookup_insert_ne by done. intros E.
        eapply store_ok_longer; [done|]. by eapply Hlpn.
    + done.
  - unfold loop_measure; simpl. destruct changed.
    + destruct (requeue_queue successing_node (worklist σ, worklist_set σ)) as [Hq _].
      simpl in Hq.
      destruct N as [?|(v & x & Hv & Hfalse & Htrue)]; [done..|].
      assert (missing (has_fact (<[successing_node := D']> (live_defs_per_node σ)) h2)
                (all_facts nodes vars locs)
              < missing (has_fact (live_defs_per_node σ) (ddg_heap σ))
                  (all_facts nodes vars locs))%nat; [|lia].
      apply (missing_strict _ _ _ (successing_node, v, x)).
      * intros t _. apply Hmono.
      * apply elem_of_all_facts; [done..|]. intros code_loc ->.
        unfold has_var in Htrue. destruct (D' !! v) as [r|]; [|done].
        apply bool_decide_eq_true in Htrue. by eapply heap_ok_deref.
      * unfold has_fact; simpl. fold D.
        destruct (has_var D (ddg_heap σ) v x) eqn:E; [|done].
        apply (has_var_app _ _ new) in E; [congruence|done].
      * unfold has_fact; simpl. by rewrite lookup_insert_eq.
    + simpl. apply Nat.add_le_mono_l. apply missing_mono. intros t _. apply Hmono.
Qed.

(** One iteration of [while worklist] that returns decreases the measure. *)
Lemma construct_step_measure keep_data σ σ' :
  worklist σ ≠ [] → loop_ok σ → construct_step keep_data cfg σ = Ok σ' →
  loop_ok σ' ∧ (loop_measure σ' < loop_measure σ)%nat.
Proof.
  intros Hne (Hwl & Hlpn & Hheap) H. unfold construct_step in H.
  destruct (worklist σ) as [|node worklist'] eqn:Ewl; [done|].
  destruct (decide _) as [_|_]; [|done].
  set (lpn := match live_defs_per_node σ !! node with
              | Some _ => live_defs_per_node σ
              | None => <[node := ∅]> (live_defs_per_node σ)
              end) in *.
  set (σ1 := mkDDG worklist' (worklist_set σ ∖ {[node]}) lpn (ddg_heap σ) (ddg_graph σ)) in *.
  assert (node ∈ nodes) as Hnode by (apply Hwl; left).
  assert (loop_ok σ1) as Hok1.
  { split_and!; simpl; [|subst lpn|done].
    - intros n Hn. apply Hwl. by right.
    - intros n d. destruct (live_defs_per_node σ !! node) eqn:E; [apply Hlpn|].
      destruct (decide (n = node)) as [->|Hn].
      + rewrite lookup_insert_eq. intros [= <-] v r Hv. by rewrite lookup_empty in Hv.
      + rewrite lookup_insert_ne by done. apply Hlpn. }
  assert (S (loop_measure σ1) ≤ loop_measure σ)%nat as Hm1.
  { unfold loop_measure. rewrite Ewl. simpl.
    apply le_n_S, Nat.add_le_mono_l, missing_mono.
    intros [[n v] x] _. unfold has_fact; simpl. subst lpn.
    destruct (live_defs_per_node σ !! node) eqn:E; [done|].
    destruct (decide (n = node)) as [->|Hn].
    - by rewrite E, lookup_insert_eq.
    - by rewrite lookup_insert_ne. }
  assert (loop_ok σ' ∧ (loop_measure σ' ≤ loop_measure σ1)%nat) as [Hok' Hm']; [|split; [done|lia]].
  revert H.
  apply (for_each_ind _ (λ s, loop_ok s ∧ (loop_measure s ≤ loop_measure σ1)%nat)); [by split|].
  intros s1 state s2 Hstate [Hs1 Hms1] H.
  destruct (process_state_measure keep_data node s1 state s2 Hnode Hstate Hs1 H) as [Hs2 Hms2].
  split; [done|lia].
Qed.

(** With more iterations allowed than the measure, the loop ends: with an
    empty worklist or with an exception. *)
Lemma construct_loop_terminates keep_data fuel : ∀ σ,
  loop_ok σ → (loop_measure σ < fuel)%nat →
  ∃ r, construct_loop fuel keep_data cfg σ = Some r ∧
       ∀ σ', r = Ok σ' → worklist σ' = [] ∧ loop_ok σ'.
Proof.
  induction fuel as [|fuel IH]; intros σ Hok Hm; [lia|].
  simpl. destruct (worklist σ) as [|node worklist'] eqn:Ewl.
  - exists (Ok σ). split; [done|]. by intros σ' [= <-].
  - destruct (construct_step keep_data cfg σ) as [σ1|e] eqn:Hstep.
    + destruct (construct_step_measure keep_data σ σ1) as [Hok1 Hm1]; [by rewrite Ewl|done..|].
      apply IH; [done|lia].
    + exists (Err e). split; [done|]. intros σ' [=].
Qed.
End termination.

(** C3: the worklist loop of [_construct] ends.  With [construct_fuel]
    iterations allowed (the length of the first worklist plus the number of
    facts node/variable/code location that the snapshots can come to hold) the
    run ends, whatever the CFG and its traces are: every iteration takes one
    node from the worklist, a merge queues a node only when it makes a
    snapshot grow, and the sets of the snapshots never lose an element and hold
    code locations of the actions of the CFG only.  A run that ends without an
    exception ends with the worklist empty. *)
Theorem construct_terminates keep_data cfg start :
  ∃ r, _construct (construct_fuel cfg start) keep_data cfg start = Some r ∧
       ∀ σ, r = Ok σ →
            worklist σ = [] ∧
            ∀ n d v ref code_loc,
              live_defs_per_node σ !! n = Some d → d !! v = Some ref →
              code_loc ∈ deref (ddg_heap σ) ref →
              code_loc ∈ all_locs cfg
                (all_nodes cfg (worklist (construct_init cfg (get_any_node cfg start)))).
Proof.
  unfold _construct, construct_fuel.
  set (σ0 := construct_init cfg (get_any_node cfg start)).
  set (nodes := all_nodes cfg (worklist σ0)).
  set (vars := all_vars cfg nodes). set (locs := all_locs cfg nodes).
  destruct (construct_loop_terminates cfg nodes vars locs) with
    (keep_data := keep_data) (σ := σ0)
    (fuel := S (length (worklist σ0) + length (all_facts nodes vars locs)))
    as (r & Hr & Hend).
  - intros n s Hs. unfold successors in Hs.
    destruct (cfg_graph cfg !! n) as [l|] eqn:E; simpl in Hs; [|by apply elem_of_nil in Hs].
    apply elem_of_app. right. apply list_elem_of_join. exists l. split; [done|].
    apply list_elem_of_fmap. exists (n, l). split; [done|]. by apply elem_of_map_to_list.
  - intros n state a v Hn Hstate Ha Hv.
    assert (a ∈ all_actions cfg nodes) as Hall.
    { unfold all_actions. apply list_elem_of_bind. exists n. split; [|done].
      apply list_elem_of_bind. by exists state. }
    split.
    + unfold vars, all_vars. apply list_elem_of_bind. by exists a.
    + unfold locs, all_locs. apply list_elem_of_fmap. by exists a.
  - split_and!.
    + intros n Hn. apply elem_of_app. by left.
    + intros n d Hd. simpl in Hd. by rewrite lookup_empty in Hd.
    + intros ref s code_loc Hs. simpl in Hs. by rewrite lookup_nil in Hs.
  - unfold loop_measure.
    pose proof (missing_le_length (has_fact (live_defs_per_node σ0) (ddg_heap σ0))
                  (all_facts nodes vars locs)). lia.
  - exists r. split; [done|]. intros σ Hσ.
    destruct (Hend σ Hσ) as (Hwl & _ & Hlpn & Hheap). split; [done|].
    intros n d v ref code_loc Hd Hv Hin.
    unfold heap_ok in Hheap. unfold deref in Hin.
    destruct (ddg_heap σ !! ref) as [s|] eqn:E; simpl in Hin;
      [by eapply Hheap | by apply elem_of_empty in Hin].
Qed.

(** * The public interface of the graph *)

(** The nodes of the networkx graph: [DDG] never calls [add_node], so the
    nodes are the end points of the edges. *)
Definition graph_nodes (g : DiGraph) : list CodeLocation :=
  e ← g; [e.1.1; e.1.2].

(** [DDG.__contains__]: [code_location in self.graph]. *)
Definition __contains__ (g : DiGraph) (code_location : CodeLocation) : bool :=
  bool_decide (code_location ∈ graph_nodes g).

(** [DDG.get_predecessors]: [self._graph.predecessors(code_location)], which
    raises [NetworkXError] ([None] here) for a node that is not in the graph.
    networkx lists the predecessors in the order of a dictionary; here they
    come in the order of insertion of their edges. *)
Definition get_predecessors (g : DiGraph) (code_location : CodeLocation)
  : option (list CodeLocation) :=
  if __contains__ g code_location
  then Some ((λ e : edge, e.1.1) <$> filter (λ e : edge, e.1.2 = code_location) g)
  else None.

Lemma elem_of_graph_nodes (g : DiGraph) n :
  n ∈ graph_nodes g ↔ ∃ e : edge, e ∈ g ∧ (n = e.1.1 ∨ n = e.1.2).
Proof.
  unfold graph_nodes. rewrite list_elem_of_bind. split.
  - intros (e & Hn & He). exists e. split; [done|].
    apply elem_of_cons in Hn as [->|Hn]; [by left|].
    apply list_elem_of_singleton in Hn. by right.
  - intros (e & He & [->| ->]); exists e; (split; [|done]); [left|right; left].
Qed.

Lemma elem_of_edge_keys (g : DiGraph) (s t : CodeLocation) :
  (s, t) ∈ edge_key <$> g ↔ ∃ l : labels, ((s, t, l) : edge) ∈ g.
Proof.
  rewrite list_elem_of_fmap. split.
  - intros ([[s' t'] l] & Heq & He). inversion Heq; subst. by exists l.
  - intros (l & He). by exists (s, t, l).
Qed.

(** The predecessors listed are the sources of the edges into the code
    location, and a graph with one edge for each pair lists no source twice. *)
Lemma get_predecessors_spec (g : DiGraph) code_location :
  (get_predecessors g code_location = None ↔ __contains__ g code_location = false) ∧
  (__contains__ g code_location = true ↔
   ∃ e : edge, e ∈ g ∧ (code_location = e.1.1 ∨ code_location = e.1.2)) ∧
  ∀ preds, get_predecessors g code_location = Some preds →
           (∀ s, s ∈ preds ↔ has_edge g s code_location = true) ∧
           (NoDup (edge_key <$> g) → NoDup preds).
Proof.
  unfold get_predecessors. split_and!.
  - by destruct (__contains__ g code_location).
  - unfold __contains__. rewrite bool_decide_eq_true. apply elem_of_graph_nodes.
  - intros preds H. destruct (__contains__ g code_location); [|done].
    inversion H; subst; clear H. split.
    + intros s. rewrite has_edge_true, elem_of_edge_keys, list_elem_of_fmap. split.
      * intros ([[s' t'] l] & -> & He). apply list_elem_of_filter in He as [Ht He].
        simpl in *. subst. by exists l.
      * intros (l & He). exists (s, code_location, l). split; [done|].
        by apply list_elem_of_filter.
    + intros Hnd. induction g as [|[[s t] l] g IH]; [constructor|].
      rewrite fmap_cons in Hnd. apply NoDup_cons in Hnd as [Hnin Hnd].
      rewrite filter_cons. destruct (decide _) as [Ht|Ht]; [|by apply IH].
      simpl in Ht. subst t. rewrite fmap_cons. apply NoDup_cons. split; [|by apply IH].
      intros Hin. apply Hnin. apply list_elem_of_fmap in Hin as ([[s' t'] l'] & Hs & He).
      apply list_elem_of_filter in He as [Ht' He]. simpl in *. subst.
      apply elem_of_edge_keys. by exists l'.
Qed.

(** X2: after [_add_edge] both end points are in the graph, the source is
    among the predecessors of the target, and every code location that was in
    the graph still is. *)
Theorem add_edge_then_lookup g s t l :
  __contains__ (_add_edge g s t l) s = true ∧
  __contains__ (_add_edge g s t l) t = true ∧
  (∃ preds, get_predecessors (_add_edge g s t l) t = Some preds ∧ s ∈ preds) ∧
  ∀ n, __contains__ g n = true → __contains__ (_add_edge g s t l) n = true.
Proof.
  assert (∃ l', (s, t, l') ∈ _add_edge g s t l) as [l' Hin].
  { apply elem_of_edge_keys, has_edge_true, add_edge_has. }
  assert (__contains__ (_add_edge g s t l) t = true) as Ht.
  { apply bool_decide_eq_true, elem_of_graph_nodes. exists (s, t, l'). split; [done|by right]. }
  split_and!.
  - apply bool_decide_eq_true, elem_of_graph_nodes. exists (s, t, l'). split; [done|by left].
  - done.
  - unfold get_predecessors. rewrite Ht. eexists. split; [done|].
    apply list_elem_of_fmap. exists (s, t, l'). split; [done|]. by apply list_elem_of_filter.
  - intros n Hn. apply bool_decide_eq_true in Hn. apply bool_decide_eq_true.
    apply elem_of_graph_nodes in Hn as (e & He & Hn). apply elem_of_graph_nodes.
    exists e. split; [|done]. destruct (add_edge_prefix g s t l) as [new ->].
    apply elem_of_app. by left.
Qed.

(** * The definitions that leave a block *)

(** The last action of the list that kills [v]. *)
Fixpoint last_kill (v : SimVariable) (acts : list SimAction) : option SimAction :=
  match acts with
  | [] => None
  | a :: acts =>
      match last_kill v acts with
      | Some a' => Some a'
      | None => if decide (v ∈ kills a) then Some a else None
      end
  end.

Lemma kill_defs h d V L :
  wf_defs h d →
  wf_defs (_kill h d V L).1 (_kill h d V L).2 ∧
  ∀ v, defs_of (_kill h d V L).1 (_kill h d V L).2 v
       = if decide (v = V) then Some {[L]} else defs_of h d v.
Proof.
  intros Hwf. unfold _kill, defs_of; simpl. split.
  - intros v r. rewrite length_app. simpl. destruct (decide (v = V)) as [->|Hne].
    + rewrite lookup_insert_eq. intros [= <-]. lia.
    + rewrite lookup_insert_ne by done. intros E. apply Hwf in E. lia.
  - intros v. destruct (decide (v = V)) as [->|Hne].
    + rewrite lookup_insert_eq. simpl. by rewrite deref_alloc.
    + rewrite lookup_insert_ne by done. destruct (d !! v) as [r|] eqn:E; [|done].
      simpl. f_equal. apply deref_app_l. by eapply Hwf.
Qed.

Definition track_wf (st : track_state) : Prop := wf_defs (ts_heap st) (ts_live_defs st).

Definition track_defs (st : track_state) (v : SimVariable) : option (gset CodeLocation) :=
  defs_of (ts_heap st) (ts_live_defs st) v.

Lemma track_mem_defs keep_data a loc st addr st' :
  track_wf st → track_mem keep_data a loc st addr = Ok st' →
  track_wf st' ∧
  ∀ v, track_defs st' v
       = if decide (a_action a = A_write ∧ v = SimMemoryVariable addr (obj_size (a_data a)))
         then Some {[loc]} else track_defs st v.
Proof.
  intros Hwf H. unfold track_mem in H.
  bind_inv H. bind_inv H. bind_inv H. bind_inv H. bind_inv H.
  inversion H; subst; clear H. unfold track_wf, track_defs; simpl.
  destruct (decide (a_action a = A_write)) as [Hw|Hw].
  - destruct (kill_defs (ts_heap st) (ts_live_defs st)
                (SimMemoryVariable addr (obj_size (a_data a))) loc Hwf) as [Hwf' Hdefs].
    split; [done|]. intros v. rewrite Hdefs.
    destruct (decide (v = _)) as [->|Hne].
    + by rewrite decide_True.
    + rewrite decide_False; [done|]. by intros [_ ?].
  - split; [done|]. intros v. rewrite decide_False; [done|]. by intros [? _].
Qed.

Lemma track_mem_loop_defs keep_data a loc addrs : ∀ st st',
  track_wf st → for_each (track_mem keep_data a loc) addrs st = Ok st' →
  track_wf st' ∧
  ∀ v, track_defs st' v
       = if decide (a_action a = A_write ∧
                    v ∈ (λ addr, SimMemoryVariable addr (obj_size (a_data a))) <$> addrs)
         then Some {[loc]} else track_defs st v.
Proof.
  induction addrs as [|addr addrs IH]; intros st st' Hwf H.
  - inversion H; subst. split; [done|]. intros v. rewrite decide_False; [done|].
    intros [_ Hin]. by apply elem_of_nil in Hin.
  - rewrite for_each_cons in H. bind_inv H.
    destruct (track_mem_defs _ _ _ _ _ _ Hwf Hx) as [Hwf1 Hd1].
    destruct (IH x st' Hwf1 H) as [Hwf' Hd']. split; [done|].
    intros v. rewrite Hd', Hd1, fmap_cons. clear.
    repeat destruct (decide _) as [?|?]; try done; exfalso; set_solver.
Qed.

Lemma track_action_defs keep_data st a st' :
  track_wf st → track_action keep_data st a = Ok st' →
  track_wf st' ∧
  ∀ v, track_defs st' v
       = if decide (v ∈ kills a) then Some {[code_loc_of a]} else track_defs st v.
Proof.
  intros Hwf H. unfold track_action in H. unfold kills.
  destruct (a_type a) eqn:Hty.
  - destruct (track_mem_loop_defs _ _ _ _ _ _ Hwf H) as [Hwf' Hd]. split; [done|].
    intros v. rewrite Hd. destruct (decide (a_action a = A_write)) as [Hw|Hw].
    + destruct (decide (v ∈ _)) as [Hin|Hnin].
      * by rewrite decide_True.
      * rewrite decide_False; [done|]. by intros [_ ?].
    + rewrite decide_False by (by intros [? _]).
      rewrite decide_False; [done|]. apply not_elem_of_nil.
  - unfold track_reg in H. destruct (decide (a_action a = A_read)) as [Hrd|Hrd].
    + bind_inv H. inversion H; subst; clear H. split; [done|].
      intros v. rewrite decide_False; [done|]. apply not_elem_of_nil.
    + inversion H; subst; clear H. unfold track_wf, track_defs; simpl.
      destruct (kill_defs (ts_heap st) (ts_live_defs st)
                  (SimRegisterVariable (a_offset a) (obj_size (a_data a)))
                  (code_loc_of a) Hwf) as [Hwf' Hdefs].
      split; [done|]. intros v. rewrite Hdefs.
      destruct (decide (v = _)) as [->|Hne].
      * rewrite decide_True; [done|]. left.
      * rewrite decide_False; [done|]. intros Hin.
        by apply list_elem_of_singleton in Hin.
  - assert (ts_heap st' = ts_heap st ∧ ts_live_defs st' = ts_live_defs st) as [Hh Hl].
    { unfold track_tmp in H. destruct (decide _).
      - unfold queue_tmp_edge in H. destruct (ts_temps st !! a_tmp a); [|done].
        by inversion H; subst.
      - by inversion H; subst. }
    unfold track_wf, track_defs. rewrite Hh, Hl. split; [done|].
    intros v. rewrite decide_False; [done|]. apply not_elem_of_nil.
  - assert (ts_heap st' = ts_heap st ∧ ts_live_defs st' = ts_live_defs st) as [Hh Hl].
    { revert H. apply (for_each_ind _ (λ s, ts_heap s = ts_heap st ∧
                                            ts_live_defs s = ts_live_defs st)); [done|].
      intros s1 tmp s2 _ [E1 E2] H. unfold queue_tmp_edge in H.
      destruct (ts_temps s1 !! tmp); [|done]. by inversion H; subst. }
    unfold track_wf, track_defs. rewrite Hh, Hl. split; [done|].
    intros v. rewrite decide_False; [done|]. apply not_elem_of_nil.
  - inversion H; subst. split; [done|].
    intros v. rewrite decide_False; [done|]. apply not_elem_of_nil.
Qed.

Lemma track_loop_defs keep_data acts : ∀ st st',
  track_wf st → track_loop keep_data acts st = Ok st' →
  track_wf st' ∧
  ∀ v, track_defs st' v
       = match last_kill v acts with
         | Some a => Some {[code_loc_of a]}
         | None => track_defs st v
         end.
Proof.
  induction acts as [|a acts IH]; intros st st' Hwf H.
  - by inversion H; subst.
  - unfold track_loop in H. rewrite for_each_cons in H. bind_inv H.
    destruct (track_action_defs _ _ _ _ Hwf Hx) as [Hwf1 Hd1].
    destruct (IH x st' Hwf1 H) as [Hwf' Hd']. split; [done|].
    intros v. rewrite Hd'. simpl. destruct (last_kill v acts); [done|].
    rewrite Hd1. by destruct (decide _).
Qed.

(** X3: the definitions that [_track] returns are the transfer of the block.
    For a variable that some action of the trace kills (a write to a register,
    or to one of the addresses of a memory write) the set is the code location
    of the last such action, alone; for any other variable it is the set that
    came in. *)
Theorem track_transfer keep_data h g state live_defs h' g' new_defs :
  wf_defs h live_defs →
  _track keep_data h g state live_defs = Ok (h', g', new_defs) →
  wf_defs h' new_defs ∧
  ∀ v, defs_of h' new_defs v
       = match last_kill v (actions state) with
         | Some a => Some {[code_loc_of a]}
         | None => defs_of h live_defs v
         end.
Proof.
  intros Hwf H. unfold _track in H. bind_inv H. inversion H; subst; clear H.
  apply (track_loop_defs keep_data (actions state) (track_init h g live_defs) x); done.
Qed.

Lemma track_transfer_witness :
  let state := Demo.boring 0x2000
                 [Demo.reg_write 0x1000 2 16; Demo.mem_write 0x1000 3 0x8000 [16];
                  Demo.reg_write 0x1000 5 16] in
  ∃ h' g' new_defs,
    _track false Demo.relabel_heap [] state Demo.relabel_defs = Ok (h', g', new_defs) ∧
    wf_defs h' new_defs ∧
    ∀ v, defs_of h' new_defs v
         = match last_kill v (actions state) with
           | Some a => Some {[code_loc_of a]}
           | None => defs_of Demo.relabel_heap Demo.relabel_defs v
           end.
Proof.
  intros state.
  destruct (is_Ok_inv (_track false Demo.relabel_heap [] state Demo.relabel_defs))
    as [[[h' g'] nd] E]; [vm_compute; reflexivity|].
  exists h', g', nd. split; [exact E|].
  apply (track_transfer false Demo.relabel_heap [] state Demo.relabel_defs h' g' nd);
    [|exact E].
  intros v r Hv. unfold Demo.relabel_defs in Hv.
  apply lookup_singleton_Some in Hv as [_ <-]. simpl. lia.
Defined.

(** * What a replay leaves untouched *)

Lemma track_action_heap_appends h keep_data st a st' :
  (∃ new, ts_heap st = h ++ new) → track_action keep_data st a = Ok st' →
  ∃ new, ts_heap st' = h ++ new.
Proof.
  assert (∀ h0 (s : gset CodeLocation),
            (∃ new, h0 = h ++ new) → ∃ new, h0 ++ [s] = h ++ new) as Hkill.
  { intros h0 s [new ->]. eexists. by rewrite <- app_assoc. }
  intros Hst H. unfold track_action in H. destruct (a_type a).
  - revert H. apply (for_each_ind _ (λ s, ∃ new, ts_heap s = h ++ new)); [done|].
    intros s1 addr s2 _ Hs1 H. unfold track_mem in H.
    bind_inv H. bind_inv H. bind_inv H. bind_inv H. bind_inv H.
    inversion H; subst; clear H. simpl.
    destruct (decide (a_action a = A_write)); [by apply Hkill|done].
  - unfold track_reg in H. destruct (decide _).
    + bind_inv H. by inversion H; subst.
    + inversion H; subst. simpl. by apply Hkill.
  - unfold track_tmp in H. destruct (decide _).
    + unfold queue_tmp_edge in H. destruct (ts_temps st !! a_tmp a); [|done].
      by inversion H; subst.
    + by inversion H; subst.
  - revert H. apply (for_each_ind _ (λ s, ∃ new, ts_heap s = h ++ new)); [done|].
    intros s1 tmp s2 _ Hs1 H. unfold queue_tmp_edge in H.
    destruct (ts_temps s1 !! tmp); [|done]. by inversion H; subst.
  - by inversion H; subst.
Qed.

(** X4: a replay only adds.  The set objects that exist when [_track] is
    called are the same afterwards (a kill binds the variable to a new set), so
    the snapshot that came in still reads as before; and the edges that the
    graph had are still there, in place and with their labels. *)
Theorem track_only_appends keep_data h g state live_defs h' g' new_defs :
  _track keep_data h g state live_defs = Ok (h', g', new_defs) →
  (∃ new, h' = h ++ new) ∧
  (∃ new, g' = g ++ new) ∧
  (wf_defs h live_defs → ∀ v, defs_of h' live_defs v = defs_of h live_defs v).
Proof.
  intros H.
  assert (∃ new, h' = h ++ new) as [new ->].
  { unfold _track in H. bind_inv H. inversion H; subst; clear H. simpl.
    revert Hx. unfold track_loop.
    apply (for_each_ind _ (λ s, ∃ new, ts_heap s = h ++ new)).
    - exists []. simpl. by rewrite app_nil_r.
    - intros s1 a s2 _. apply track_action_heap_appends. }
  split_and!.
  - by eexists.
  - revert H. apply (track_inv (λ g', ∃ new, g' = g ++ new)).
    + intros g0 s t l [new0 ->]. destruct (add_edge_prefix (g ++ new0) s t l) as [n1 ->].
      exists (new0 ++ n1). by rewrite app_assoc.
    + exists []. by rewrite app_nil_r.
  - intros Hwf v. unfold defs_of. destruct (live_defs !! v) as [r|] eqn:E; [|done].
    simpl. f_equal. apply deref_app_l. by eapply Hwf.
Qed.

Lemma track_only_appends_witness :
  ∃ h' g' new_defs,
    _track false Demo.relabel_heap [] (Demo.boring 0x3000 Demo.relabel_trace)
      Demo.relabel_defs = Ok (h', g', new_defs) ∧
    (∃ new, h' = Demo.relabel_heap ++ new) ∧
    (∃ new, g' = [] ++ new) ∧
    (wf_defs Demo.relabel_heap Demo.relabel_defs →
     ∀ v, defs_of h' Demo.relabel_defs v = defs_of Demo.relabel_heap Demo.relabel_defs v).
Proof.
  destruct (is_Ok_inv (_track false Demo.relabel_heap []
                         (Demo.boring 0x3000 Demo.relabel_trace) Demo.relabel_defs))
    as [[[h' g'] nd] E]; [vm_compute; reflexivity|].
  exists h', g', nd. split; [exact E|].
  exact (track_only_appends false Demo.relabel_heap []
           (Demo.boring 0x3000 Demo.relabel_trace) Demo.relabel_defs h' g' nd E).
Defined.

(** * Traces that replay without an exception *)

(** Every read of a temporary (by a read action or by an exit) comes after a
    write of that temporary in the same list. *)
Definition tmps_defined (acts : list SimAction) : Prop :=
  ∀ i a t, acts !! i = Some a → reads_tmp t a →
           ∃ j aw, (j < i)%nat ∧ acts !! j = Some aw ∧ writes_tmp t aw.

(** The temporaries written by the first [n] actions are in [temps]. *)
Definition temps_cover (acts : list SimAction) (n : nat) (st : track_state) : Prop :=
  ∀ j aw t, (j < n)%nat → acts !! j = Some aw → writes_tmp t aw →
            is_Some (ts_temps st !! t).

Lemma track_loop_total_ind (acts : list SimAction) (J : nat → track_state → Prop) keep_data :
  (∀ n a st, acts !! n = Some a → J n st →
             ∃ st', track_action keep_data st a = Ok st' ∧ J (S n) st') →
  ∀ post pre st,
    acts = pre ++ post → J (length pre) st →
    ∃ st', track_loop keep_data post st = Ok st' ∧ J (length acts) st'.
Proof.
  intros Hstep. induction post as [|a post IH]; intros pre st Hacts HJ.
  - exists st. split; [done|]. subst acts. by rewrite app_nil_r.
  - destruct (Hstep (length pre) a st) as (st1 & H1 & HJ1); [|done|].
    { subst acts. by rewrite list_lookup_middle. }
    destruct (IH (pre ++ [a]) st1) as (st' & H' & HJ').
    + by rewrite <- app_assoc.
    + rewrite length_app. simpl. by rewrite Nat.add_1_r.
    + exists st'. split; [|done]. unfold track_loop. rewrite for_each_cons, H1. exact H'.
Qed.

Lemma track_action_defined keep_data st a :
  wf_pending st → (∀ t, reads_tmp t a → is_Some (ts_temps st !! t)) →
  ∃ st', track_action keep_data st a = Ok st'.
Proof.
  intros Hwf Htmp.
  destruct (track_action_Ok_or_KeyError keep_data st a Hwf) as [(st' & H & _)|H];
    [by eauto|exfalso].
  unfold track_action in H. destruct (a_type a) eqn:Hty.
  - destruct (for_each_total (track_mem keep_data a (code_loc_of a)) wf_pending
                (addr_list a) st Hwf) as (st' & H' & _); [|congruence].
    intros s1 x _ Hs1. destruct (track_mem_total keep_data a (code_loc_of a) s1 x Hs1)
      as [s2 H2]. exists s2. split; [done|]. by eapply track_mem_wf.
  - destruct (track_reg_total keep_data a (code_loc_of a) st) as [st' H']. congruence.
  - unfold track_tmp in H. destruct (decide (a_action a = A_read)) as [Hrd|Hrd]; [|done].
    destruct (Htmp (a_tmp a)) as [s Hs]; [left; by split_and!|].
    unfold queue_tmp_edge in H. by rewrite Hs in H.
  - destruct (for_each_total (queue_tmp_edge "exit" (code_loc_of a))
                (λ s, ts_temps s = ts_temps st) (a_tmp_deps a) st eq_refl)
      as (st' & H' & _); [|congruence].
    intros s1 t Ht Hs1. destruct (Htmp t) as [s Hs]; [right; by split|].
    unfold queue_tmp_edge. rewrite Hs1, Hs. by eauto.
  - done.
Qed.

Lemma track_returns_if keep_data h g state live_defs :
  tmps_defined (actions state) → ∃ r, _track keep_data h g state live_defs = Ok r.
Proof.
  intros Hdef.
  destruct (track_loop_total_ind (actions state)
              (λ n st, wf_pending st ∧ temps_cover (actions state) n st) keep_data)
    with (post := actions state) (pre := @nil SimAction) (st := track_init h g live_defs)
    as (st' & H & _).
  - intros n a st Hn [Hwf Hcov].
    destruct (track_action_defined keep_data st a Hwf) as [st' H].
    { intros t Hrd. destruct (Hdef n a t Hn Hrd) as (j & aw & Hj & Haw & Hw).
      by apply (Hcov j aw t). }
    exists st'. split; [done|]. split; [by eapply wf_pending_step|].
    intros j aw t Hj Haw Hw. apply track_action_temps in H. rewrite H.
    destruct (decide (j = n)) as [->|Hne].
    + assert (aw = a) as -> by congruence.
      destruct Hw as (Hw1 & Hw2 & <-). rewrite decide_True by by split_and!.
      by rewrite lookup_insert_eq.
    + assert (is_Some (ts_temps st !! t)) as Hs by (apply (Hcov j aw t); [lia|done..]).
      destruct (decide _); [|done]. destruct (decide (a_tmp a = t)) as [->|Hn'].
      * by rewrite lookup_insert_eq.
      * by rewrite lookup_insert_ne.
  - done.
  - split; [apply wf_pending_init|]. intros j aw t Hj. simpl in Hj. lia.
  - unfold _track. rewrite H. simpl. by eauto.
Qed.

Lemma track_raises_if keep_data h g state live_defs pre a post t :
  actions state = pre ++ a :: post → reads_tmp t a →
  (∀ a', a' ∈ pre → ¬ writes_tmp t a') →
  _track keep_data h g state live_defs = Err KeyError.
Proof.
  intros Hacts Hrd Hpre. unfold _track, track_loop. rewrite Hacts, for_each_app.
  destruct (track_loop_Ok_or_KeyError keep_data pre (track_init h g live_defs)
              (wf_pending_init h g live_defs)) as [(st & H & _)|H];
    unfold track_loop in H; rewrite H; [|done].
  assert (ts_temps st !! t = None) as Hnone.
  { destruct (ts_temps st !! t) as [s|] eqn:Hts; [|done].
    assert (temps_defined pre (length pre) st) as Hdef.
    { apply (track_loop_ind pre (temps_defined pre) keep_data) with
        (post := pre) (pre := []) (st := track_init h g live_defs); [|done| |done].
      - intros. by eapply temps_defined_step.
      - apply temps_defined_init. }
    destruct (Hdef t s Hts) as (i & aw & _ & Hi & Hw & _).
    destruct (Hpre aw); [|done]. by eapply list_elem_of_lookup_2. }
  simpl. by rewrite (track_action_undefined keep_data st a t).
Qed.

Global Instance writes_tmp_dec t a : Decision (writes_tmp t a).
Proof. unfold writes_tmp. apply _. Defined.

(** X5: [_track] returns exactly for the traces in which every read of a
    temporary follows a write of that temporary; for the others it raises
    [KeyError], and it raises nothing else. *)
Theorem track_returns_iff keep_data h g state live_defs :
  ((∃ r, _track keep_data h g state live_defs = Ok r) ↔ tmps_defined (actions state)) ∧
  (¬ tmps_defined (actions state) → _track keep_data h g state live_defs = Err KeyError).
Proof.
  assert ((∃ r, _track keep_data h g state live_defs = Ok r) → tmps_defined (actions state))
    as Hnec.
  { intros [r Hr] i a t Hi Hrd.
    destruct (decide (Exists (writes_tmp t) (take i (actions state)))) as [Hex|Hnex].
    - apply Exists_exists in Hex as (aw & Hin & Hw).
      apply list_elem_of_lookup in Hin as [j Hj].
      apply lookup_take_Some in Hj as [Hj Hlt]. by exists j, aw.
    - rewrite (track_raises_if keep_data h g state live_defs
                 (take i (actions state)) a (drop (S i) (actions state)) t) in Hr; [done| |done|].
      + by rewrite <- (take_drop_middle _ _ _ Hi) at 1.
      + intros a' Hin Hw. apply Hnex. apply Exists_exists. by exists a'. }
  split; [split; [done|apply track_returns_if]|].
  intros Hnot. destruct (track_Ok_or_KeyError keep_data h g state live_defs) as [Hr|Hr];
    [|done]. destruct Hnot. by apply Hnec.
Qed.

(** * The worklist and its set *)

(** [worklist_set] holds the nodes of [worklist], which has no node twice. *)
Definition queue_ok (σ : ddg_state) : Prop :=
  NoDup (worklist σ) ∧ ∀ n, n ∈ worklist_set σ ↔ n ∈ worklist σ.

Lemma requeue_queue_ok cfg successing_node (q : queue) :
  NoDup q.1 → (∀ n, n ∈ q.2 ↔ n ∈ q.1) →
  NoDup (requeue cfg successing_node q).1 ∧
  ∀ n, n ∈ (requeue cfg successing_node q).2 ↔ n ∈ (requeue cfg successing_node q).1.
Proof.
  intros Hnd Hq. rewrite requeue_spec. destruct (decide _) as [Hnin|Hin]; [|done].
  simpl. split.
  - apply NoDup_app. split_and!; [done| |apply NoDup_singleton].
    intros n Hn Hn'. apply list_elem_of_singleton in Hn'. subst. by apply Hnin, Hq.
  - intros n. rewrite elem_of_union, elem_of_singleton, elem_of_app, list_elem_of_singleton.
    rewrite Hq. tauto.
Qed.

Lemma process_state_queue_ok keep_data cfg node σ state σ' :
  queue_ok σ → process_state keep_data cfg node σ state = Ok σ' → queue_ok σ'.
Proof.
  intros [Hnd Hq] H. unfold process_state in H.
  destruct (_ && _); [inversion H; subst; by split|].
  destruct (filter _ _) as [|successing_node rest]; [inversion H; subst; by split|].
  bind_inv H. destruct x as [[h1 g1] new_defs].
  destruct (merge_defs _ _ _) as [[defs h2] changed].
  inversion H; subst; clear H. unfold queue_ok; simpl.
  destruct changed; [|done]. by apply requeue_queue_ok.
Qed.

Lemma construct_step_queue_ok keep_data cfg σ σ' :
  queue_ok σ → construct_step keep_data cfg σ = Ok σ' → queue_ok σ'.
Proof.
  intros [Hnd Hq] H. unfold construct_step in H.
  destruct (worklist σ) as [|node worklist'] eqn:Ewl.
  { inversion H; subst. unfold queue_ok. rewrite Ewl. by split. }
  destruct (decide _) as [_|_]; [|done].
  apply NoDup_cons in Hnd as [Hnin Hnd].
  revert H. apply (for_each_ind _ queue_ok).
  - split; simpl; [done|]. intros n. rewrite elem_of_difference, elem_of_singleton, Hq.
    rewrite elem_of_cons. split; [tauto|]. intros Hn. split; [by right|]. by intros ->.
  - intros s1 state s2 _. apply process_state_queue_ok.
Qed.

Lemma construct_init_queue_ok cfg initial_node : queue_ok (construct_init cfg initial_node).
Proof.
  unfold construct_init, queue_ok; simpl. split.
  - apply NoDup_fst_map_to_list.
  - intros n. apply elem_of_list_to_set.
Qed.

(** X6: the worklist never holds a node twice and [worklist_set] is the set
    of its nodes: this holds when the loop starts and after every iteration
    that returns, so that [worklist_set.remove(node)] finds the node that was
    taken from the worklist. *)
Theorem worklist_set_mirrors_worklist keep_data cfg :
  (∀ initial_node, queue_ok (construct_init cfg initial_node)) ∧
  (∀ σ σ', queue_ok σ → construct_step keep_data cfg σ = Ok σ' → queue_ok σ') ∧
  (∀ σ node worklist', queue_ok σ → worklist σ = node :: worklist' →
                       node ∈ worklist_set σ ∧ node ∉ worklist') ∧
  (∀ fuel start σ, _construct fuel keep_data cfg start = Some (Ok σ) → queue_ok σ).
Proof.
  split_and!.
  - apply construct_init_queue_ok.
  - intros σ σ'. apply construct_step_queue_ok.
  - intros σ node worklist' [Hnd Hq] Hwl. rewrite Hwl in Hnd, Hq.
    apply NoDup_cons in Hnd as [Hnin _]. split; [|done]. apply Hq. left.
  - intros fuel start. unfold _construct.
    generalize (construct_init_queue_ok cfg (get_any_node cfg start)).
    generalize (construct_init cfg (get_any_node cfg start)).
    induction fuel as [|fuel IH]; intros σ0 Hok σ H; simpl in H.
    + destruct (worklist σ0); [|done]. by inversion H; subst.
    + destruct (worklist σ0) eqn:Ewl; [by inversion H; subst|].
      destruct (construct_step keep_data cfg σ0) as [σ1|e] eqn:Hstep; [|done].
      apply (IH σ1); [|done]. by eapply construct_step_queue_ok.
Qed.

(** * Construction over well-formed traces *)







(** * Blocks without successors *)

Lemma dfs_successors_leaf cfg n : successors cfg n = [] → dfs_successors cfg (Some n) = ∅.
Proof.
  intros Hn. unfold dfs_successors, dfs_edges; simpl. unfold dfs_from; simpl.
  rewrite decide_False by apply not_elem_of_empty.
  rewrite Hn. unfold dfs_fuel. simpl.
  by match goal with |- context [dfs_walk ?k] => destruct k end.
Qed.

Lemma leaf_states_skipped keep_data cfg node states : ∀ σ,
  successors cfg node = [] →
  for_each (process_state keep_data cfg node) states σ = Ok σ.
Proof.
  intros σ Hn. induction states as [|state states IH]; [done|].
  rewrite for_each_cons.
  assert (process_state keep_data cfg node σ state = Ok σ) as ->; [|exact IH].
  unfold process_state. rewrite Hn. by destruct (_ && _).
Qed.

(** X8: the trace of a block without successors is never replayed.  When
    the entry node has no successor the worklist starts empty and construction
    returns the empty graph at once; and an iteration of the loop on a node
    without successors only takes the node from the worklist: the graph and
    the set objects are as before, whatever the traces of the node are. *)
Theorem leaf_blocks_contribute_nothing keep_data cfg :
  (∀ fuel start n,
     get_any_node cfg start = Some n → successors cfg n = [] →
     _construct fuel keep_data cfg start = Some (Ok (mkDDG [] ∅ ∅ [] []))) ∧
  (∀ σ node worklist',
     worklist σ = node :: worklist' → node ∈ worklist_set σ →
     successors cfg node = [] →
     ∃ σ', construct_step keep_data cfg σ = Ok σ' ∧
           worklist σ' = worklist' ∧
           ddg_graph σ' = ddg_graph σ ∧ ddg_heap σ' = ddg_heap σ).
Proof.
  split.
  - intros fuel start n Hstart Hn. unfold _construct, construct_init.
    rewrite Hstart, (dfs_successors_leaf cfg n Hn), map_to_list_empty. simpl.
    by destruct fuel.
  - intros σ node worklist' Hwl Hin Hn. unfold construct_step.
    rewrite Hwl, decide_True by done. rewrite leaf_states_skipped by done.
    by eexists.
Qed.

Lemma leaf_blocks_contribute_nothing_witness :
  _construct 0 false Demo.chain 0x3000 = Some (Ok (mkDDG [] ∅ ∅ [] [])).
Proof.
  destruct (leaf_blocks_contribute_nothing false Demo.chain) as [H _].
  apply (H 0%nat 0x3000 2%nat); vm_compute; reflexivity.
Defined.

(** * Merging the same definitions again *)

Lemma merge_defs_post owner defs h new_defs :
  owned owner defs → owned owner new_defs → wf_defs h defs → wf_defs h new_defs →
  merge_post defs h false (map_to_list new_defs) (merge_defs defs h new_defs).
Proof.
  intros HoD HoN HwD HwN. apply (merge_fold owner); [|done| |done|].
  - apply NoDup_fst_map_to_list.
  - intros v r Hin. apply elem_of_map_to_list in Hin. by apply HoN.
  - intros v r Hin. apply elem_of_map_to_list in Hin. by eapply HwN.
Qed.

Lemma not_elem_of_map_to_list_fst (m : live_defs_t) v :
  m !! v = None → v ∉ (map_to_list m).*1.
Proof.
  intros Hnone Hin. apply list_elem_of_fmap in Hin as ([v' r] & -> & Hin).
  apply elem_of_map_to_list in Hin. simpl in Hnone. congruence.
Qed.

(** X9: a merge is stable.  Merging the same [new_defs] once more into the
    snapshot that a merge has produced sets no flag and leaves every entry of
    the snapshot as it is, so that a node whose predecessors bring nothing new
    is not queued again. *)
Theorem merge_defs_idempotent owner defs h new_defs :
  owned owner defs → owned owner new_defs →
  wf_defs h defs → wf_defs h new_defs →
  let R := merge_defs defs h new_defs in
  let R2 := merge_defs R.1.1 R.1.2 new_defs in
  R2.2 = false ∧ ∀ v, defs_of R2.1.2 R2.1.1 v = defs_of R.1.2 R.1.1 v.
Proof.
  intros HoD HoN HwD HwN R R2.
  destruct (merge_defs_post owner defs h new_defs HoD HoN HwD HwN)
    as (P1 & P2 & P3 & P4 & P5 & P6 & _). fold R in P1, P2, P3, P4, P5, P6.
  assert (∀ v r, R.1.1 !! v = Some r →
                 defs !! v = Some r ∨ (defs !! v = None ∧ new_defs !! v = Some r)) as Hinv.
  { intros v r Hv. destruct (defs !! v) as [r'|] eqn:ED.
    - left. rewrite (P2 v r' ED) in Hv. congruence.
    - right. split; [done|]. destruct (new_defs !! v) as [r0|] eqn:EN.
      + rewrite (P3 v r0 ED) in Hv by by apply elem_of_map_to_list. congruence.
      + rewrite (P4 v ED) in Hv by by apply not_elem_of_map_to_list_fst. done. }
  assert (owned owner R.1.1) as HoR.
  { intros v r Hv. destruct (Hinv v r Hv) as [?|[_ ?]]; [by apply HoD|by apply HoN]. }
  assert (wf_defs R.1.2 R.1.1) as HwR.
  { intros v r Hv. rewrite P1. destruct (Hinv v r Hv) as [?|[_ ?]]; [by eapply HwD|by eapply HwN]. }
  assert (wf_defs R.1.2 new_defs) as HwN'.
  { intros v r Hv. rewrite P1. by eapply HwN. }
  assert (∀ v r r', new_defs !! v = Some r → R.1.1 !! v = Some r' →
                    deref R.1.2 r ⊆ deref R.1.2 r') as Hsub.
  { intros v r r' HN HR. destruct (Hinv v r' HR) as [ED|[ED EN]].
    - rewrite (P5 v r r' ED) by by apply elem_of_map_to_list.
      destruct (decide (r = r')) as [->|Hne].
      + rewrite (P5 v r' r' ED) by by apply elem_of_map_to_list. set_solver.
      + rewrite (P6 r); [set_solver|]. intros v1 r1 Hin1 E1.
        apply elem_of_map_to_list in Hin1.
        assert (v1 = v) as -> by (rewrite <- (HoD _ _ E1); by apply HoN). congruence.
    - assert (r' = r) as -> by congruence. done. }
  destruct (merge_defs_post owner R.1.1 R.1.2 new_defs HoR HoN HwR HwN')
    as (Q1 & Q2 & Q3 & Q4 & Q5 & Q6 & Q7). fold R2 in Q1, Q2, Q3, Q4, Q5, Q6, Q7.
  split.
  - destruct (R2.2) eqn:E; [|done]. exfalso.
    destruct (proj1 Q7 eq_refl) as [?|(v & r & Hin & Hcase)]; [done|].
    apply elem_of_map_to_list in Hin.
    destruct Hcase as [HR|(r' & HR & code_loc & Hl & Hl')].
    + destruct (defs !! v) as [r0|] eqn:ED.
      * rewrite (P2 v r0 ED) in HR. done.
      * rewrite (P3 v r ED) in HR by by apply elem_of_map_to_list. done.
    + apply Hl'. by apply (Hsub v r r').
  - intros v. unfold defs_of. destruct (R.1.1 !! v) as [r'|] eqn:HR.
    + rewrite (Q2 v r' HR). simpl. f_equal.
      destruct (new_defs !! v) as [r|] eqn:EN.
      * rewrite (Q5 v r r' HR) by by apply elem_of_map_to_list.
        pose proof (Hsub v r r' EN HR). set_solver.
      * apply Q6. intros v1 r1 Hin1 E1. apply elem_of_map_to_list in Hin1.
        assert (v1 = v) as -> by (rewrite <- (HoR _ _ E1); by apply HoR). congruence.
    + rewrite Q4; [done..|]. apply not_elem_of_map_to_list_fst.
      destruct (new_defs !! v) as [r|] eqn:EN; [|done]. exfalso.
      destruct (defs !! v) as [r0|] eqn:ED.
      * rewrite (P2 v r0 ED) in HR. done.
      * rewrite (P3 v r ED) in HR by by apply elem_of_map_to_list. done.
Qed.

Lemma merge_defs_idempotent_witness :
  let h : heap := [{[Demo.loc 0x1000 2]}; {[Demo.loc 0x1000 2; Demo.loc 0x1400 7]};
                   {[Demo.loc 0x1000 5]}] in
  let defs : live_defs_t := {[SimRegisterVariable 16 32 := 0%nat]} in
  let new_defs : live_defs_t :=
    <[SimRegisterVariable 16 32 := 1%nat]> {[SimRegisterVariable 24 32 := 2%nat]} in
  let R := merge_defs defs h new_defs in
  let R2 := merge_defs R.1.1 R.1.2 new_defs in
  R2.2 = false ∧ ∀ v, defs_of R2.1.2 R2.1.1 v = defs_of R.1.2 R.1.1 v.
Proof.
  intros h defs new_defs.
  apply (merge_defs_idempotent
           (λ r, if decide (r = 2%nat) then SimRegisterVariable 24 32
                 else SimRegisterVariable 16 32) defs h new_defs).
  - intros v r Hv. apply lookup_singleton_Some in Hv as [<- <-]. reflexivity.
  - intros v r Hv. apply lookup_insert_Some in Hv as [[<- <-]|[_ Hv]]; [reflexivity|].
    apply lookup_singleton_Some in Hv as [<- <-]. reflexivity.
  - intros v r Hv. apply lookup_singleton_Some in Hv as [_ <-]. simpl. lia.
  - intros v r Hv. apply lookup_insert_Some in Hv as [[_ <-]|[_ Hv]]; [simpl; lia|].
    apply lookup_singleton_Some in Hv as [_ <-]. simpl. lia.
Defined.

(** * Lookups in the live definitions *)

(** X10: [_def_lookup] of a variable that the dictionary does not have
    returns the empty dictionary, of whatever kind the variable is; the
    exception for a variable that is neither a register nor a memory variable
    is raised inside the loop over its definitions, that is only when the
    variable has an entry with a definition in it. *)
Theorem def_lookup_edge_cases keep_data h live_defs :
  (∀ variable, live_defs !! variable = None →
               _def_lookup keep_data h live_defs variable = Ok ∅) ∧
  (∀ tmp_id r,
     live_defs !! SimTemporaryVariable tmp_id = Some r →
     _def_lookup keep_data h live_defs (SimTemporaryVariable tmp_id)
     = if decide (deref h r = ∅) then Ok ∅ else Err AngrDDGError).
Proof.
  split.
  - intros variable Hnone. unfold _def_lookup. by rewrite Hnone.
  - intros tmp_id r Hr. unfold _def_lookup. rewrite Hr.
    destruct (decide (deref h r = ∅)) as [->|Hne].
    + by rewrite elements_empty.
    + destruct (elements (deref h r)) as [|code_loc locs] eqn:E; [|done].
      apply elements_empty_inv in E. by apply leibniz_equiv in E.
Qed.

(** X11: [_kill] followed by [_def_lookup] of the same variable gives the
    killing code location, alone, with the label of the variable. *)
Theorem kill_then_lookup keep_data h live_defs variable type_ code_loc :
  variable_type variable = Ok type_ →
  let hl := _kill h live_defs variable code_loc in
  _def_lookup keep_data hl.1 hl.2 variable
  = Ok {[code_loc := def_label keep_data type_ variable]}.
Proof.
  intros Hty hl.
  destruct (def_lookup_spec keep_data hl.1 hl.2 variable type_ Hty) as (prevdefs & -> & Hp).
  f_equal. apply map_eq. intros l. rewrite Hp. subst hl. unfold defs_of, _kill; simpl.
  rewrite lookup_insert_eq. simpl. rewrite deref_alloc.
  destruct (decide (l ∈ _)) as [Hin|Hnin].
  - apply elem_of_singleton in Hin. subst. by rewrite lookup_singleton_eq.
  - rewrite lookup_singleton_ne; [done|]. intros ->. apply Hnin. by apply elem_of_singleton.
Qed.

Lemma kill_then_lookup_witness :
  let hl := _kill Demo.relabel_heap Demo.relabel_defs (SimRegisterVariable 16 32)
              (Demo.loc 0x2000 3) in
  _def_lookup false hl.1 hl.2 (SimRegisterVariable 16 32)
  = Ok {[Demo.loc 0x2000 3 := def_label false "reg" (SimRegisterVariable 16 32)]}.
Proof.
  apply (kill_then_lookup false Demo.relabel_heap Demo.relabel_defs
           (SimRegisterVariable 16 32) "reg" (Demo.loc 0x2000 3)).
  reflexivity.
Defined.

(** X12: all that the block [if changed:] does to the worklist is to put the
    successor at its end when the successor is not queued; no other node is
    queued, whatever the search tree below the successor is, and the nodes
    that were queued keep their places. *)
Theorem requeue_only_successor cfg successing_node (q : queue) :
  requeue cfg successing_node q
  = (if decide (successing_node ∈ q.2) then q
     else (q.1 ++ [successing_node], {[successing_node]} ∪ q.2)) ∧
  ∀ n, n ∈ (requeue cfg successing_node q).1 → n ∈ q.1 ∨ n = successing_node.
Proof.
  split.
  - rewrite requeue_spec. destruct (decide (successing_node ∈ q.2)) as [Hin|Hnin].
    + rewrite decide_False; [done|]. by intros ?.
    + by rewrite decide_True.
  - apply requeue_queue.
Qed.

(** * From a definition to its use *)

(** The action reads the variable [v]: a register read, or a memory read with
    the address of [v] among its addresses. *)
Definition reads_var (v : SimVariable) (a : SimAction) : Prop :=
  a_action a = A_read ∧
  ((a_type a = T_reg ∧ v = SimRegisterVariable (a_offset a) (obj_size (a_data a))) ∨
   (a_type a = T_mem ∧
    ∃ addr, addr ∈ addr_list a ∧ v = SimMemoryVariable addr (obj_size (a_data a)))).

Lemma dd_append_all_has {A} (f : A → edge) key l x0 : ∀ dict_,
  x0 ∈ l → pending (foldl (λ d x, dd_append d key (f x)) dict_ l) (edge_key (f x0)).
Proof.
  induction l as [|x l IH]; intros d Hin; [by apply elem_of_nil in Hin|].
  simpl. apply elem_of_cons in Hin as [->|Hin]; [|by apply IH].
  apply dd_append_all_pending. exists key, (f x). split; [|done].
  unfold dd_append. rewrite dd_get_insert. apply elem_of_app. right. left.
Qed.

Lemma def_lookup_has keep_data h live_defs variable type_ prevdefs code_loc :
  variable_type variable = Ok type_ →
  _def_lookup keep_data h live_defs variable = Ok prevdefs →
  code_loc ∈ default ∅ (defs_of h live_defs variable) →
  (code_loc, def_label keep_data type_ variable) ∈ map_to_list prevdefs.
Proof.
  intros Hty H Hin.
  destruct (def_lookup_spec keep_data h live_defs variable type_ Hty) as (p & Hp & Hspec).
  assert (p = prevdefs) as -> by congruence.
  apply elem_of_map_to_list. rewrite Hspec. by rewrite decide_True.
Qed.

Lemma track_action_use keep_data st a st' v code_loc :
  track_wf st → reads_var v a → track_action keep_data st a = Ok st' →
  code_loc ∈ default ∅ (track_defs st v) →
  settled st' (code_loc, code_loc_of a).
Proof.
  intros Hwf [Hrd [[Hty ->]|(Hty & addr & Haddr & ->)]] H Hin;
    unfold track_action in H; rewrite Hty in H.
  - unfold track_reg in H. rewrite decide_True in H by done.
    bind_inv H. inversion H; subst; clear H. left. simpl.
    pose proof (def_lookup_has _ _ _ _ "reg" _ _ (variable_type_reg _ _) Hx Hin) as Hp.
    apply (dd_append_all_has
             (λ p : CodeLocation * labels, (p.1, code_loc_of a, p.2)) _ _ _ _ Hp).
  - apply list_elem_of_split in Haddr as (l1 & l2 & Hl). rewrite Hl, for_each_app in H.
    bind_inv H. rewrite for_each_cons in H. bind_inv H.
    destruct (track_mem_loop_defs _ _ _ _ _ _ Hwf Hx) as [Hwf1 Hd1].
    assert (settled x0 (code_loc, code_loc_of a)) as Hs.
    { unfold track_mem in Hx0. bind_inv Hx0. rewrite decide_True in Hx1 by done.
      bind_inv Hx1. inversion Hx1; subst; clear Hx1.
      bind_inv Hx0. bind_inv Hx0. bind_inv Hx0. bind_inv Hx0.
      inversion Hx0; subst; clear Hx0. right; right. simpl.
      assert (code_loc ∈ default ∅ (defs_of (ts_heap x) (ts_live_defs x)
                (SimMemoryVariable addr (obj_size (a_data a))))) as Hin1.
      { fold (track_defs x (SimMemoryVariable addr (obj_size (a_data a)))).
        rewrite Hd1. rewrite decide_False; [done|]. intros [Hw _]. congruence. }
      pose proof (def_lookup_has _ _ _ _ "mem" _ _ (variable_type_mem _ _) Hx2 Hin1) as Hp.
      apply (add_edges_adds _ _
               (code_loc, code_loc_of a,
                def_label keep_data "mem" (SimMemoryVariable addr (obj_size (a_data a))))).
      apply list_elem_of_fmap.
      exists (code_loc,
              def_label keep_data "mem" (SimMemoryVariable addr (obj_size (a_data a)))).
      split; [done|exact Hp]. }
    revert H. apply (for_each_ind _ (λ s, settled s (code_loc, code_loc_of a))); [done|].
    intros ????. apply track_mem_settled.
Qed.

(** X13: a use is linked to the definitions that reach it.  When an action
    of the trace reads a variable (a register, or a memory cell at one of its
    addresses), the graph that [_track] returns has an edge to the code
    location of the read from the code location of the last action before it
    in the trace that kills the variable, and when there is none, from every
    code location that the incoming definitions give for the variable. *)
Theorem def_use_edge keep_data h g state live_defs pre a post v h' g' new_defs :
  wf_defs h live_defs →
  actions state = pre ++ a :: post → reads_var v a →
  _track keep_data h g state live_defs = Ok (h', g', new_defs) →
  ∀ code_loc,
    code_loc ∈ match last_kill v pre with
               | Some w => {[code_loc_of w]}
               | None => default ∅ (defs_of h live_defs v)
               end →
    has_edge g' code_loc (code_loc_of a) = true.
Proof.
  intros Hwf Hacts Hrd H code_loc Hin.
  unfold _track, track_loop in H. bind_inv H. inversion H; subst; clear H.
  rewrite Hacts, for_each_app in Hx. bind_inv Hx. rewrite for_each_cons in Hx. bind_inv Hx.
  destruct (track_loop_defs keep_data pre (track_init h g live_defs) x0 Hwf Hx0)
    as [Hwf0 Hd0].
  apply has_edge_true.
  apply (track_finish_settled x (code_loc, code_loc_of a)).
  revert Hx. apply (for_each_ind _ (λ s, settled s (code_loc, code_loc_of a))).
  - apply (track_action_use keep_data x0 a x1 v); [done..|].
    rewrite Hd0. by destruct (last_kill v pre).
  - intros ????. apply track_action_settled.
Qed.

Lemma def_use_edge_witness :
  let state := Demo.boring 0x2000
                 [Demo.reg_write 0x1000 2 16; Demo.reg_read 0x1000 4 16] in
  ∃ h' g' new_defs,
    _track false Demo.relabel_heap [] state Demo.relabel_defs = Ok (h', g', new_defs) ∧
    ∀ code_loc,
      code_loc ∈ match last_kill (SimRegisterVariable 16 32) [Demo.reg_write 0x1000 2 16] with
                 | Some w => {[code_loc_of w]}
                 | None => default ∅ (defs_of Demo.relabel_heap Demo.relabel_defs
                                         (SimRegisterVariable 16 32))
                 end →
      has_edge g' code_loc (code_loc_of (Demo.reg_read 0x1000 4 16)) = true.
Proof.
  intros state.
  destruct (is_Ok_inv (_track false Demo.relabel_heap [] state Demo.relabel_defs))
    as [[[h' g'] nd] E]; [vm_compute; reflexivity|].
  exists h', g', nd. split; [exact E|].
  apply (def_use_edge false Demo.relabel_heap [] state Demo.relabel_defs
           [Demo.reg_write 0x1000 2 16] (Demo.reg_read 0x1000 4 16) []
           (SimRegisterVariable 16 32) h' g' nd).
  - intros v r Hv. unfold Demo.relabel_defs in Hv.
    apply lookup_singleton_Some in Hv as [_ <-]. simpl. lia.
  - reflexivity.
  - split; [reflexivity|]. left. by split.
  - exact E.
Defined.

(** The last action of the list that writes the temporary [t]. *)
Fixpoint last_tmp_write (t : Z) (acts : list SimAction) : option SimAction :=
  match acts with
  | [] => None
  | a :: acts =>
      match last_tmp_write t acts with
      | Some a' => Some a'
      | None => if decide (writes_tmp t a) then Some a else None
      end
  end.

Lemma track_loop_temps_last keep_data t acts : ∀ st st',
  track_loop keep_data acts st = Ok st' →
  ts_temps st' !! t = match last_tmp_write t acts with
                      | Some w => Some (code_loc_of w)
                      | None => ts_temps st !! t
                      end.
Proof.
  induction acts as [|a acts IH]; intros st st' H.
  - by inversion H; subst.
  - unfold track_loop in H. rewrite for_each_cons in H. bind_inv H.
    rewrite (IH x st' H). simpl. destruct (last_tmp_write t acts); [done|].
    apply track_action_temps in Hx. rewrite Hx.
    destruct (decide (writes_tmp t a)) as [Hw|Hw].
    + destruct Hw as (Hw1 & Hw2 & <-). rewrite decide_True by by split_and!.
      by rewrite lookup_insert_eq.
    + destruct (decide (writes_tmp (a_tmp a) a)) as [Hw'|Hw']; [|done].
      rewrite lookup_insert_ne; [done|]. intros <-. by apply Hw.
Qed.

Lemma queue_tmp_edge_pending type_ loc st tmp st' s :
  ts_temps st !! tmp = Some s → queue_tmp_edge type_ loc st tmp = Ok st' →
  settled st' (s, loc).
Proof.
  intros Hs H. unfold queue_tmp_edge in H. rewrite Hs in H.
  inversion H; subst; clear H. right; left. simpl.
  exists tmp, (s, loc, <["type" := LStr type_]> {["data" := LInt tmp]}).
  split; [|done]. unfold dd_append. rewrite dd_get_insert. apply elem_of_app. right. left.
Qed.

Lemma track_action_tmp_use keep_data st a st' t s :
  reads_tmp t a → ts_temps st !! t = Some s → track_action keep_data st a = Ok st' →
  settled st' (s, code_loc_of a).
Proof.
  intros [(Hty & Hrd & <-)|[Hty Hin]] Hs H; unfold track_action in H; rewrite Hty in H.
  - unfold track_tmp in H. rewrite decide_True in H by done.
    by eapply queue_tmp_edge_pending.
  - apply list_elem_of_split in Hin as (l1 & l2 & Hl). rewrite Hl, for_each_app in H.
    bind_inv H. rewrite for_each_cons in H. bind_inv H.
    assert (ts_temps x = ts_temps st) as Htemps.
    { revert Hx. apply (for_each_ind _ (λ s0, ts_temps s0 = ts_temps st)); [done|].
      intros s1 tmp s2 _ Hs1 H1. apply queue_tmp_edge_temps in H1. congruence. }
    assert (settled x0 (s, code_loc_of a)) as Hs0.
    { eapply queue_tmp_edge_pending; [|done]. by rewrite Htemps. }
    revert H. apply (for_each_ind _ (λ s0, settled s0 (s, code_loc_of a))); [done|].
    intros ????. apply queue_tmp_edge_settled.
Qed.

(** X14: a read of a temporary is linked to the last write of the temporary.
    When [_track] returns and an action of the trace reads a temporary (a read
    action, or an exit that depends on it), some action before it in the trace
    writes that temporary, and the graph returned has an edge from the code
    location of the last such write to the code location of the read. *)
Theorem tmp_def_use_edge keep_data h g state live_defs pre a post t h' g' new_defs :
  actions state = pre ++ a :: post → reads_tmp t a →
  _track keep_data h g state live_defs = Ok (h', g', new_defs) →
  ∃ w, last_tmp_write t pre = Some w ∧
       has_edge g' (code_loc_of w) (code_loc_of a) = true.
Proof.
  intros Hacts Hrd H.
  unfold _track, track_loop in H. bind_inv H. inversion H; subst; clear H.
  rewrite Hacts, for_each_app in Hx. bind_inv Hx. rewrite for_each_cons in Hx. bind_inv Hx.
  pose proof (track_loop_temps_last keep_data t pre _ _ Hx0) as Hlast. simpl in Hlast.
  rewrite lookup_empty in Hlast.
  destruct (last_tmp_write t pre) as [w|].
  - exists w. split; [done|]. apply has_edge_true.
    apply (track_finish_settled x (code_loc_of w, code_loc_of a)).
    revert Hx. apply (for_each_ind _ (λ s, settled s (code_loc_of w, code_loc_of a))).
    + by apply (track_action_tmp_use keep_data x0 a x1 t).
    + intros ????. apply track_action_settled.
  - by rewrite (track_action_undefined keep_data x0 a t) in Hx1.
Qed.

Lemma tmp_def_use_edge_witness :
  ∃ h' g' new_defs,
    _track false [] [] Demo.tmp_block ∅ = Ok (h', g', new_defs) ∧
    ∃ w, last_tmp_write 3 [Demo.tmp_write 0x1000 1 3; Demo.tmp_read 0x1000 2 3] = Some w ∧
         has_edge g' (code_loc_of w) (code_loc_of (Demo.exit_on 0x1000 3 [3])) = true.
Proof.
  destruct (is_Ok_inv (_track false [] [] Demo.tmp_block ∅)) as [[[h' g'] nd] E];
    [vm_compute; reflexivity|].
  exists h', g', nd. split; [exact E|].
  apply (tmp_def_use_edge false [] [] Demo.tmp_block ∅
           [Demo.tmp_write 0x1000 1 3; Demo.tmp_read 0x1000 2 3]
           (Demo.exit_on 0x1000 3 [3]) [] 3 h' g' nd).
  - reflexivity.
  - right. split; [reflexivity|left].
  - exact E.
Defined.

(** * Annotating a group of pending edges *)

(** The labels of an edge after [subtype=v] has been added. *)
Definition add_subtype (v : string) (l : labels) : labels :=
  <["subtype" := LTuple (match l !! "subtype" with
                         | Some (LTuple t) => t
                         | _ => []
                         end ++ [LStr v])]> l.

(** The edge carries a ["subtype"] that is not a tuple. *)
Definition bad_subtype (e : edge) : Prop :=
  ∃ x, e.2 !! "subtype" = Some x ∧ ∀ t, x ≠ LTuple t.

Lemma annotate_edge_exact v acc (e : edge) :
  subtype_ok e.2 →
  annotate_edge (subtype v) acc e = Ok (acc ++ [(e.1, add_subtype v e.2)]).
Proof.
  intros Hok. unfold annotate_edge, subtype. rewrite for_each_one.
  unfold annotate_label, add_subtype; simpl.
  destruct (e.2 !! "subtype") as [x|] eqn:E; [|done].
  destruct (Hok x E) as [t ->]. done.
Qed.

Lemma annotate_edge_bad v acc (e : edge) :
  bad_subtype e → annotate_edge (subtype v) acc e = Err TypeError.
Proof.
  intros (x & E & Hx). unfold annotate_edge, subtype. rewrite for_each_one.
  unfold annotate_label; simpl. rewrite E.
  destruct x; try done. by destruct (Hx t).
Qed.

Lemma subtype_ok_or_bad (e : edge) : subtype_ok e.2 ∨ bad_subtype e.
Proof.
  destruct (e.2 !! "subtype") as [x|] eqn:E.
  - destruct x as [| | |t]; [right|right|right|left].
    1-3: eexists; split; [exact E|done].
    intros y Hy. rewrite E in Hy. inversion Hy; subst. by eexists.
  - left. intros y Hy. by rewrite E in Hy.
Qed.

Lemma annotate_edges_exact v es : ∀ acc,
  Forall (λ e : edge, subtype_ok e.2) es →
  for_each (annotate_edge (subtype v)) es acc
  = Ok (acc ++ ((λ e : edge, (e.1, add_subtype v e.2)) <$> es)).
Proof.
  induction es as [|e es IH]; intros acc Hall.
  - simpl. by rewrite app_nil_r.
  - apply Forall_cons in Hall as [He Hall].
    rewrite for_each_cons, annotate_edge_exact by done. simpl.
    rewrite IH by done. by rewrite <- app_assoc.
Qed.

Lemma annotate_edges_bad v es : ∀ acc,
  Exists bad_subtype es →
  for_each (annotate_edge (subtype v)) es acc = Err TypeError.
Proof.
  induction es as [|e es IH]; intros acc Hex; [by apply Exists_nil in Hex|].
  rewrite for_each_cons. destruct (subtype_ok_or_bad e) as [Hok|Hbad].
  - rewrite annotate_edge_exact by done. simpl. apply IH.
    apply Exists_cons in Hex as [(x & E & Hx)|Hex]; [|done].
    destruct (Hok x E) as [t ->]. by destruct (Hx t).
  - by rewrite annotate_edge_bad.
Qed.

(** X15: [_annotate_edges_in_dict] with [subtype=v] rewrites the group under
    the key: every edge of the group keeps its place, its end points and its
    other labels, and its ["subtype"] becomes the tuple it was (the empty tuple
    when it had none) with [v] added at the end; a key without a group gets
    the empty group, and the other groups are as before.  It raises [TypeError]
    when an edge of the group carries a ["subtype"] that is not a tuple. *)
Theorem annotate_dict_exact dict_ key v :
  (Forall (λ e : edge, subtype_ok e.2) (dd_get dict_ key) →
   _annotate_edges_in_dict dict_ key (subtype v)
   = Ok (<[key := (λ e : edge, (e.1, add_subtype v e.2)) <$> dd_get dict_ key]> dict_)) ∧
  (Exists bad_subtype (dd_get dict_ key) →
   _annotate_edges_in_dict dict_ key (subtype v) = Err TypeError).
Proof.
  unfold _annotate_edges_in_dict. split.
  - intros Hall. by rewrite annotate_edges_exact.
  - intros Hex. by rewrite annotate_edges_bad.
Qed.

(** * Every set object belongs to one variable *)

(** The snapshots of the nodes refer to allocated sets, and a set is only
    ever stored under the variable [owner] gives for it. *)
Definition snapshots_owned (owner : nat → SimVariable) (h : heap)
    (lpn : gmap nat live_defs_t) : Prop :=
  ∀ n d, lpn !! n = Some d → owned owner d ∧ wf_defs h d.

Definition own_inv (σ : ddg_state) : Prop :=
  ∃ owner, snapshots_owned owner (ddg_heap σ) (live_defs_per_node σ).

(** The invariant of the replay: [owner'] is [owner] on the sets that existed
    at the start. *)
Definition track_owned (owner : nat → SimVariable) (h0 : heap) (st : track_state) : Prop :=
  ∃ owner', (∀ r, (r < length h0)%nat → owner' r = owner r) ∧
            owned owner' (ts_live_defs st) ∧
            wf_defs (ts_heap st) (ts_live_defs st) ∧
            (length h0 ≤ length (ts_heap st))%nat.

Lemma kill_owned owner (h0 h : heap) (d : live_defs_t) v code_loc :
  (∃ owner', (∀ r, (r < length h0)%nat → owner' r = owner r) ∧
             owned owner' d ∧ wf_defs h d ∧ (length h0 ≤ length h)%nat) →
  ∃ owner', (∀ r, (r < length h0)%nat → owner' r = owner r) ∧
            owned owner' (_kill h d v code_loc).2 ∧
            wf_defs (_kill h d v code_loc).1 (_kill h d v code_loc).2 ∧
            (length h0 ≤ length (_kill h d v code_loc).1)%nat.
Proof.
  intros (owner' & Hagree & Hown & Hwf & Hlen).
  exists (λ r, if decide (r = length h) then v else owner' r). split_and!.
  - intros r Hr. rewrite decide_False by lia. by apply Hagree.
  - intros v0 r0. unfold _kill; simpl. destruct (decide (v0 = v)) as [->|Hne].
    + rewrite lookup_insert_eq. intros [= <-]. by rewrite decide_True.
    + rewrite lookup_insert_ne by done. intros E.
      rewrite decide_False; [by apply Hown|]. apply Hwf in E. lia.
  - by apply kill_defs.
  - unfold _kill; simpl. rewrite length_app. lia.
Qed.

Lemma track_action_owned owner h0 keep_data st a st' :
  track_owned owner h0 st → track_action keep_data st a = Ok st' →
  track_owned owner h0 st'.
Proof.
  intros Hst H. unfold track_action in H. destruct (a_type a).
  - revert H. apply (for_each_ind _ (track_owned owner h0)); [done|].
    intros s1 addr s2 _ Hs1 H. unfold track_mem in H.
    bind_inv H. bind_inv H. bind_inv H. bind_inv H. bind_inv H.
    inversion H; subst; clear H. unfold track_owned; simpl.
    destruct (decide (a_action a = A_write)); [by apply kill_owned|done].
  - unfold track_reg in H. destruct (decide _).
    + bind_inv H. by inversion H; subst.
    + inversion H; subst. unfold track_owned; simpl. by apply kill_owned.
  - unfold track_tmp in H. destruct (decide _).
    + unfold queue_tmp_edge in H. destruct (ts_temps st !! a_tmp a); [|done].
      by inversion H; subst.
    + by inversion H; subst.
  - revert H. apply (for_each_ind _ (track_owned owner h0)); [done|].
    intros s1 tmp s2 _ Hs1 H. unfold queue_tmp_edge in H.
    destruct (ts_temps s1 !! tmp); [|done]. by inversion H; subst.
  - by inversion H; subst.
Qed.

Lemma track_owner owner keep_data h g state live_defs h' g' new_defs :
  owned owner live_defs → wf_defs h live_defs →
  _track keep_data h g state live_defs = Ok (h', g', new_defs) →
  ∃ owner', (∀ r, (r < length h)%nat → owner' r = owner r) ∧
            owned owner' new_defs ∧ wf_defs h' new_defs ∧ (length h ≤ length h')%nat.
Proof.
  intros Hown Hwf H. unfold _track in H. bind_inv H. inversion H; subst; clear H.
  assert (track_owned owner h x) as Hst; [|exact Hst].
  revert Hx. unfold track_loop. apply (for_each_ind _ (track_owned owner h)).
  - exists owner. by split_and!.
  - intros s1 a s2 _. apply track_action_owned.
Qed.

Lemma owned_agree owner owner' (h : heap) (d : live_defs_t) :
  (∀ r, (r < length h)%nat → owner' r = owner r) →
  owned owner d → wf_defs h d → owned owner' d.
Proof. intros Hagree Hown Hwf v r E. rewrite Hagree; [by apply Hown|by eapply Hwf]. Qed.

Lemma wf_defs_longer (h h' : heap) d :
  (length h ≤ length h')%nat → wf_defs h d → wf_defs h' d.
Proof. intros Hlen Hwf v r E. apply Hwf in E. lia. Qed.

Lemma snapshots_default owner h (lpn : gmap nat live_defs_t) n :
  snapshots_owned owner h lpn →
  owned owner (default ∅ (lpn !! n)) ∧ wf_defs h (default ∅ (lpn !! n)).
Proof.
  intros Hs. destruct (lpn !! n) as [d|] eqn:E; simpl; [by eapply Hs|].
  split; intros v r Hv; by rewrite lookup_empty in Hv.
Qed.

(** The hypotheses of the merge hold where [_construct] merges. *)
Lemma merge_point_owned owner keep_data σ state (node successing_node : nat) h1 g1 new_defs :
  snapshots_owned owner (ddg_heap σ) (live_defs_per_node σ) →
  _track keep_data (ddg_heap σ) (ddg_graph σ) state
    (default ∅ (live_defs_per_node σ !! node)) = Ok (h1, g1, new_defs) →
  ∃ owner',
    snapshots_owned owner' h1 (live_defs_per_node σ) ∧
    owned owner' (default ∅ (live_defs_per_node σ !! successing_node)) ∧
    owned owner' new_defs ∧
    wf_defs h1 (default ∅ (live_defs_per_node σ !! successing_node)) ∧
    wf_defs h1 new_defs.
Proof.
  intros Hs H. destruct (snapshots_default owner _ _ node Hs) as [Hown Hwf].
  destruct (track_owner owner _ _ _ _ _ _ _ _ Hown Hwf H)
    as (owner' & Hagree & Hown' & Hwf' & Hlen).
  destruct (snapshots_default owner _ _ successing_node Hs) as [HownD HwfD].
  exists owner'. split_and!; [|by eapply owned_agree|done|by eapply wf_defs_longer|done].
  intros n d E. destruct (Hs n d E). split; [by eapply owned_agree|by eapply wf_defs_longer].
Qed.

Lemma process_state_own_inv keep_data cfg node σ state σ' :
  own_inv σ → process_state keep_data cfg node σ state = Ok σ' → own_inv σ'.
Proof.
  intros [owner Hs] H. unfold process_state in H.
  destruct (_ && _); [inversion H; subst; by exists owner|].
  destruct (filter _ _) as [|successing_node rest]; [inversion H; subst; by exists owner|].
  bind_inv H. destruct x as [[h1 g1] new_defs].
  destruct (merge_point_owned owner keep_data σ state node successing_node h1 g1 new_defs Hs Hx)
    as (owner' & Hs' & HoD & HoN & HwD & HwN).
  destruct (merge_defs_post owner' _ h1 new_defs HoD HoN HwD HwN)
    as (P1 & P2 & P3 & P4 & _).
  destruct (merge_defs _ _ _) as [[defs h2] changed]. simpl in *.
  inversion H; subst; clear H. exists owner'. simpl.
  intros n d. destruct (decide (n = successing_node)) as [->|Hn].
  - rewrite lookup_insert_eq. intros [= <-].
    assert (∀ v r, defs !! v = Some r →
                   default ∅ (live_defs_per_node σ !! successing_node) !! v = Some r ∨
                   new_defs !! v = Some r) as Hinv.
    { intros v r Hv.
      destruct (default ∅ (live_defs_per_node σ !! successing_node) !! v) as [r'|] eqn:ED.
      - left. rewrite (P2 v r' ED) in Hv. congruence.
      - right. destruct (new_defs !! v) as [r0|] eqn:EN.
        + rewrite (P3 v r0 ED) in Hv by by apply elem_of_map_to_list. congruence.
        + rewrite (P4 v ED) in Hv by by apply not_elem_of_map_to_list_fst. done. }
    split; intros v r Hv; rewrite ?P1; destruct (Hinv v r Hv);
      [by apply HoD|by apply HoN|by eapply HwD|by eapply HwN].
  - rewrite lookup_insert_ne by done. intros E. destruct (Hs' n d E) as [Ho Hw].
    split; [done|]. intros v r Hv. rewrite P1. by eapply Hw.
Qed.

Lemma construct_step_own_inv keep_data cfg σ σ' :
  own_inv σ → construct_step keep_data cfg σ = Ok σ' → own_inv σ'.
Proof.
  intros [owner Hs] H. unfold construct_step in H.
  destruct (worklist σ) as [|node worklist']; [inversion H; subst; by exists owner|].
  destruct (decide _) as [_|_]; [|done].
  revert H. apply (for_each_ind _ own_inv).
  - exists owner. simpl. destruct (live_defs_per_node σ !! node) eqn:E; [done|].
    intros n d. destruct (decide (n = node)) as [->|Hn].
    + rewrite lookup_insert_eq. intros [= <-].
      split; intros v r Hv; by rewrite lookup_empty in Hv.
    + rewrite lookup_insert_ne by done. apply Hs.
  - intros s1 state s2 _. apply process_state_own_inv.
Qed.

(** X16: every set object belongs to one variable.  Throughout the
    construction the snapshots refer to allocated sets and no set is stored
    under two variables: this holds when the loop starts, after every
    iteration and in the final state; and where the loop merges the
    definitions of a replay into the snapshot of a successor, both are owned in
    this way and refer to allocated sets. *)
Theorem snapshots_own_their_sets keep_data cfg :
  (∀ initial_node, own_inv (construct_init cfg initial_node)) ∧
  (∀ σ σ', own_inv σ → construct_step keep_data cfg σ = Ok σ' → own_inv σ') ∧
  (∀ σ state node successing_node h1 g1 new_defs,
     own_inv σ →
     _track keep_data (ddg_heap σ) (ddg_graph σ) state
       (default ∅ (live_defs_per_node σ !! node)) = Ok (h1, g1, new_defs) →
     ∃ owner,
       owned owner (default ∅ (live_defs_per_node σ !! successing_node)) ∧
       owned owner new_defs ∧
       wf_defs h1 (default ∅ (live_defs_per_node σ !! successing_node)) ∧
       wf_defs h1 new_defs) ∧
  (∀ fuel start σ, _construct fuel keep_data cfg start = Some (Ok σ) → own_inv σ).
Proof.
  assert (∀ initial_node, own_inv (construct_init cfg initial_node)) as Hinit.
  { intros initial_node. exists (λ _, SimTemporaryVariable 0). intros n d E.
    simpl in E. by rewrite lookup_empty in E. }
  split_and!.
  - done.
  - intros σ σ'. apply construct_step_own_inv.
  - intros σ state node successing_node h1 g1 new_defs [owner Hs] H.
    destruct (merge_point_owned owner keep_data σ state node successing_node h1 g1
                new_defs Hs H) as (owner' & _ & ?). by exists owner'.
  - intros fuel start. unfold _construct.
    generalize (Hinit (get_any_node cfg start)).
    generalize (construct_init cfg (get_any_node cfg start)).
    induction fuel as [|fuel IH]; intros σ0 Hok σ H; simpl in H.
    + destruct (worklist σ0); [|done]. by inversion H; subst.
    + destruct (worklist σ0) eqn:Ewl; [by inversion H; subst|].
      destruct (construct_step keep_data cfg σ0) as [σ1|e] eqn:Hstep; [|done].
      apply (IH σ1); [|done]. by eapply construct_step_own_inv.
Qed.

(** * The edges of the graph join a definition to a use *)

(** The action defines something: it kills a variable or writes a temporary. *)
Definition is_def (a : SimAction) : Prop := kills a ≠ [] ∨ writes_tmp (a_tmp a) a.

(** The action uses something: a read of memory, of a register or of a
    temporary, or an exit. *)
Definition is_use (a : SimAction) : Prop :=
  (a_action a = A_read ∧ (a_type a = T_mem ∨ a_type a = T_reg ∨ a_type a = T_tmp)) ∨
  a_type a = T_exit.

(** An action of a final state of a node of the CFG. *)
Definition program_action (cfg : CFG) (a : SimAction) : Prop :=
  ∃ n state, state ∈ final_states (cfg_node cfg n) ∧ a ∈ actions state.

Definition def_loc (cfg : CFG) (code_loc : CodeLocation) : Prop :=
  ∃ a, program_action cfg a ∧ is_def a ∧ code_loc_of a = code_loc.

Definition use_loc (cfg : CFG) (code_loc : CodeLocation) : Prop :=
  ∃ a, program_action cfg a ∧ is_use a ∧ code_loc_of a = code_loc.

Definition edge_ok (cfg : CFG) (e : edge) : Prop :=
  def_loc cfg e.1.1 ∧ use_loc cfg e.1.2 ∧
  ∃ type_, e.2 !! "type" = Some (LStr type_) ∧ type_ ∈ ["mem"; "reg"; "tmp"; "exit"].

(** The sets hold code locations of definitions. *)
Definition heap_defs (cfg : CFG) (h : heap) : Prop :=
  ∀ r code_loc, code_loc ∈ deref h r → def_loc cfg code_loc.

Definition track_edges_ok (cfg : CFG) (g0 : DiGraph) (st : track_state) : Prop :=
  track_inv_Q (edge_ok cfg) g0 st ∧ heap_defs cfg (ts_heap st) ∧
  ∀ t s, ts_temps st !! t = Some s → def_loc cfg s.

Lemma edge_ok_annotated cfg e e' : annotated e e' → edge_ok cfg e → edge_ok cfg e'.
Proof.
  intros (H1 & Hk & _) (Hs & Ht & ty & Hty & Hin). unfold edge_ok.
  rewrite H1, (Hk "type") by done. by eauto.
Qed.

Lemma kill_heap_defs cfg (h : heap) code_loc :
  heap_defs cfg h → def_loc cfg code_loc → heap_defs cfg (h ++ [{[code_loc]}]).
Proof.
  intros Hh Hloc r l Hl. unfold deref in Hl; simpl in Hl.
  destruct ((h ++ [{[code_loc]}]) !! r) as [s|] eqn:E; simpl in Hl;
    [|by apply elem_of_empty in Hl].
  apply lookup_app_Some in E as [E|[_ E]].
  - apply (Hh r). unfold deref. by rewrite E.
  - apply list_lookup_singleton_Some in E as [_ <-].
    apply elem_of_singleton in Hl. by subst.
Qed.

Lemma def_lookup_edges_ok cfg keep_data h live_defs variable type_ cur prevdefs :
  heap_defs cfg h → use_loc cfg cur →
  variable_type variable = Ok type_ →
  _def_lookup keep_data h live_defs variable = Ok prevdefs →
  Forall (edge_ok cfg)
    ((λ p : CodeLocation * labels, (p.1, cur, p.2)) <$> map_to_list prevdefs).
Proof.
  intros Hh Hcur Hty H.
  destruct (def_lookup_spec keep_data h live_defs variable type_ Hty) as (p & Hp & Hspec).
  assert (p = prevdefs) as -> by congruence.
  apply Forall_fmap, Forall_forall. intros [l lbl] Hin.
  apply elem_of_map_to_list in Hin. rewrite Hspec in Hin.
  destruct (decide _) as [Hl|]; [|done]. inversion Hin; subst; clear Hin.
  split_and!; simpl; [|done|].
  - unfold defs_of in Hl. destruct (live_defs !! variable) as [r|]; simpl in Hl;
      [by apply (Hh r)|by apply elem_of_empty in Hl].
  - exists type_. split; [apply def_label_type|].
    destruct variable; simpl in Hty; inversion Hty; subst; set_solver.
Qed.

Lemma track_mem_edges_ok cfg g0 keep_data a st addr st' :
  program_action cfg a → a_type a = T_mem → addr ∈ addr_list a →
  track_edges_ok cfg g0 st →
  track_mem keep_data a (code_loc_of a) st addr = Ok st' →
  track_edges_ok cfg g0 st'.
Proof.
  intros Ha Hty Haddr ((Hr & Ht & Hg) & Hh & Htmp) H. unfold track_mem in H.
  bind_inv H. rename x into g, Hx into Hgraph.
  bind_inv H. rename x into r1, Hx into Hr1.
  bind_inv H. rename x into t1, Hx into Ht1.
  bind_inv H. rename x into r2, Hx into Hr2.
  bind_inv H. rename x into t2, Hx into Ht2.
  inversion H; subst; clear H. unfold track_edges_ok, track_inv_Q; simpl. split_and!.
  - eapply annotate_all_dict_all; [apply edge_ok_annotated| |exact Hr2].
    eapply annotate_all_dict_all; [apply edge_ok_annotated| |exact Hr1]. done.
  - eapply annotate_all_dict_all; [apply edge_ok_annotated| |exact Ht2].
    eapply annotate_all_dict_all; [apply edge_ok_annotated| |exact Ht1]. done.
  - destruct (decide (a_action a = A_read)) as [Hrd|Hrd].
    + bind_inv Hgraph. inversion Hgraph; subst. apply add_edges_new; [|done].
      eapply (def_lookup_edges_ok cfg _ _ _ _ "mem");
        [done| |apply variable_type_mem|exact Hx].
      exists a. split_and!; [done| |done]. left. split; [done|by left].
    + by inversion Hgraph; subst.
  - destruct (decide (a_action a = A_write)) as [Hw|Hw]; [|done].
    unfold _kill; simpl.
    apply kill_heap_defs; [done|]. exists a. split_and!; [done| |done].
    left. unfold kills. rewrite Hty, decide_True by done.
    apply list_elem_of_split in Haddr as (l1 & l2 & ->). rewrite fmap_app.
    by destruct l1.
  - done.
Qed.

Lemma queue_tmp_edge_ok cfg g0 type_ a st tmp st' :
  program_action cfg a → is_use a → type_ ∈ ["tmp"; "exit"] →
  track_edges_ok cfg g0 st →
  queue_tmp_edge type_ (code_loc_of a) st tmp = Ok st' →
  track_edges_ok cfg g0 st'.
Proof.
  intros Ha Huse Hty ((Hr & Ht & Hg) & Hh & Htmp) H. unfold queue_tmp_edge in H.
  destruct (ts_temps st !! tmp) as [s|] eqn:Hs; [|done].
  inversion H; subst; clear H.
  destruct (dump_if_present_Q (edge_ok cfg) g0 (ts_graph st) (ts_temps_to_edges st) tmp Ht Hg)
    as [Hg' Ht'].
  unfold track_edges_ok, track_inv_Q; simpl. split_and!; [done| |done..].
  apply dict_all_append; [done|]. split_and!; simpl.
  - by eapply Htmp.
  - by exists a.
  - exists type_. split; [by rewrite lookup_insert_eq|]. set_solver.
Qed.

Lemma track_action_edges_ok cfg g0 keep_data st a st' :
  program_action cfg a → track_edges_ok cfg g0 st →
  track_action keep_data st a = Ok st' → track_edges_ok cfg g0 st'.
Proof.
  intros Ha Hst H. unfold track_action in H. destruct (a_type a) eqn:Hty.
  - revert H. apply (for_each_ind _ (track_edges_ok cfg g0)); [done|].
    intros s1 addr s2 Haddr Hs1. by apply track_mem_edges_ok.
  - destruct Hst as ((Hr & Ht & Hg) & Hh & Htmp).
    unfold track_reg in H. destruct (decide (a_action a = A_read)) as [Hrd|Hrd].
    + bind_inv H. inversion H; subst; clear H.
      destruct (dump_if_present_Q (edge_ok cfg) g0 (ts_graph st) (ts_regs_to_edges st)
                  (a_offset a) Hr Hg) as [Hg' Hr'].
      unfold track_edges_ok, track_inv_Q; simpl. split_and!; [|done..].
      assert (Forall (edge_ok cfg)
                ((λ p : CodeLocation * labels, (p.1, code_loc_of a, p.2))
                   <$> map_to_list x)) as Hall.
      { eapply (def_lookup_edges_ok cfg _ _ _ _ "reg");
          [done| |apply variable_type_reg|exact Hx].
        exists a. split_and!; [done| |done]. left. split; [done|]. right. by left. }
      rewrite Forall_fmap in Hall. revert Hr' Hall.
      generalize (dump_if_present (ts_graph st) (ts_regs_to_edges st) (a_offset a)).2.
      induction (map_to_list x) as [|p l IH]; intros d Hd Hall; [done|].
      apply Forall_cons in Hall as [Hp Hall]. simpl. apply IH; [|done].
      by apply dict_all_append.
    + inversion H; subst; clear H. unfold track_edges_ok, track_inv_Q; simpl.
      split_and!; [done..| |done]. apply kill_heap_defs; [done|].
      exists a. split_and!; [done| |done]. left. unfold kills.
      by rewrite Hty, decide_False.
  - unfold track_tmp in H. destruct (decide (a_action a = A_read)) as [Hrd|Hrd].
    + eapply (queue_tmp_edge_ok cfg g0 "tmp" a); [done| |set_solver|done..].
      left. split; [done|]. right. by right.
    + inversion H; subst; clear H. destruct Hst as ((Hr & Ht & Hg) & Hh & Htmp).
      unfold track_edges_ok, track_inv_Q; simpl. split_and!; [done..|].
      intros t s. destruct (decide (t = a_tmp a)) as [->|Hn].
      * rewrite lookup_insert_eq. intros [= <-]. exists a. split_and!; [done| |done].
        right. split_and!; [done| |done]. by destruct (a_action a).
      * rewrite lookup_insert_ne by done. apply Htmp.
  - revert H. apply (for_each_ind _ (track_edges_ok cfg g0)); [done|].
    intros s1 tmp s2 _ Hs1. apply (queue_tmp_edge_ok cfg g0 "exit" a); [done| |set_solver|done].
    by right.
  - by inversion H; subst.
Qed.

Lemma track_edges keep_data cfg h g state live_defs h' g' new_defs :
  (∀ a, a ∈ actions state → program_action cfg a) →
  heap_defs cfg h →
  _track keep_data h g state live_defs = Ok (h', g', new_defs) →
  graph_new (edge_ok cfg) g g' ∧ heap_defs cfg h'.
Proof.
  intros Ha Hh H. unfold _track in H. bind_inv H. inversion H; subst; clear H.
  assert (track_edges_ok cfg g x) as (Hinv & Hh' & _).
  { revert Hx. unfold track_loop. apply (for_each_ind _ (track_edges_ok cfg g)).
    - split_and!; simpl; [split_and!; [apply dict_all_empty..|apply graph_new_refl]|done|].
      intros t s Hs. by rewrite lookup_empty in Hs.
    - intros s1 a s2 Hin Hs1. apply track_action_edges_ok; [by apply Ha|done]. }
  split; [|done]. by apply track_finish_Q.
Qed.

Lemma merge_code_loc_heap_defs cfg r' locs : ∀ hc,
  heap_defs cfg hc.1 → (∀ l, l ∈ locs → def_loc cfg l) →
  heap_defs cfg (foldl (merge_code_loc r') hc locs).1.
Proof.
  induction locs as [|l locs IH]; intros hc Hh Hlocs; [done|].
  simpl. apply IH; [|intros ??; apply Hlocs; by right].
  unfold merge_code_loc. destruct (decide _); [done|]. simpl.
  intros r0 l0 Hl0. destruct (decide (r0 = r')) as [->|Hne].
  - unfold deref in Hl0. destruct (<[r' := _]> hc.1 !! r') as [s|] eqn:E; simpl in Hl0;
      [|by apply elem_of_empty in Hl0].
    apply list_lookup_insert_Some in E as [(_ & <- & _)|[? _]]; [|done].
    apply elem_of_union in Hl0 as [Hl0|Hl0]; [|by apply (Hh r')].
    apply elem_of_singleton in Hl0. subst. apply Hlocs. left.
  - rewrite deref_insert_ne in Hl0 by done. by apply (Hh r0).
Qed.

Lemma merge_defs_heap_defs cfg defs h new_defs :
  heap_defs cfg h → heap_defs cfg (merge_defs defs h new_defs).1.2.
Proof.
  unfold merge_defs. generalize (map_to_list new_defs) false. intros l. revert defs h.
  induction l as [|[v r] l IH]; intros defs h c Hh; [done|].
  change (foldl merge_var (defs, h, c) ((v, r) :: l))
    with (foldl merge_var (merge_var (defs, h, c) (v, r)) l).
  destruct (defs !! v) as [r'|] eqn:E.
  - rewrite (merge_var_present _ _ _ _ _ r') by done. apply IH.
    apply (merge_code_loc_heap_defs cfg r' _ (h, c)); [done|].
    intros l0 Hl0. apply elem_of_elements in Hl0. by apply (Hh r).
  - rewrite merge_var_absent by done. by apply IH.
Qed.

Definition graph_ok (cfg : CFG) (σ : ddg_state) : Prop :=
  Forall (edge_ok cfg) (ddg_graph σ) ∧ heap_defs cfg (ddg_heap σ).

Lemma process_state_graph_ok keep_data cfg node σ state σ' :
  state ∈ final_states (cfg_node cfg node) →
  graph_ok cfg σ → process_state keep_data cfg node σ state = Ok σ' → graph_ok cfg σ'.
Proof.
  intros Hstate [Hg Hh] H. unfold process_state in H.
  destruct (_ && _); [inversion H; subst; by split|].
  destruct (filter _ _) as [|successing_node rest]; [inversion H; subst; by split|].
  bind_inv H. destruct x as [[h1 g1] new_defs].
  apply track_edges with (cfg := cfg) in Hx as [(new & -> & Hnew) Hh1]; [| |done].
  2:{ intros a Ha. by exists node, state. }
  pose proof (merge_defs_heap_defs cfg
                (default ∅ (live_defs_per_node σ !! successing_node)) h1 new_defs Hh1) as Hh2.
  destruct (merge_defs _ _ _) as [[defs h2] changed]. simpl in *.
  inversion H; subst; clear H. split; simpl; [|done].
  apply Forall_app. by split.
Qed.

(** X17: every edge of the graph joins a definition to a use.  In the graph
    that construction returns, the source of an edge is the code location of
    an action of the CFG that kills a variable or writes a temporary, its
    target is the code location of an action of the CFG that reads (memory, a
    register or a temporary) or of an exit, and its label ["type"] is one of
    "mem", "reg", "tmp" and "exit". *)
Theorem graph_edges_join_def_to_use fuel keep_data cfg start σ :
  _construct fuel keep_data cfg start = Some (Ok σ) →
  ∀ e : edge, e ∈ ddg_graph σ →
    def_loc cfg e.1.1 ∧ use_loc cfg e.1.2 ∧
    ∃ type_, e.2 !! "type" = Some (LStr type_) ∧ type_ ∈ ["mem"; "reg"; "tmp"; "exit"].
Proof.
  intros H.
  assert (graph_ok cfg σ) as [Hg _]; [|intros e He; by apply (proj1 (Forall_forall _ _) Hg)].
  revert H. unfold _construct.
  assert (graph_ok cfg (construct_init cfg (get_any_node cfg start))) as Hinit.
  { split; simpl; [constructor|]. intros r l Hl. unfold deref in Hl.
    rewrite lookup_nil in Hl. by apply elem_of_empty in Hl. }
  revert Hinit. generalize (construct_init cfg (get_any_node cfg start)).
  induction fuel as [|fuel IH]; intros σ0 Hok H; simpl in H.
  - destruct (worklist σ0); [|done]. by inversion H; subst.
  - destruct (worklist σ0) as [|node worklist'] eqn:Ewl; [by inversion H; subst|].
    destruct (construct_step keep_data cfg σ0) as [σ1|e] eqn:Hstep; [|done].
    apply (IH σ1); [|done]. unfold construct_step in Hstep. rewrite Ewl in Hstep.
    destruct (decide _) as [_|_]; [|done].
    revert Hstep. apply (for_each_ind _ (graph_ok cfg)); [done|].
    intros s1 state s2 Hstate Hs1. by apply process_state_graph_ok.
Qed.

Lemma graph_edges_join_def_to_use_witness :
  ∃ σ, _construct 10 false Demo.chain 0x1000 = Some (Ok σ) ∧
       ∀ e : edge, e ∈ ddg_graph σ →
         def_loc Demo.chain e.1.1 ∧ use_loc Demo.chain e.1.2 ∧
         ∃ type_, e.2 !! "type" = Some (LStr type_) ∧
                  type_ ∈ ["mem"; "reg"; "tmp"; "exit"].
Proof.
  destruct (returns_inv (_construct 10 false Demo.chain 0x1000)) as [σ E];
    [vm_compute; reflexivity|].
  exists σ. split; [exact E|].
  exact (graph_edges_join_def_to_use 10 false Demo.chain 0x1000 σ E).
Defined.

(** * What [keep_data] does not change *)

(** The dependences of a list of edges: its (source, target) pairs. *)
Definition keyset (g : list edge) : gset (CodeLocation * CodeLocation) :=
  list_to_set (edge_key <$> g).

(** Two dictionaries of pending edges with the same keys and, under each key,
    the same dependences. *)
Definition dict_sim (d1 d2 : edge_dict) : Prop :=
  ∀ k, keyset <$> d1 !! k = keyset <$> d2 !! k.

Definition res_sim {A} (R : A → A → Prop) (r1 r2 : res A) : Prop :=
  match r1, r2 with
  | Ok a, Ok b => R a b
  | Err e1, Err e2 => e1 = e2
  | _, _ => False
  end.

Lemma for_each_sim {A S} (R : S → S → Prop) (b1 b2 : S → A → res S) l : ∀ s1 s2,
  R s1 s2 →
  (∀ x s1 s2, x ∈ l → R s1 s2 → res_sim R (b1 s1 x) (b2 s2 x)) →
  res_sim R (for_each b1 l s1) (for_each b2 l s2).
Proof.
  induction l as [|x l IH]; intros s1 s2 HR Hstep; [done|].
  rewrite !for_each_cons. pose proof (Hstep x s1 s2 (list_elem_of_here _ _) HR) as Hx.
  destruct (b1 s1 x) as [s1'|e1], (b2 s2 x) as [s2'|e2]; simpl in *; try done.
  apply IH; [done|]. intros y ?? Hy. apply Hstep. by right.
Qed.

Lemma elem_of_keyset g p : p ∈ keyset g ↔ p ∈ edge_key <$> g.
Proof. unfold keyset. apply elem_of_list_to_set. Qed.

Lemma keyset_app g1 g2 : keyset (g1 ++ g2) = keyset g1 ∪ keyset g2.
Proof. unfold keyset. by rewrite fmap_app, list_to_set_app_L. Qed.

Lemma keyset_add_edge g s t l : keyset (_add_edge g s t l) = keyset g ∪ {[(s, t)]}.
Proof.
  rewrite add_edge_spec. destruct (has_edge g s t) eqn:E.
  - apply has_edge_true, elem_of_keyset in E. set_solver.
  - rewrite keyset_app. f_equal. unfold keyset. simpl. by rewrite (right_id_L ∅ (∪)).
Qed.

Lemma keyset_add_edges es : ∀ g, keyset (add_edges g es) = keyset g ∪ keyset es.
Proof.
  induction es as [|e es IH]; intros g.
  - unfold keyset at 3. simpl. by rewrite (right_id_L ∅ (∪)).
  - rewrite add_edges_cons, IH, keyset_add_edge.
    change (e :: es) with ([e] ++ es). rewrite (keyset_app [e] es).
    assert (keyset [e] = {[(e.1.1, e.1.2)]}) as ->.
    { unfold keyset. destruct e as [[s t] l]. simpl. by rewrite (right_id_L ∅ (∪)). }
    by rewrite (assoc_L (∪)).
Qed.

Lemma keyset_nil_inv es : keyset es = ∅ → es = [].
Proof.
  destruct es as [|e es]; [done|]. intros H.
  assert (edge_key e ∈ keyset (e :: es)) as Hin by (apply elem_of_keyset; left).
  rewrite H in Hin. by apply elem_of_empty in Hin.
Qed.

Lemma dict_sim_get d1 d2 k : dict_sim d1 d2 → keyset (dd_get d1 k) = keyset (dd_get d2 k).
Proof.
  intros Hd. specialize (Hd k). unfold dd_get.
  destruct (d1 !! k), (d2 !! k); simpl in *; congruence.
Qed.

Lemma dict_sim_is_Some d1 d2 k : dict_sim d1 d2 → is_Some (d1 !! k) ↔ is_Some (d2 !! k).
Proof.
  intros Hd. specialize (Hd k).
  destruct (d1 !! k), (d2 !! k); simpl in *; try done; split; by eauto.
Qed.

Lemma dict_sim_insert d1 d2 k es1 es2 :
  keyset es1 = keyset es2 → dict_sim d1 d2 → dict_sim (<[k := es1]> d1) (<[k := es2]> d2).
Proof.
  intros Hes Hd k'. destruct (decide (k = k')) as [->|Hne].
  - rewrite !lookup_insert_eq. simpl. by rewrite Hes.
  - rewrite !lookup_insert_ne by done. apply Hd.
Qed.

Lemma dict_sim_delete d1 d2 k : dict_sim d1 d2 → dict_sim (delete k d1) (delete k d2).
Proof.
  intros Hd k'. destruct (decide (k = k')) as [->|Hne].
  - by rewrite !lookup_delete_eq.
  - rewrite !lookup_delete_ne by done. apply Hd.
Qed.

Lemma Forall2_annotated_keyset es es' : Forall2 annotated es es' → keyset es' = keyset es.
Proof.
  intros H. unfold keyset. f_equal.
  induction H as [|e e' es es' (He & _) Hes IH]; [done|].
  rewrite !fmap_cons, IH. unfold edge_key. by rewrite He.
Qed.

Lemma bind_sim {A B} (R1 : A → A → Prop) (R2 : B → B → Prop) m1 m2 (k1 k2 : A → res B) :
  res_sim R1 m1 m2 → (∀ a b, R1 a b → res_sim R2 (k1 a) (k2 b)) →
  res_sim R2 (m1 ≫= k1) (m2 ≫= k2).
Proof. intros Hm Hk. destruct m1, m2; simpl in *; try done. by apply Hk. Qed.

(** Dictionaries with the same dependences, whose labels can be annotated. *)
Definition dict_rel (d1 d2 : edge_dict) : Prop :=
  dict_sim d1 d2 ∧
  dict_all (λ e : edge, subtype_ok e.2) d1 ∧ dict_all (λ e : edge, subtype_ok e.2) d2.

Lemma annotate_dict_sim d1 d2 key v :
  dict_rel d1 d2 →
  res_sim dict_rel (_annotate_edges_in_dict d1 key (subtype v))
    (_annotate_edges_in_dict d2 key (subtype v)).
Proof.
  intros (Hsim & Hok1 & Hok2).
  destruct (annotate_dict_total d1 key v Hok1) as [d1' H1].
  destruct (annotate_dict_total d2 key v Hok2) as [d2' H2].
  rewrite H1, H2. simpl. split_and!.
  - apply annotate_dict_spec in H1 as (es1 & -> & Hes1).
    apply annotate_dict_spec in H2 as (es2 & -> & Hes2).
    apply dict_sim_insert; [|done].
    rewrite (Forall2_annotated_keyset _ _ Hes1), (Forall2_annotated_keyset _ _ Hes2).
    by apply dict_sim_get.
  - eapply annotate_dict_all; [apply annotated_subtype_ok|exact Hok1|exact H1].
  - eapply annotate_dict_all; [apply annotated_subtype_ok|exact Hok2|exact H2].
Qed.

Lemma annotate_all_sim v d1 d2 deps :
  dict_rel d1 d2 → res_sim dict_rel (annotate_all v d1 deps) (annotate_all v d2 deps).
Proof.
  intros Hrel. unfold annotate_all. apply for_each_sim; [done|].
  intros key s1 s2 _. apply annotate_dict_sim.
Qed.

(** The dependences that a lookup gives do not depend on [keep_data]. *)
Lemma def_edges_keyset keep_data h live_defs variable type_ cur prevdefs :
  variable_type variable = Ok type_ →
  _def_lookup keep_data h live_defs variable = Ok prevdefs →
  keyset ((λ p : CodeLocation * labels, (p.1, cur, p.2)) <$> map_to_list prevdefs)
  = set_map (λ l, (l, cur)) (default ∅ (defs_of h live_defs variable)).
Proof.
  intros Hty H.
  destruct (def_lookup_spec keep_data h live_defs variable type_ Hty) as (p & Hp & Hspec).
  assert (p = prevdefs) as -> by congruence.
  apply set_eq. intros [s t]. rewrite elem_of_keyset, elem_of_map.
  rewrite <- list_fmap_compose, list_elem_of_fmap. split.
  - intros ([l lbl] & Heq & Hin). simpl in Heq. inversion Heq; subst.
    exists l. split; [done|]. apply elem_of_map_to_list in Hin. rewrite Hspec in Hin.
    by destruct (decide _).
  - intros (l & Heq & Hin). inversion Heq; subst.
    exists (l, def_label keep_data type_ variable). split; [done|].
    apply elem_of_map_to_list. rewrite Hspec. by rewrite decide_True.
Qed.

Lemma def_edges_sim kd1 kd2 h live_defs variable type_ cur :
  variable_type variable = Ok type_ →
  res_sim (λ p1 p2,
             keyset ((λ p : CodeLocation * labels, (p.1, cur, p.2)) <$> map_to_list p1)
             = keyset ((λ p : CodeLocation * labels, (p.1, cur, p.2)) <$> map_to_list p2))
    (_def_lookup kd1 h live_defs variable) (_def_lookup kd2 h live_defs variable).
Proof.
  intros Hty.
  destruct (def_lookup_spec kd1 h live_defs variable type_ Hty) as (p1 & H1 & _).
  destruct (def_lookup_spec kd2 h live_defs variable type_ Hty) as (p2 & H2 & _).
  rewrite H1, H2. simpl.
  by rewrite (def_edges_keyset kd1 h live_defs variable type_ cur p1),
    (def_edges_keyset kd2 h live_defs variable type_ cur p2).
Qed.

Lemma dump_if_present_sim g1 g2 d1 d2 key :
  keyset g1 = keyset g2 → dict_rel d1 d2 →
  keyset (dump_if_present g1 d1 key).1 = keyset (dump_if_present g2 d2 key).1 ∧
  dict_rel (dump_if_present g1 d1 key).2 (dump_if_present g2 d2 key).2.
Proof.
  intros Hg (Hsim & Hok1 & Hok2). unfold dump_if_present.
  destruct (decide (is_Some (d1 !! key))) as [H1|H1].
  - rewrite decide_True by by apply (dict_sim_is_Some d1 d2). simpl. split.
    + rewrite !keyset_add_edges, Hg. f_equal. by apply dict_sim_get.
    + split_and!; [by apply dict_sim_delete|by apply dict_all_delete..].
  - rewrite decide_False; [done|]. intros H2. by apply H1, (dict_sim_is_Some d1 d2).
Qed.

Lemma dd_append_all {A} (f : A → edge) key l : ∀ dict_,
  foldl (λ d x, dd_append d key (f x)) dict_ l
  = match l with
    | [] => dict_
    | _ => <[key := dd_get dict_ key ++ (f <$> l)]> dict_
    end.
Proof.
  induction l as [|x l IH]; intros d; [done|].
  simpl. rewrite IH. unfold dd_append. destruct l as [|y l]; [done|].
  rewrite dd_get_insert, insert_insert_eq. by rewrite <- app_assoc.
Qed.

Lemma dd_append_all_sim {A} (f : A → edge) key l1 l2 d1 d2 :
  keyset (f <$> l1) = keyset (f <$> l2) → dict_rel d1 d2 →
  Forall (λ e : edge, subtype_ok e.2) (f <$> l1) →
  Forall (λ e : edge, subtype_ok e.2) (f <$> l2) →
  dict_rel (foldl (λ d x, dd_append d key (f x)) d1 l1)
    (foldl (λ d x, dd_append d key (f x)) d2 l2).
Proof.
  intros Hk (Hsim & Hok1 & Hok2) Hf1 Hf2. rewrite !dd_append_all.
  destruct l1 as [|x1 l1].
  - assert (l2 = []) as ->; [|done].
    apply (fmap_nil_inv f). apply keyset_nil_inv. by rewrite <- Hk.
  - destruct l2 as [|x2 l2].
    { assert (f <$> x1 :: l1 = []) as Hnil by (apply keyset_nil_inv; by rewrite Hk). done. }
    split_and!.
    + apply dict_sim_insert; [|done]. rewrite !keyset_app, Hk. f_equal.
      by apply dict_sim_get.
    + apply dict_all_insert; [done|]. apply Forall_app. split; [by apply dict_all_get|done].
    + apply dict_all_insert; [done|]. apply Forall_app. split; [by apply dict_all_get|done].
Qed.

(** Two states of a replay that differ in the labels of their edges only. *)
Definition track_sim (s1 s2 : track_state) : Prop :=
  ts_heap s1 = ts_heap s2 ∧ ts_live_defs s1 = ts_live_defs s2 ∧
  ts_temps s1 = ts_temps s2 ∧
  dict_rel (ts_temps_to_edges s1) (ts_temps_to_edges s2) ∧
  dict_rel (ts_regs_to_edges s1) (ts_regs_to_edges s2) ∧
  keyset (ts_graph s1) = keyset (ts_graph s2).

Definition def_edges (cur : CodeLocation) (prevdefs : gmap CodeLocation labels) : list edge :=
  (λ p : CodeLocation * labels, (p.1, cur, p.2)) <$> map_to_list prevdefs.

Lemma def_lookup_sim kd1 kd2 h live_defs variable type_ cur :
  variable_type variable = Ok type_ →
  res_sim (λ p1 p2,
             keyset (def_edges cur p1) = keyset (def_edges cur p2) ∧
             Forall (λ e : edge, subtype_ok e.2) (def_edges cur p1) ∧
             Forall (λ e : edge, subtype_ok e.2) (def_edges cur p2))
    (_def_lookup kd1 h live_defs variable) (_def_lookup kd2 h live_defs variable).
Proof.
  intros Hty.
  destruct (def_lookup_spec kd1 h live_defs variable type_ Hty) as (p1 & H1 & _).
  destruct (def_lookup_spec kd2 h live_defs variable type_ Hty) as (p2 & H2 & _).
  rewrite H1, H2. simpl. unfold def_edges. split_and!.
  - by rewrite (def_edges_keyset kd1 h live_defs variable type_ cur p1),
      (def_edges_keyset kd2 h live_defs variable type_ cur p2).
  - eapply (def_lookup_edges (λ e : edge, subtype_ok e.2)); [|done|exact H1].
    intros. apply def_label_subtype_ok.
  - eapply (def_lookup_edges (λ e : edge, subtype_ok e.2)); [|done|exact H2].
    intros. apply def_label_subtype_ok.
Qed.

Lemma track_mem_sim kd1 kd2 a loc s1 s2 addr :
  track_sim s1 s2 →
  res_sim track_sim (track_mem kd1 a loc s1 addr) (track_mem kd2 a loc s2 addr).
Proof.
  intros (Hh & Hl & Ht & Htte & Hregs & Hg). unfold track_mem. rewrite Hh, Hl, Ht.
  apply (bind_sim (λ g1 g2 : DiGraph, keyset g1 = keyset g2)).
  { destruct (decide (a_action a = A_read)); [|done].
    eapply bind_sim; [by apply (def_lookup_sim kd1 kd2 _ _ _ "mem" loc)|].
    intros p1 p2 (Hp & _). simpl. fold (def_edges loc p1) (def_edges loc p2).
    by rewrite !keyset_add_edges, Hg, Hp. }
  intros g1 g2 Hg'.
  eapply bind_sim; [by apply annotate_all_sim|]. intros r1 r2 Hr.
  eapply bind_sim; [by apply annotate_all_sim|]. intros t1 t2 Ht'.
  eapply bind_sim; [by apply annotate_all_sim|]. intros r1' r2' Hr'.
  eapply bind_sim; [by apply annotate_all_sim|]. intros t1' t2' Ht''.
  simpl. by split_and!.
Qed.

Lemma track_reg_sim kd1 kd2 a loc s1 s2 :
  track_sim s1 s2 →
  res_sim track_sim (track_reg kd1 a loc s1) (track_reg kd2 a loc s2).
Proof.
  intros (Hh & Hl & Ht & Htte & Hregs & Hg). unfold track_reg. rewrite Hh, Hl, Ht.
  destruct (decide (a_action a = A_read)); [|simpl; by split_and!].
  eapply bind_sim; [by apply (def_lookup_sim kd1 kd2 _ _ _ "reg" loc)|].
  intros p1 p2 (Hp & Hok1 & Hok2). simpl.
  destruct (dump_if_present_sim (ts_graph s1) (ts_graph s2) (ts_regs_to_edges s1)
              (ts_regs_to_edges s2) (a_offset a) Hg Hregs) as [Hg' Hd'].
  split_and!; [done..| |done].
  by apply (dd_append_all_sim (λ p : CodeLocation * labels, (p.1, loc, p.2))).
Qed.

Lemma dd_append_sim d1 d2 key e :
  dict_rel d1 d2 → subtype_ok e.2 → dict_rel (dd_append d1 key e) (dd_append d2 key e).
Proof.
  intros (Hsim & Hok1 & Hok2) He. unfold dd_append. split_and!.
  - apply dict_sim_insert; [|done]. rewrite !keyset_app. f_equal. by apply dict_sim_get.
  - by apply dict_all_append.
  - by apply dict_all_append.
Qed.

Lemma queue_tmp_edge_sim type_ loc s1 s2 tmp :
  track_sim s1 s2 →
  res_sim track_sim (queue_tmp_edge type_ loc s1 tmp) (queue_tmp_edge type_ loc s2 tmp).
Proof.
  intros (Hh & Hl & Ht & Htte & Hregs & Hg). unfold queue_tmp_edge. rewrite Hh, Hl, Ht.
  destruct (ts_temps s2 !! tmp) as [s|]; [|done]. simpl.
  destruct (dump_if_present_sim (ts_graph s1) (ts_graph s2) (ts_temps_to_edges s1)
              (ts_temps_to_edges s2) tmp Hg Htte) as [Hg' Hd'].
  split_and!; [done..| |done|done].
  apply dd_append_sim; [done|]. apply tmp_label_subtype_ok.
Qed.

Lemma track_action_sim kd1 kd2 s1 s2 a :
  track_sim s1 s2 →
  res_sim track_sim (track_action kd1 s1 a) (track_action kd2 s2 a).
Proof.
  intros Hsim. unfold track_action. destruct (a_type a).
  - apply for_each_sim; [done|]. intros addr ?? _. apply track_mem_sim.
  - by apply track_reg_sim.
  - unfold track_tmp. destruct (decide _); [by apply queue_tmp_edge_sim|].
    destruct Hsim as (Hh & Hl & Ht & Htte & Hregs & Hg). simpl. rewrite Hh, Hl, Ht.
    by split_and!.
  - apply for_each_sim; [done|]. intros tmp ?? _. apply queue_tmp_edge_sim.
  - done.
Qed.

Lemma keyset_dump_keys dict_ keys : ∀ g p,
  p ∈ keyset (foldl (λ g key, add_edges g (dd_get dict_ key)) g keys) ↔
  p ∈ keyset g ∨ ∃ k, k ∈ keys ∧ p ∈ keyset (dd_get dict_ k).
Proof.
  induction keys as [|k keys IH]; intros g p; simpl.
  - split; [by left|]. intros [?|(k & Hk & _)]; [done|]. by apply elem_of_nil in Hk.
  - rewrite IH, keyset_add_edges, elem_of_union. split.
    + intros [[?|?]|(k' & Hk' & Hp)]; [by left|right|right].
      * exists k. split; [left|done].
      * exists k'. split; [by right|done].
    + intros [?|(k' & Hk' & Hp)]; [left; by left|].
      apply elem_of_cons in Hk' as [->|Hk']; [left; by right|right; by exists k'].
Qed.

Lemma keyset_dump_all g dict_ p :
  p ∈ keyset (dump_all g dict_).1 ↔
  p ∈ keyset g ∨ ∃ k es, dict_ !! k = Some es ∧ p ∈ keyset es.
Proof.
  unfold dump_all. rewrite dump_keys_spec.
  - simpl. rewrite keyset_dump_keys. split.
    + intros [?|(k & Hk & Hp)]; [by left|right].
      apply list_elem_of_fmap in Hk as ([k' es] & -> & Hk).
      apply elem_of_map_to_list in Hk. exists k', es. split; [done|].
      unfold dd_get in Hp. simpl in Hp. by rewrite Hk in Hp.
    + intros [?|(k & es & Hk & Hp)]; [by left|right].
      exists k. split.
      * apply list_elem_of_fmap. exists (k, es). split; [done|]. by apply elem_of_map_to_list.
      * unfold dd_get. by rewrite Hk.
  - intros k Hk. apply list_elem_of_fmap in Hk as ([k' es] & -> & Hk).
    apply elem_of_map_to_list in Hk. by eauto.
Qed.

Lemma dump_all_sim g1 g2 d1 d2 :
  keyset g1 = keyset g2 → dict_sim d1 d2 →
  keyset (dump_all g1 d1).1 = keyset (dump_all g2 d2).1.
Proof.
  intros Hg Hd. apply set_eq. intros p. rewrite !keyset_dump_all, Hg.
  assert (∀ da db, dict_sim da db →
            (∃ k es, da !! k = Some es ∧ p ∈ keyset es) →
            ∃ k es, db !! k = Some es ∧ p ∈ keyset es) as Hone.
  { intros da db Hab (k & es & Hk & Hp). specialize (Hab k). rewrite Hk in Hab.
    destruct (db !! k) as [es'|] eqn:E; [|by inversion Hab]. exists k, es'. split; [done|].
    inversion Hab. congruence. }
  split.
  - intros [?|H]; [by left|right]. by apply (Hone d1 d2).
  - intros [?|H]; [by left|right]. apply (Hone d2 d1); [|done]. intros k. by rewrite Hd.
Qed.

Definition track_result_sim (r1 r2 : heap * DiGraph * live_defs_t) : Prop :=
  r1.1.1 = r2.1.1 ∧ keyset r1.1.2 = keyset r2.1.2 ∧ r1.2 = r2.2.

Lemma track_sim_result kd1 kd2 h g1 g2 state live_defs :
  keyset g1 = keyset g2 →
  res_sim track_result_sim (_track kd1 h g1 state live_defs)
    (_track kd2 h g2 state live_defs).
Proof.
  intros Hg. unfold _track.
  eapply (bind_sim track_sim).
  - unfold track_loop. apply for_each_sim.
    + split_and!; simpl; try done; split_and!; try done; apply dict_all_empty.
    + intros a ?? _. apply track_action_sim.
  - intros s1 s2 (Hh & Hl & Ht & (Htte & _) & (Hregs & _) & Hg'). simpl.
    split_and!; simpl; [done| |done].
    apply dump_all_sim; [|done]. by apply dump_all_sim.
Qed.

(** Two states of the loop that differ in the labels of the edges only. *)
Definition ddg_sim (σ1 σ2 : ddg_state) : Prop :=
  worklist σ1 = worklist σ2 ∧ worklist_set σ1 = worklist_set σ2 ∧
  live_defs_per_node σ1 = live_defs_per_node σ2 ∧ ddg_heap σ1 = ddg_heap σ2 ∧
  keyset (ddg_graph σ1) = keyset (ddg_graph σ2).

Lemma process_state_sim kd1 kd2 cfg node σ1 σ2 state :
  ddg_sim σ1 σ2 →
  res_sim ddg_sim (process_state kd1 cfg node σ1 state) (process_state kd2 cfg node σ2 state).
Proof.
  intros (Hwl & Hws & Hlpn & Hh & Hg). unfold process_state.
  destruct (_ && _); [simpl; by split_and!|].
  destruct (filter _ _) as [|successing_node rest]; [simpl; by split_and!|].
  rewrite Hwl, Hws, Hlpn, Hh.
  eapply bind_sim; [by apply (track_sim_result kd1 kd2)|].
  intros [[h1 g1] nd1] [[h2 g2] nd2] (Eh & Eg & End). simpl in Eh, Eg, End. subst.
  destruct (merge_defs _ _ _) as [[defs h'] changed]. simpl. by split_and!.
Qed.

Lemma construct_step_sim kd1 kd2 cfg σ1 σ2 :
  ddg_sim σ1 σ2 →
  res_sim ddg_sim (construct_step kd1 cfg σ1) (construct_step kd2 cfg σ2).
Proof.
  intros Hsim. pose proof Hsim as (Hwl & Hws & Hlpn & Hh & Hg). unfold construct_step.
  rewrite Hwl, Hws, Hlpn, Hh. destruct (worklist σ2) as [|node worklist'] eqn:Ewl.
  - done.
  - destruct (decide _); [|done]. apply for_each_sim; [by split_and!|].
    intros state ?? _. apply process_state_sim.
Qed.

(** X18: [keep_data] changes the labels only.  Two constructions from the
    same CFG and entry, one with [keep_data] and one without, with the same
    number of iterations allowed, end in the same way: both without an
    exception or both with the same exception (or both still running), and
    when they return, with the same dependences in the graph (the same pairs
    of source and target), the same snapshots and the same set objects. *)
Theorem keep_data_changes_labels_only fuel cfg start :
  match _construct fuel true cfg start, _construct fuel false cfg start with
  | Some r1, Some r2 =>
      res_sim (λ σ1 σ2,
                 keyset (ddg_graph σ1) = keyset (ddg_graph σ2) ∧
                 live_defs_per_node σ1 = live_defs_per_node σ2 ∧
                 ddg_heap σ1 = ddg_heap σ2) r1 r2
  | None, None => True
  | _, _ => False
  end.
Proof.
  unfold _construct.
  assert (ddg_sim (construct_init cfg (get_any_node cfg start))
            (construct_init cfg (get_any_node cfg start))) as Hinit by by split_and!.
  revert Hinit.
  generalize (construct_init cfg (get_any_node cfg start)) at 1 3.
  generalize (construct_init cfg (get_any_node cfg start)).
  induction fuel as [|fuel IH]; intros σ2 σ1 Hsim; simpl;
    pose proof Hsim as (Hwl & Hws & Hlpn & Hh & Hg); rewrite Hwl.
  - destruct (worklist σ2); [simpl; by split_and!|done].
  - destruct (worklist σ2) eqn:Ewl; [simpl; by split_and!|].
    pose proof (construct_step_sim true false cfg σ1 σ2 Hsim) as Hstep.
    destruct (construct_step true cfg σ1) as [σ1'|e1],
      (construct_step false cfg σ2) as [σ2'|e2]; simpl in Hstep; try done.
    by apply IH.
Qed.

(** * What flushing a group of pending edges does *)

Lemma Forall2_annotated_keys es es' :
  Forall2 annotated es es' → edge_key <$> es' = edge_key <$> es.
Proof.
  induction 1 as [|e e' es es' (He & _) Hes IH]; [done|].
  rewrite !fmap_cons, IH. unfold edge_key. by rewrite He.
Qed.

(** No group holds two edges for the same source and target. *)
Definition groups_distinct (dict_ : edge_dict) : Prop :=
  ∀ key, NoDup (edge_key <$> dd_get dict_ key).

Lemma groups_distinct_empty : groups_distinct ∅.
Proof. intros key. unfold dd_get. rewrite lookup_empty. constructor. Qed.

Lemma groups_distinct_insert dict_ key es :
  groups_distinct dict_ → NoDup (edge_key <$> es) → groups_distinct (<[key := es]> dict_).
Proof.
  intros Hd Hes k. destruct (decide (key = k)) as [->|Hne].
  - by rewrite dd_get_insert.
  - by rewrite dd_get_insert_ne.
Qed.

Lemma groups_distinct_delete dict_ key : groups_distinct dict_ → groups_distinct (delete key dict_).
Proof.
  intros Hd k. unfold dd_get. destruct (decide (key = k)) as [->|Hne].
  - rewrite lookup_delete_eq. constructor.
  - rewrite lookup_delete_ne by done. apply Hd.
Qed.

Lemma annotate_all_groups_distinct v dict_ deps dict' :
  groups_distinct dict_ → annotate_all v dict_ deps = Ok dict' → groups_distinct dict'.
Proof.
  intros Hd. unfold annotate_all. apply (for_each_ind _ groups_distinct); [done|].
  intros d1 key d2 _ Hd1 H. apply annotate_dict_spec in H as (es' & -> & Hes).
  apply groups_distinct_insert; [done|]. rewrite (Forall2_annotated_keys _ _ Hes). apply Hd1.
Qed.

Lemma dump_if_present_groups g dict_ key :
  groups_distinct dict_ →
  groups_distinct (dump_if_present g dict_ key).2 ∧
  dd_get (dump_if_present g dict_ key).2 key = [].
Proof.
  intros Hd. unfold dump_if_present. destruct (decide (is_Some (dict_ !! key))) as [Hk|Hk].
  - simpl. split; [by apply groups_distinct_delete|].
    unfold dd_get. by rewrite lookup_delete_eq.
  - split; [done|]. unfold dd_get. simpl.
    destruct (dict_ !! key) eqn:E; [|done]. destruct Hk. by eauto.
Qed.

Definition groups_ok (st : track_state) : Prop :=
  groups_distinct (ts_regs_to_edges st) ∧ groups_distinct (ts_temps_to_edges st).

Lemma queue_tmp_edge_groups type_ loc st tmp st' :
  groups_ok st → queue_tmp_edge type_ loc st tmp = Ok st' → groups_ok st'.
Proof.
  intros [Hr Ht] H. unfold queue_tmp_edge in H. destruct (ts_temps st !! tmp); [|done].
  inversion H; subst; clear H. split; simpl; [done|].
  destruct (dump_if_present_groups (ts_graph st) (ts_temps_to_edges st) tmp Ht) as [Hd Hnil].
  unfold dd_append. rewrite Hnil. apply groups_distinct_insert; [done|].
  simpl. apply NoDup_singleton.
Qed.

Lemma track_action_groups keep_data st a st' :
  groups_ok st → track_action keep_data st a = Ok st' → groups_ok st'.
Proof.
  intros Hst H. unfold track_action in H. destruct (a_type a).
  - revert H. apply (for_each_ind _ groups_ok); [done|].
    intros s1 addr s2 _ [Hr Ht] H. unfold track_mem in H.
    bind_inv H. bind_inv H. bind_inv H. bind_inv H. bind_inv H.
    inversion H; subst; clear H. split; simpl.
    + eapply annotate_all_groups_distinct; [|exact Hx2].
      eapply annotate_all_groups_distinct; [|exact Hx0]. done.
    + eapply annotate_all_groups_distinct; [|exact Hx3].
      eapply annotate_all_groups_distinct; [|exact Hx1]. done.
  - destruct Hst as [Hr Ht]. unfold track_reg in H.
    destruct (decide (a_action a = A_read)); [|by inversion H; subst].
    bind_inv H. inversion H; subst; clear H. split; simpl; [|done].
    destruct (dump_if_present_groups (ts_graph st) (ts_regs_to_edges st) (a_offset a) Hr)
      as [Hd Hnil].
    rewrite dd_append_all. destruct (map_to_list x) as [|p l] eqn:El; [done|].
    rewrite Hnil. apply groups_distinct_insert; [done|]. rewrite <- El. simpl.
    rewrite <- list_fmap_compose.
    assert (NoDup ((λ l0 : CodeLocation, (l0, code_loc_of a)) <$> (map_to_list x).*1)) as Hnd.
    { apply NoDup_fmap_2; [|apply NoDup_fst_map_to_list]. by intros ?? [= ->]. }
    by rewrite <- list_fmap_compose in Hnd.
  - unfold track_tmp in H. destruct (decide _); [by eapply queue_tmp_edge_groups|].
    by inversion H; subst.
  - revert H. apply (for_each_ind _ groups_ok); [done|].
    intros s1 tmp s2 _. apply queue_tmp_edge_groups.
  - by inversion H; subst.
Qed.

(** [add_edges] puts the new edges after the old ones, and only edges for
    pairs that the graph did not have. *)
Lemma add_edges_fresh es : ∀ g,
  ∃ new, add_edges g es = g ++ new ∧
         Forall (λ x : edge, has_edge g x.1.1 x.1.2 = false) new.
Proof.
  induction es as [|e es IH]; intros g.
  - exists []. split; [by rewrite app_nil_r|constructor].
  - rewrite add_edges_cons, add_edge_spec. destruct (has_edge g e.1.1 e.1.2) eqn:E.
    + apply IH.
    + destruct (IH (g ++ [(e.1.1, e.1.2, e.2)])) as (new & Hnew & Hall).
      exists ((e.1.1, e.1.2, e.2) :: new). split; [by rewrite Hnew, <- app_assoc|].
      constructor; [done|]. eapply Forall_impl; [exact Hall|].
      intros x Hx. simpl in Hx. destruct (has_edge g x.1.1 x.1.2) eqn:Ex; [|done].
      by rewrite (has_edge_app g _ _ _ Ex) in Hx.
Qed.

Lemma add_edges_keeps_first g es (x : edge) :
  has_edge g x.1.1 x.1.2 = true → x ∈ add_edges g es ↔ x ∈ g.
Proof.
  intros Hx. destruct (add_edges_fresh es g) as (new & -> & Hall). rewrite elem_of_app.
  split; [|by left]. intros [?|Hin]; [done|].
  rewrite Forall_forall in Hall. by rewrite (Hall x Hin) in Hx.
Qed.

Lemma add_edges_inserts es : ∀ g (e : edge),
  has_edge g e.1.1 e.1.2 = false → NoDup (edge_key <$> es) → e ∈ es →
  e ∈ add_edges g es.
Proof.
  induction es as [|e0 es IH]; intros g e Hg Hnd Hin; [by apply elem_of_nil in Hin|].
  rewrite fmap_cons in Hnd. apply NoDup_cons in Hnd as [Hnin Hnd].
  rewrite add_edges_cons. apply elem_of_cons in Hin as [->|Hin].
  - rewrite add_edge_spec, Hg.
    destruct (add_edges_prefix (g ++ [(e0.1.1, e0.1.2, e0.2)]) es) as [new ->].
    rewrite edge_eta. apply elem_of_app. left. apply elem_of_app. right. left.
  - apply IH; [|done..]. rewrite add_edge_spec.
    destruct (has_edge g e0.1.1 e0.1.2); [done|].
    apply has_edge_false. apply has_edge_false in Hg. rewrite fmap_app.
    intros Hin'. apply elem_of_app in Hin' as [?|Hin']; [done|].
    apply list_elem_of_singleton in Hin'. apply Hnin.
    apply list_elem_of_fmap. exists e. split; [|done].
    unfold edge_key. simpl in Hin'. destruct e as [[??]?], e0 as [[??]?]. simpl in *.
    congruence.
Qed.

(** The source, the target and the ["type"] label of an edge. *)
Definition type_view (edges : list edge)
  : list (CodeLocation * CodeLocation * option label_value) :=
  (λ e : edge, (e.1, e.2 !! "type")) <$> edges.

(** C8, as the code has it.  Every group of pending edges is flushed: when a
    read of a register or of a temporary finds a group under its own key, and
    for the groups that are left at the end of the trace; so that the graph
    that the replay returns has an edge from the source to the target of every
    edge that was pending at any point of the trace.  No group holds two edges
    for the same source and target.  Flushing hands the edges of the group to
    [_add_edge]: an edge whose source and target have no edge in the graph
    enters the graph as it is, with its labels; an edge whose source and
    target already have one is discarded, and the graph holds for that pair
    the edges it held before and no other. *)
Theorem pending_edges_flushed keep_data h g state live_defs pre post st h' g' new_defs :
  actions state = pre ++ post →
  track_loop keep_data pre (track_init h g live_defs) = Ok st →
  _track keep_data h g state live_defs = Ok (h', g', new_defs) →
  (∀ key e,
     e ∈ dd_get (ts_regs_to_edges st) key ∨ e ∈ dd_get (ts_temps_to_edges st) key →
     has_edge g' e.1.1 e.1.2 = true) ∧
  (∀ a post' st1 e,
     post = a :: post' → track_action keep_data st a = Ok st1 →
     a_action a = A_read →
     (a_type a = T_reg ∧ e ∈ dd_get (ts_regs_to_edges st) (a_offset a)) ∨
     (a_type a = T_tmp ∧ e ∈ dd_get (ts_temps_to_edges st) (a_tmp a)) →
     has_edge (ts_graph st1) e.1.1 e.1.2 = true) ∧
  (∀ key, NoDup (edge_key <$> dd_get (ts_regs_to_edges st) key) ∧
          NoDup (edge_key <$> dd_get (ts_temps_to_edges st) key)) ∧
  (∀ g0 dict_ key del_key (e : edge),
     groups_distinct dict_ → e ∈ dd_get dict_ key →
     let g1 := (_dump_edge_from_dict g0 dict_ key del_key).1 in
     (has_edge g0 e.1.1 e.1.2 = false → e ∈ g1) ∧
     (has_edge g0 e.1.1 e.1.2 = true →
      ∀ x : edge, edge_key x = edge_key e → x ∈ g1 ↔ x ∈ g0)).
Proof.
  intros Hacts Hpre H.
  destruct (pending_edges_in_graph keep_data h g state live_defs pre post st h' g' new_defs
              Hacts Hpre H) as [H1 H2].
  split_and!; [done|done| |].
  - assert (groups_ok st) as [Hr Ht]; [|by split].
    revert Hpre. unfold track_loop. apply (for_each_ind _ groups_ok).
    + split; apply groups_distinct_empty.
    + intros s1 a s2 _. apply track_action_groups.
  - intros g0 dict_ key del_key e Hd He g1. subst g1. unfold _dump_edge_from_dict; simpl.
    split.
    + intros Hg0. by apply add_edges_inserts.
    + intros Hg0 x Hx. apply add_edges_keeps_first.
      unfold edge_key in Hx. by rewrite Hx.
Qed.

Lemma pending_edges_flushed_witness :
  ∃ st h' g' new_defs,
    track_loop false [Demo.reg_read 0x2000 0 16]
      (track_init Demo.relabel_heap [] Demo.relabel_defs) = Ok st ∧
    _track false Demo.relabel_heap [] (Demo.boring 0x3000 Demo.relabel_trace)
      Demo.relabel_defs = Ok (h', g', new_defs) ∧
    (∀ key e,
       e ∈ dd_get (ts_regs_to_edges st) key ∨ e ∈ dd_get (ts_temps_to_edges st) key →
       has_edge g' e.1.1 e.1.2 = true) ∧
    (∀ a post' st1 e,
       [Demo.reg_read 0x2000 0 16; Demo.mem_write 0x2000 1 0x8000 [16]] = a :: post' →
       track_action false st a = Ok st1 →
       a_action a = A_read →
       (a_type a = T_reg ∧ e ∈ dd_get (ts_regs_to_edges st) (a_offset a)) ∨
       (a_type a = T_tmp ∧ e ∈ dd_get (ts_temps_to_edges st) (a_tmp a)) →
       has_edge (ts_graph st1) e.1.1 e.1.2 = true) ∧
    (∀ key, NoDup (edge_key <$> dd_get (ts_regs_to_edges st) key) ∧
            NoDup (edge_key <$> dd_get (ts_temps_to_edges st) key)) ∧
    (∀ g0 dict_ key del_key (e : edge),
       groups_distinct dict_ → e ∈ dd_get dict_ key →
       let g1 := (_dump_edge_from_dict g0 dict_ key del_key).1 in
       (has_edge g0 e.1.1 e.1.2 = false → e ∈ g1) ∧
       (has_edge g0 e.1.1 e.1.2 = true →
        ∀ x : edge, edge_key x = edge_key e → x ∈ g1 ↔ x ∈ g0)).
Proof.
  destruct (is_Ok_inv (track_loop false [Demo.reg_read 0x2000 0 16]
                         (track_init Demo.relabel_heap [] Demo.relabel_defs)))
    as [st Est]; [vm_compute; reflexivity|].
  destruct (is_Ok_inv (_track false Demo.relabel_heap []
                         (Demo.boring 0x3000 Demo.relabel_trace) Demo.relabel_defs))
    as [[[h' g'] nd] E]; [vm_compute; reflexivity|].
  exists st, h', g', nd. split; [exact Est|]. split; [exact E|].
  exact (pending_edges_flushed false Demo.relabel_heap []
           (Demo.boring 0x3000 Demo.relabel_trace) Demo.relabel_defs
           [Demo.reg_read 0x2000 0 16]
           [Demo.reg_read 0x2000 0 16; Demo.mem_write 0x2000 1 0x8000 [16]]
           st h' g' nd eq_refl Est E).
Defined.

(** C8 as stated fails.  The procedure "strlen" reads register 16 and then
    the memory cell at 0x8000, both last written by the procedure "read".  The
    read of the register queues the edge from "read" to "strlen" with the type
    "reg"; the read of the cell puts an edge for the same two code locations
    in the graph, with the type "mem"; at the end of the trace the queued
    group is flushed and [_add_edge] discards its edge: the graph returned
    holds the "mem" edge only. *)
Lemma queued_group_discarded :
  res_map (λ st, type_view (dd_get (ts_regs_to_edges st) 16))
    (track_loop false [Demo.proc_reg_read "strlen" 16]
       (track_init Demo.strlen_heap [] Demo.strlen_defs))
  = Ok [(Demo.proc_loc "read", Demo.proc_loc "strlen", Some (LStr "reg"))] ∧
  res_map (λ r : heap * DiGraph * live_defs_t, type_view r.1.2)
    (_track false Demo.strlen_heap [] (Demo.boring 0x3000 Demo.strlen_trace)
       Demo.strlen_defs)
  = Ok [(Demo.proc_loc "read", Demo.proc_loc "strlen", Some (LStr "mem"))].
Proof. by_evaluation. Qed.

(** * The predecessors in a constructed graph *)

Lemma construct_graph_ok fuel keep_data cfg start σ :
  _construct fuel keep_data cfg start = Some (Ok σ) → graph_ok cfg σ.
Proof.
  unfold _construct.
  assert (graph_ok cfg (construct_init cfg (get_any_node cfg start))) as Hinit.
  { split; simpl; [constructor|]. intros r l Hl. unfold deref in Hl.
    rewrite lookup_nil in Hl. by apply elem_of_empty in Hl. }
  revert Hinit. generalize (construct_init cfg (get_any_node cfg start)).
  induction fuel as [|fuel IH]; intros σ0 Hok H; simpl in H.
  - destruct (worklist σ0); [|done]. by inversion H; subst.
  - destruct (worklist σ0) as [|node worklist'] eqn:Ewl; [by inversion H; subst|].
    destruct (construct_step keep_data cfg σ0) as [σ1|e] eqn:Hstep; [|done].
    apply (IH σ1); [|done]. unfold construct_step in Hstep. rewrite Ewl in Hstep.
    destruct (decide _) as [_|_]; [|done].
    revert Hstep. apply (for_each_ind _ (graph_ok cfg)); [done|].
    intros s1 state s2 Hstate Hs1. by apply process_state_graph_ok.
Qed.

(** X1: [get_predecessors] on the graph that construction returns.  For a
    code location at which no action of the CFG defines or uses anything it
    raises; when it returns, the code location is one of a definition or of a
    use, no predecessor is listed twice, and every predecessor listed is the
    code location of a definition that has an edge to the code location asked
    for, which is then the code location of a use. *)
Theorem predecessors_of_constructed_graph fuel keep_data cfg start σ :
  _construct fuel keep_data cfg start = Some (Ok σ) →
  (∀ code_location,
     ¬ def_loc cfg code_location → ¬ use_loc cfg code_location →
     get_predecessors (ddg_graph σ) code_location = None) ∧
  (∀ code_location preds,
     get_predecessors (ddg_graph σ) code_location = Some preds →
     (def_loc cfg code_location ∨ use_loc cfg code_location) ∧
     NoDup preds ∧
     ∀ s, s ∈ preds →
          def_loc cfg s ∧ use_loc cfg code_location ∧
          has_edge (ddg_graph σ) s code_location = true).
Proof.
  intros H.
  destruct (construct_graph_ok fuel keep_data cfg start σ H) as [Hg _].
  rewrite Forall_forall in Hg.
  assert (NoDup (edge_key <$> ddg_graph σ)) as Hnd.
  { revert H. apply (construct_inv (λ g, NoDup (edge_key <$> g))).
    - intros. by apply add_edge_NoDup.
    - constructor. }
  assert (∀ code_location, __contains__ (ddg_graph σ) code_location = true →
            def_loc cfg code_location ∨ use_loc cfg code_location) as Hends.
  { intros code_location Hc.
    destruct (get_predecessors_spec (ddg_graph σ) code_location) as (_ & Hc' & _).
    apply Hc' in Hc as (e & He & [->| ->]); destruct (Hg e He) as (? & ? & _); by eauto. }
  split.
  - intros code_location Hd Hu.
    destruct (get_predecessors_spec (ddg_graph σ) code_location) as (Hn & _ & _).
    apply Hn. destruct (__contains__ (ddg_graph σ) code_location) eqn:E; [|done].
    destruct (Hends code_location E); done.
  - intros code_location preds Hp.
    destruct (get_predecessors_spec (ddg_graph σ) code_location) as (_ & _ & Hs).
    destruct (Hs preds Hp) as [Hmem Hno]. split_and!.
    + apply Hends. unfold get_predecessors in Hp.
      by destruct (__contains__ (ddg_graph σ) code_location).
    + by apply Hno.
    + intros s Hs'. apply Hmem in Hs'. split_and!; [| |done].
      * apply has_edge_true, elem_of_edge_keys in Hs' as [l Hl].
        by destruct (Hg _ Hl) as (? & _).
      * apply has_edge_true, elem_of_edge_keys in Hs' as [l Hl].
        by destruct (Hg _ Hl) as (_ & ? & _).
Qed.

Lemma predecessors_of_constructed_graph_witness :
  ∃ σ, _construct 10 false Demo.chain 0x1000 = Some (Ok σ) ∧
       (∀ code_location,
          ¬ def_loc Demo.chain code_location → ¬ use_loc Demo.chain code_location →
          get_predecessors (ddg_graph σ) code_location = None) ∧
       (∀ code_location preds,
          get_predecessors (ddg_graph σ) code_location = Some preds →
          (def_loc Demo.chain code_location ∨ use_loc Demo.chain code_location) ∧
          NoDup preds ∧
          ∀ s, s ∈ preds →
               def_loc Demo.chain s ∧ use_loc Demo.chain code_location ∧
               has_edge (ddg_graph σ) s code_location = true).
Proof.
  destruct (returns_inv (_construct 10 false Demo.chain 0x1000)) as [σ E];
    [vm_compute; reflexivity|].
  exists σ. split; [exact E|].
  exact (predecessors_of_constructed_graph 10 false Demo.chain 0x1000 σ E).
Defined.
